(** * Controller-group resolver and fetch guard of sybil-shield

    A shallow embedding of [src/lib/entity.ts] ([makeUnionFind], the text
    helpers and [computeControllerGroups]) and of the fetch guard of
    [src/unnamed/part_000] ([isBlockedHost], [assertAllowedUrl] and
    [safeFetchTextWithLimit]), followed by the properties that were
    checked against them: first the statements of the specification, then
    further properties of the code.

    Conventions of the embedding.
    - A JavaScript string is a [string]: a sequence of code units below 256.
      [a < b] on strings is the code-unit order [String.ltb].
    - A [Map] or [Set] that the source iterates is a list in insertion
      order; a [Map] that is only read and written by key ([parent],
      [size], [evidenceByPair]) is a [gmap].
    - Integer-valued numbers (lengths, sizes, identifiers) are [nat] or
      [Z]; [minGroupSize] is an integer, as the input contract has it. The
      score is an IEEE-754 binary64 value, computed with the operations of
      [SpecFloat] at precision 53 and maximal exponent 1024.
    - [find] recurses along parent links; the embedding gives it as many
      steps as the parent map has entries, plus one, and returns [None]
      when they do not suffice (the source would not return). The limit
      of the call stack is not modelled.
    - [new URL(l).hostname] belongs to the platform and is a parameter of
      the resolver that may fail.
    - The review store of [src/unnamed/part_000] only hands its arguments
      to IndexedDB; it is not embedded. *)

From Stdlib Require Import ZArith Ascii String List.
From Stdlib Require Import Floats.SpecFloat.
From stdpp Require Import gmap strings list sorting pretty.

Open Scope string_scope.

(** ** Numbers *)

Module Num.

Definition num := spec_float.

Definition add : num -> num -> num := SFadd 53 1024.
Definition sub : num -> num -> num := SFsub 53 1024.
Definition div : num -> num -> num := SFdiv 53 1024.

(** The binary64 value of an integer (exact below 2^53). *)
Definition ofZ (z : Z) : num := binary_normalize 53 1024 z 0 false.

(** A decimal literal [n / d] denotes the binary64 value nearest to it,
    which is what the correctly rounded division of two exact integers
    returns. *)
Definition lit (n d : Z) : num := div (ofZ n) (ofZ d).

Definition c_0_25 : num := Eval vm_compute in lit 25 100.
Definition c_0_15 : num := Eval vm_compute in lit 15 100.
Definition c_0_10 : num := Eval vm_compute in lit 10 100.
Definition c_1 : num := Eval vm_compute in ofZ 1.
Definition c_10 : num := Eval vm_compute in ofZ 10.

Definition ltb : num -> num -> bool := SFltb.

(** [Math.min]: NaN if an argument is NaN, and -0 below +0. *)
Definition min (x y : num) : num :=
  match SFcompare x y with
  | None => S754_nan
  | Some Lt => x
  | Some Gt => y
  | Some Eq => match x with S754_zero true => x | _ => y end
  end.

(** Truthiness of a number: neither zero nor NaN. *)
Definition truthy (x : num) : bool :=
  match x with
  | S754_zero _ | S754_nan => false
  | _ => true
  end.

(** The sign a sort comparator's result is read by. *)
Definition sign (x : num) : comparison :=
  match x with
  | S754_zero _ | S754_nan => Eq
  | S754_infinity s | S754_finite s _ _ => if s then Lt else Gt
  end.

End Num.

(** ** Strings *)

Module Str.

Definition code (c : ascii) : nat := nat_of_ascii c.

Definition between (lo hi : nat) (c : ascii) : bool :=
  (lo <=? code c)%nat && (code c <=? hi)%nat.

Definition is_digit : ascii -> bool := between 48 57.
Definition is_upper : ascii -> bool := between 65 90.
Definition is_lower : ascii -> bool := between 97 122.

(** [[a-fA-F0-9]] *)
Definition is_hex (c : ascii) : bool :=
  is_digit c || between 97 102 c || between 65 70 c.

(** [\w] *)
Definition is_word (c : ascii) : bool :=
  is_digit c || is_upper c || is_lower c || (code c =? 95)%nat.

(** Code units that [toLowerCase] changes, below 256: A-Z and the
    Latin-1 capitals U+00C0..U+00DE except the multiplication sign. *)
Definition lower_char (c : ascii) : ascii :=
  if is_upper c || (between 192 222 c && negb (code c =? 215)%nat)
  then ascii_of_nat (code c + 32) else c.

Fixpoint toLowerCase (s : string) : string :=
  match s with
  | EmptyString => EmptyString
  | String c r => String (lower_char c) (toLowerCase r)
  end.

(** White space and line terminators below 256. *)
Definition is_space (c : ascii) : bool :=
  between 9 13 c || (code c =? 32)%nat || (code c =? 160)%nat.

Fixpoint trimStart (s : string) : string :=
  match s with
  | String c r => if is_space c then trimStart r else s
  | EmptyString => EmptyString
  end.

Fixpoint trimEnd (s : string) : string :=
  match s with
  | EmptyString => EmptyString
  | String c r =>
      match trimEnd r with
      | EmptyString => if is_space c then EmptyString else String c EmptyString
      | r' => String c r'
      end
  end.

Definition trim (s : string) : string := trimEnd (trimStart s).

Definition startsWith (s pre : string) : bool := String.prefix pre s.

(** [s.split(sep)] for a one-character separator. *)
Fixpoint split (sep : ascii) (s : string) : list string :=
  match s with
  | EmptyString => [EmptyString]
  | String c r =>
      if Ascii.eqb c sep then EmptyString :: split sep r
      else match split sep r with
           | [] => [String c EmptyString]
           | p :: ps => String c p :: ps
           end
  end.

(** [parts.join(sep)] *)
Fixpoint join (sep : string) (parts : list string) : string :=
  match parts with
  | [] => EmptyString
  | [p] => p
  | p :: ps => p ++ sep ++ join sep ps
  end.

Fixpoint all (f : ascii -> bool) (s : string) : bool :=
  match s with
  | EmptyString => true
  | String c r => f c && all f r
  end.

(** [s] starts with [n] characters satisfying [f]; returns them and
    the rest. *)
Fixpoint take_while_n (f : ascii -> bool) (n : nat) (s : string)
  : option (string * string) :=
  match n with
  | O => Some (EmptyString, s)
  | S n' =>
      match s with
      | String c r =>
          if f c then
            match take_while_n f n' r with
            | Some (h, t) => Some (String c h, t)
            | None => None
            end
          else None
      | EmptyString => None
      end
  end.

End Str.

(** ** Text helpers *)

(** [/^0x[a-fA-F0-9]{40}$/.test(x)] *)
Definition looksLikeEvmAddress (x : string) : bool :=
  match x with
  | String "0" (String "x" r) => (String.length r =? 40)%nat && Str.all Str.is_hex r
  | _ => false
  end.

(** A match of [0x[a-fA-F0-9]{40}\b] at the head of [s]. *)
Definition evm_match_here (s : string) : option string :=
  match s with
  | String "0" (String "x" r) =>
      match Str.take_while_n Str.is_hex 40 r with
      | Some (h, EmptyString) => Some ("0x" ++ h)
      | Some (h, String c _) => if Str.is_word c then None else Some ("0x" ++ h)
      | None => None
      end
  | _ => None
  end.

(** The global scan of [/\b0x[a-fA-F0-9]{40}\b/g]. [prev_word] tells
    whether the character before the current position is a word
    character. A match cannot start inside an earlier match (every
    position there follows a word character), so the scan may advance
    one character at a time. *)
Fixpoint evm_scan (prev_word : bool) (s : string) : list string :=
  match s with
  | EmptyString => []
  | String c r =>
      let here :=
        if prev_word then None else evm_match_here s in
      match here with
      | Some m => Str.toLowerCase m :: evm_scan (Str.is_word c) r
      | None => evm_scan (Str.is_word c) r
      end
  end.

Definition extractEvmAddressesFromText (text : string) : list string :=
  evm_scan false text.

Definition COMMON_DOMAINS : list string :=
  [ "github.com"; "gist.github.com"; "raw.githubusercontent.com";
    "twitter.com"; "x.com"; "talent.app"; "warpcast.com"; "farcaster.xyz";
    "t.me"; "telegram.me"; "discord.gg"; "discord.com"; "linktr.ee";
    "medium.com"; "youtube.com"; "youtu.be" ].

(** [Set.has] / [Array.includes] on strings. *)
Definition has (x : string) (l : list string) : bool :=
  existsb (String.eqb x) l.

(** [h.replace(/^www\./, '')] *)
Definition strip_www (h : string) : string :=
  match h with
  | String "w" (String "w" (String "w" (String "." r))) => r
  | _ => h
  end.

(** ** Insertion-ordered containers *)

(** [Set.add]: a set keeps its elements in insertion order. *)
Definition setAdd (x : string) (s : list string) : list string :=
  if has x s then s else s ++ [x].

(** [new Set(array)] *)
Definition setOf (l : list string) : list string :=
  fold_left (fun s x => setAdd x s) l [].

(** [Map.get] on a map kept as its entries in insertion order. *)
Fixpoint mapGet {V : Type} (k : string) (m : list (string * V)) : option V :=
  match m with
  | [] => None
  | (k', v) :: m' => if String.eqb k' k then Some v else mapGet k m'
  end.

(** [Map.set]: an existing key keeps its place. *)
Fixpoint mapSet {V : Type} (k : string) (v : V) (m : list (string * V))
  : list (string * V) :=
  match m with
  | [] => [(k, v)]
  | (k', v') :: m' =>
      if String.eqb k' k then (k', v) :: m' else (k', v') :: mapSet k v m'
  end.

(** [if (!m.has(k)) m.set(k, new Set()); m.get(k).add(v)] *)
Fixpoint addToSet (k v : string) (m : list (string * list string))
  : list (string * list string) :=
  match m with
  | [] => [(k, [v])]
  | (k', s) :: m' =>
      if String.eqb k' k then (k', setAdd v s) :: m' else (k', s) :: addToSet k v m'
  end.

(** [if (!m.has(k)) m.set(k, []); m.get(k).push(v)] *)
Fixpoint pushTo (k v : string) (m : list (string * list string))
  : list (string * list string) :=
  match m with
  | [] => [(k, [v])]
  | (k', s) :: m' =>
      if String.eqb k' k then (k', (s ++ [v])%list) :: m' else (k', s) :: pushTo k v m'
  end.

(** A loop whose body may fail to return. *)
Fixpoint foldM {A S : Type} (f : S -> A -> option S) (l : list A) (s : S)
  : option S :=
  match l with
  | [] => Some s
  | x :: l' => match f s x with Some s' => foldM f l' s' | None => None end
  end.

(** [Array.prototype.sort] is stable; for a consistent comparator its
    result is the stable sorted arrangement, built here by insertion:
    an element goes before the first later element it does not follow. *)
Fixpoint sortInsert {A : Type} (cmp : A -> A -> comparison) (x : A) (l : list A)
  : list A :=
  match l with
  | [] => [x]
  | y :: l' =>
      match cmp x y with
      | Gt => y :: sortInsert cmp x l'
      | _ => x :: l
      end
  end.

Fixpoint sortBy {A : Type} (cmp : A -> A -> comparison) (l : list A) : list A :=
  match l with
  | [] => []
  | x :: l' => sortInsert cmp x (sortBy cmp l')
  end.

(** ** The disjoint-set structure *)

Record UnionFind := {
  parent : gmap string string;
  size : gmap string nat;
}.

Definition makeUnionFind (items : list string) : UnionFind :=
  fold_left
    (fun uf x => {| parent := <[x := x]> (parent uf); size := <[x := 1]> (size uf) |})
    items {| parent := ∅; size := ∅ |}.

(** [find] on the parent map. [!p] holds when [x] has no entry and also
    when its entry is the empty string. *)
Fixpoint find_from (fuel : nat) (par : gmap string string) (x : string)
  : option (string * gmap string string) :=
  match fuel with
  | O => None
  | S fuel' =>
      match par !! x with
      | None => Some (x, par)
      | Some p =>
          if String.eqb p "" then Some (x, par)
          else if String.eqb p x then Some (x, par)
          else
            match find_from fuel' par p with
            | Some (r, par') => Some (r, <[x := r]> par')
            | None => None
            end
      end
  end.

Definition find (uf : UnionFind) (x : string) : option (string * UnionFind) :=
  match find_from (S (base.size (parent uf))) (parent uf) x with
  | Some (r, par') => Some (r, {| parent := par'; size := size uf |})
  | None => None
  end.

(** [size.get(r) || 1] *)
Definition sizeOr1 (sz : gmap string nat) (r : string) : nat :=
  match sz !! r with
  | Some (S n) => S n
  | _ => 1
  end.

Definition union (uf : UnionFind) (a b : string) : option UnionFind :=
  match find uf a with
  | None => None
  | Some (ra, uf1) =>
      match find uf1 b with
      | None => None
      | Some (rb, uf2) =>
          if String.eqb ra rb then Some uf2
          else
            let sa := sizeOr1 (size uf2) ra in
            let sb := sizeOr1 (size uf2) rb in
            if (sa <? sb)%nat then
              Some {| parent := <[ra := rb]> (parent uf2);
                      size := <[rb := (sa + sb)%nat]> (size uf2) |}
            else
              Some {| parent := <[rb := ra]> (parent uf2);
                      size := <[ra := (sa + sb)%nat]> (size uf2) |}
      end
  end.

(** The value [uf.find(x)] returns. *)
Definition findRoot (uf : UnionFind) (x : string) : string :=
  match find uf x with
  | Some (r, _) => r
  | None => x
  end.

(** ** Evidence ledger and [connectMany] *)

(** [a < b ? `${a}||${b}` : `${b}||${a}`] *)
Definition pairKey (a b : string) : string :=
  if String.ltb a b then a ++ "||" ++ b else b ++ "||" ++ a.

Definition addEvidence (a b reason : string) (ev : gmap string (list string))
  : gmap string (list string) :=
  let key := pairKey a b in
  <[key := setAdd reason (default [] (ev !! key))]> ev.

(** The state the passes share: the forest and [evidenceByPair]. *)
Definition PassState : Type := UnionFind * gmap string (list string).

Definition connectStep (first reason : string) (st : PassState) (m : string)
  : option PassState :=
  match union (fst st) first m with
  | Some uf' => Some (uf', addEvidence first m reason (snd st))
  | None => None
  end.

Definition connectMany (members : list string) (reason : string) (st : PassState)
  : option PassState :=
  if (length members <? 2)%nat then Some st
  else
    match members with
    | [] => Some st
    | first :: rest => foldM (connectStep first reason) rest st
    end.

(** [m.forEach((set, key) => body)] *)
Definition forEachEntry
    (body : list string -> string -> PassState -> option PassState)
    (m : list (string * list string)) (st : PassState) : option PassState :=
  foldM (fun st e => body (snd e) (fst e) st) m st.

(** ** Input and output *)

(** The argument of [computeControllerGroups]. An input [Map] is the list
    of its entries in insertion order; [extraWalletsByActor] is optional;
    [minGroupSize] is an integer. *)
Record Input := {
  actors : list string;
  linksByActor : list (string * list string);
  bioByActor : list (string * string);
  handleStemByActor : list (string * string);
  sharedFundersByWallet : list (string * list string);
  extraWalletsByActor : option (list (string * list string));
  minGroupSize : Z;
}.

Record ControllerGroup := {
  controllerId : nat;
  members : list string;
  score : Num.num;
  evidence : list string;
}.

Record Output := {
  groups : list ControllerGroup;
  controllerIdByActor : list (string * nat);
}.

(** ** Scoring and evidence *)

(** The body of the pairwise evidence scan: [j] runs over the members
    after [a]. *)
Fixpoint scanPairs (ev : gmap string (list string)) (a : string)
    (rest : list string) (reasons : list string) : list string :=
  match rest with
  | [] => reasons
  | b :: rest' =>
      let reasons' :=
        fold_left (fun rs r => setAdd r rs) (default [] (ev !! pairKey a b)) reasons in
      if (8 <=? length reasons')%nat then reasons' else scanPairs ev a rest' reasons'
  end.

Fixpoint scanMembers (ev : gmap string (list string)) (ms : list string)
    (reasons : list string) : list string :=
  match ms with
  | [] => reasons
  | a :: rest =>
      let reasons' := scanPairs ev a rest reasons in
      if (8 <=? length reasons')%nat then reasons' else scanMembers ev rest reasons'
  end.

Definition collectReasons (ev : gmap string (list string)) (ms : list string)
  : list string :=
  scanMembers ev ms [].

Definition hasReason (pre : string) (reasonsArr : list string) : bool :=
  existsb (fun r => Str.startsWith r pre) reasonsArr.

Definition computeScore (memberCount : nat) (reasonsArr : list string) : Num.num :=
  let hasWallet := hasReason "Shared wallet:" reasonsArr in
  let hasFunder := hasReason "Common funder:" reasonsArr in
  let hasExactLink := hasReason "Shared link:" reasonsArr in
  let hasDomain := hasReason "Shared domain:" reasonsArr in
  let score := Num.c_0_25 in
  let score :=
    Num.add score
      (Num.min (Num.div (Num.ofZ (Z.of_nat memberCount - 2)) Num.c_10) Num.c_0_25) in
  let score := if hasWallet then Num.add score Num.c_0_25 else score in
  let score := if hasFunder then Num.add score Num.c_0_25 else score in
  let score := if hasExactLink then Num.add score Num.c_0_15 else score in
  let score := if hasDomain then Num.add score Num.c_0_10 else score in
  Num.min score Num.c_1.

(** [b.score - a.score || b.members.length - a.members.length], read by
    its sign. *)
Definition compareGroups (a b : ControllerGroup) : comparison :=
  let d := Num.sub (score b) (score a) in
  if Num.truthy d then Num.sign d
  else Z.compare (Z.of_nat (length (members b))) (Z.of_nat (length (members a))).

(** ** The resolver *)

Section Resolver.

(** [new URL(l).hostname], or [None] where the constructor throws. The
    parser belongs to the platform, not to the repository. *)
Variable urlHostname : string -> option string.

Fixpoint extractDomains (links : list string) : list string :=
  match links with
  | [] => []
  | l :: ls =>
      match urlHostname l with
      | Some h => Str.toLowerCase (strip_www h) :: extractDomains ls
      | None => extractDomains ls
      end
  end.

Variable input : Input.

Definition linksOf (a : string) : list string :=
  default [] (mapGet a (linksByActor input)).

(** 1) Shared exact links *)
Definition linkToActors : list (string * list string) :=
  fold_left
    (fun m a => fold_left (fun m l => addToSet l a m) (linksOf a) m)
    (actors input) [].

Definition linkBody (set : list string) (link : string) (st : PassState)
  : option PassState :=
  if (length set <? 2)%nat then Some st
  else connectMany set ("Shared link: " ++ link) st.

(** 2) Shared uncommon domains *)
Definition domainToActors : list (string * list string) :=
  fold_left
    (fun m a =>
       let domains :=
         List.filter (fun d => negb (has d COMMON_DOMAINS)) (extractDomains (linksOf a)) in
       fold_left (fun m d => addToSet d a m) (setOf domains) m)
    (actors input) [].

Definition domainBody (set : list string) (domain : string) (st : PassState)
  : option PassState :=
  if (length set <? 3)%nat then Some st
  else connectMany set ("Shared domain: " ++ domain) st.

(** 3) Shared handle stems *)
Definition stemToActors : list (string * list string) :=
  fold_left
    (fun m e =>
       let actor := fst e in
       let stem := snd e in
       if String.eqb stem "" then m else addToSet stem actor m)
    (handleStemByActor input) [].

Definition stemBody (set : list string) (stem : string) (st : PassState)
  : option PassState :=
  if (length set <? 4)%nat then Some st
  else connectMany set ("Shared handle stem: " ++ stem) st.

(** 3b) Exact base handle across platforms *)
Definition baseHandleToActors : list (string * list string) :=
  fold_left
    (fun m actor =>
       let parts := Str.split ":" actor in
       if (length parts <? 2)%nat then m
       else
         let base := Str.toLowerCase (Str.trim (Str.join ":" (tail parts))) in
         if (String.length base <? 3)%nat then m
         else addToSet base actor m)
    (actors input) [].

Definition baseBody (set : list string) (base : string) (st : PassState)
  : option PassState :=
  if (length set <? 2)%nat then Some st
  else connectMany set ("Same handle across platforms: " ++ base) st.

(** 4) Wallet address reuse *)
Definition walletsOf (a : string) : list string :=
  let bio := default "" (mapGet a (bioByActor input)) in
  let wallets := extractEvmAddressesFromText bio in
  let wallets :=
    (wallets ++ extractEvmAddressesFromText (Str.join (String "010" "") (linksOf a)))%list in
  let wallets :=
    match extraWalletsByActor input with
    | Some extra =>
        match mapGet a extra with
        | Some ws => (wallets ++ ws)%list
        | None => wallets
        end
    | None => wallets
    end in
  let wallets :=
    if looksLikeEvmAddress a then (wallets ++ [Str.toLowerCase a])%list else wallets in
  setOf (List.filter looksLikeEvmAddress wallets).

Definition walletToActors : list (string * list string) :=
  fold_left
    (fun m a => fold_left (fun m w => addToSet w a m) (walletsOf a) m)
    (actors input) [].

Definition walletBody (set : list string) (wallet : string) (st : PassState)
  : option PassState :=
  if (length set <? 2)%nat then Some st
  else connectMany set ("Shared wallet: " ++ wallet) st.

(** 5) Common funder across wallets *)
Definition funderToWallets : list (string * list string) :=
  fold_left
    (fun m e =>
       let wallet := fst e in
       let funders := snd e in
       fold_left
         (fun m f => if looksLikeEvmAddress f then addToSet f wallet m else m)
         funders m)
    (sharedFundersByWallet input) [].

Definition funderBody (walletSet : list string) (funder : string) (st : PassState)
  : option PassState :=
  if (length walletSet <? 2)%nat then Some st
  else connectMany walletSet ("Common funder: " ++ funder) st.

(** The passes, in the order of the source: first the five that group
    actors, then the one that groups funded wallets. *)
Definition runActorPasses : option PassState :=
  let st := (makeUnionFind (actors input), (∅ : gmap string (list string))) in
  st ← forEachEntry linkBody linkToActors st;
  st ← forEachEntry domainBody domainToActors st;
  st ← forEachEntry stemBody stemToActors st;
  st ← forEachEntry baseBody baseHandleToActors st;
  forEachEntry walletBody walletToActors st.

Definition runPasses : option PassState :=
  st ← runActorPasses;
  forEachEntry funderBody funderToWallets st.

(** Build groups: [rootToMembers]. *)
Definition rootStep (st : UnionFind * list (string * list string)) (a : string)
  : option (UnionFind * list (string * list string)) :=
  match find (fst st) a with
  | Some (r, uf') => Some (uf', pushTo r a (snd st))
  | None => None
  end.

Definition rootToMembers (uf : UnionFind)
  : option (UnionFind * list (string * list string)) :=
  foldM rootStep (actors input) (uf, []).

(** What the [rootToMembers.forEach] callback accumulates: [groups],
    [controllerIdByActor] and the counter [controllerId]. *)
Record GroupAcc := {
  acc_groups : list ControllerGroup;
  acc_ids : list (string * nat);
  acc_next : nat;
}.

Definition groupBody (ev : gmap string (list string)) (acc : GroupAcc)
    (ms : list string) : GroupAcc :=
  if (Z.of_nat (length ms) <? Z.max 2 (minGroupSize input))%Z then acc
  else
    let ms := sortBy String.compare ms in
    let reasonsArr := collectReasons ev ms in
    let group :=
      {| controllerId := acc_next acc;
         members := ms;
         score := computeScore (length ms) reasonsArr;
         evidence := take 8 reasonsArr |} in
    {| acc_groups := (acc_groups acc ++ [group])%list;
       acc_ids := fold_left (fun ids m => mapSet m (controllerId group) ids) ms (acc_ids acc);
       acc_next := S (acc_next acc) |}.

Definition buildGroups (ev : gmap string (list string))
    (rtm : list (string * list string)) : GroupAcc :=
  fold_left (fun acc e => groupBody ev acc (snd e)) rtm
    {| acc_groups := []; acc_ids := []; acc_next := 0 |}.

Definition computeControllerGroups : option Output :=
  st ← runPasses;
  r ← rootToMembers (fst st);
  let acc := buildGroups (snd st) (snd r) in
  Some {| groups := sortBy compareGroups (acc_groups acc);
          controllerIdByActor := acc_ids acc |}.

End Resolver.

(** ** A URL parser for the worked examples *)

(** The theorems below hold for every parser. The worked examples use
    this one: it reads [http://] and [https://] links and takes the host
    up to the first of [/ ? # :], in lower case; anything else fails. *)
Fixpoint hostUpTo (s : string) : string :=
  match s with
  | EmptyString => EmptyString
  | String c r =>
      if has (String c "") ["/"; "?"; "#"; ":"] then EmptyString
      else String c (hostUpTo r)
  end.

Definition simpleHostname (l : string) : option string :=
  let after :=
    if Str.startsWith l "https://" then Some (String.substring 8 (String.length l) l)
    else if Str.startsWith l "http://" then Some (String.substring 7 (String.length l) l)
    else None in
  match after with
  | Some r => let h := hostUpTo r in if String.eqb h "" then None else Some (Str.toLowerCase h)
  | None => None
  end.

(** * Fetching text with limits ([src/unnamed/part_000])

    [isBlockedHost], [assertAllowedUrl] and [safeFetchTextWithLimit].
    - The URL parser, [fetch], the body readers and the UTF-8 decoder
      belong to the platform. A [URL] object is the record of the three
      properties the source reads; a [Response] is the record of what the
      source reads from it; [fetch] is a function of the state of the
      world and the request, since the same request may be answered
      differently each time.
    - [maxBytes], [timeoutMs], [maxRedirects] and [status] are integers.
    - A promise that rejects and a [throw] are the same outcome, [Threw]. *)

(** [s.endsWith(suf)] *)
Fixpoint endsWith (s suf : string) : bool :=
  String.eqb s suf ||
  match s with
  | EmptyString => false
  | String _ r => endsWith r suf
  end.

(** The value of the longest prefix of decimal digits, after [acc]. *)
Fixpoint digitsValue (acc : Z) (s : string) : Z :=
  match s with
  | String c r =>
      if Str.is_digit c then digitsValue (acc * 10 + Z.of_nat (Str.code c - 48)) r
      else acc
  | EmptyString => acc
  end.

(** [Number.parseInt(x, 10)]: white space, a sign, then digits; [None]
    is NaN. The value is the exact integer: the source compares it with
    integers below 2^53 only, and a digit string that large does not
    round to one of them. *)
Definition parseInt10 (x : string) : option Z :=
  let s := Str.trimStart x in
  let '(neg, s) :=
    match s with
    | String "-" r => (true, r)
    | String "+" r => (false, r)
    | _ => (false, s)
    end in
  match s with
  | String c _ =>
      if Str.is_digit c then Some (if neg then - digitsValue 0 s else digitsValue 0 s)%Z
      else None
  | EmptyString => None
  end.

(** [/^\d+\.\d+\.\d+\.\d+$/.test(h)]: four non-empty runs of digits
    separated by dots. *)
Definition isDottedQuad (h : string) : bool :=
  match Str.split "." h with
  | [p1; p2; p3; p4] =>
      forallb (λ p, negb (String.eqb p "") && Str.all Str.is_digit p) [p1; p2; p3; p4]
  | _ => false
  end.

(** [a === n], [b >= n] and [b <= n] on a number that may be NaN. *)
Definition numIs (a : option Z) (n : Z) : bool :=
  match a with Some z => (z =? n)%Z | None => false end.

Definition numGe (a : option Z) (n : Z) : bool :=
  match a with Some z => (n <=? z)%Z | None => false end.

Definition numLe (a : option Z) (n : Z) : bool :=
  match a with Some z => (z <=? n)%Z | None => false end.

Definition isBlockedHost (hostname : string) : bool :=
  let h := Str.toLowerCase hostname in
  if String.eqb h "localhost" || endsWith h ".local" then true
  else if String.eqb h "127.0.0.1" || String.eqb h "0.0.0.0" || String.eqb h "::1" then true
  else if isDottedQuad h then
    let parts := map parseInt10 (Str.split "." h) in
    let a := nth 0 parts None in
    let b := nth 1 parts None in
    if numIs a 10 then true
    else if numIs a 127 then true
    else if numIs a 169 && numIs b 254 then true
    else if numIs a 172 && numGe b 16 && numLe b 31 then true
    else if numIs a 192 && numIs b 168 then true
    else false
  else false.

(** What is thrown: an [Error] made by the source, or whatever the
    platform throws. *)
Inductive Exn :=
| Error (message : string)
| Platform (name : string).

Inductive Outcome (A : Type) :=
| Returned (a : A)
| Threw (e : Exn).

Arguments Returned {A} a.
Arguments Threw {A} e.

(** The properties of a [URL] the source reads; [href] is what
    [toString()] gives. *)
Record Url := {
  href : string;
  protocol : string;
  hostname : string;
}.

Definition assertAllowedUrl (u : Url) (allowHttp : bool) : Outcome unit :=
  if negb (String.eqb (protocol u) "https:")
     && negb (allowHttp && String.eqb (protocol u) "http:")
  then Threw (Error "URL protocol not allowed")
  else if isBlockedHost (hostname u) then Threw (Error "Blocked host")
  else Returned tt.

Record SafeFetchOptions := {
  maxBytes : Z;
  timeoutMs : Z;
  userAgent : option string;
  allowHttp : option bool;
  maxRedirects : option Z;
}.

(** What the source reads from a [Response]. *)
Record Response := {
  status : Z;
  ok : bool;
  statusText : string;
  headerLocation : option string;
  headerContentType : option string;
  bodyText : Outcome string;
  bodyBytes : Outcome (list Byte.byte);
}.

Record FetchedText := {
  contentType : string;
  text : string;
  finalUrl : string;
}.

(** [[301, 302, 303, 307, 308].includes(status)] *)
Definition isRedirect (status : Z) : bool :=
  existsb (Z.eqb status) [301; 302; 303; 307; 308]%Z.

Section SafeFetch.

(** The state of everything outside the program. *)
Variable World : Type.

(** [new URL(url)] and [new URL(location, base)] *)
Variable parseUrl : string → Outcome Url.
Variable resolveUrl : string → string → Outcome Url.

(** [fetch(url, { cache: 'no-store', redirect: 'manual', headers, signal })]
    with the signal aborted after [timeout] milliseconds. *)
Variable fetch :
  World → string → list (string * string) → Z → World * Outcome Response.

(** [new TextDecoder('utf-8').decode(buf)] *)
Variable decodeUtf8 : list Byte.byte → string.

(** The result of a run: the world after it, the URLs that were given
    to [fetch], in order, and the outcome. *)
Definition Run : Type := World * list Url * Outcome FetchedText.

(** The [for] loop; [fuel] counts the iterations that are left. *)
Fixpoint redirectLoop (maxBytes timeoutMs : Z) (allowHttp : bool)
    (headers : list (string * string))
    (fuel : nat) (w : World) (current : Url) (log : list Url) : Run :=
  match fuel with
  | O => (w, log, Threw (Error "Too many redirects"))
  | S fuel' =>
      let '(w, fetched) := fetch w (href current) headers timeoutMs in
      let log := (log ++ [current])%list in
      match fetched with
      | Threw e => (w, log, Threw e)
      | Returned res =>
          if isRedirect (status res) then
            match headerLocation res with
            | None | Some EmptyString =>
                (w, log,
                 Threw (Error ("Redirect (" ++ pretty (status res)
                               ++ ") missing Location header")))
            | Some location =>
                match resolveUrl location (href current) with
                | Threw e => (w, log, Threw e)
                | Returned next =>
                    match assertAllowedUrl next allowHttp with
                    | Threw e => (w, log, Threw e)
                    | Returned _ =>
                        redirectLoop maxBytes timeoutMs allowHttp headers fuel' w next log
                    end
                end
            end
          else
            let finalUrl := href current in
            if negb (ok res) then
              let text := match bodyText res with Returned t => t | Threw _ => "" end in
              (w, log,
               Threw (Error ("Fetch failed (" ++ pretty (status res) ++ "): "
                             ++ (if String.eqb text "" then statusText res else text))))
            else
              let contentType :=
                match headerContentType res with Some t => t | None => "" end in
              match bodyBytes res with
              | Threw e => (w, log, Threw e)
              | Returned buf =>
                  if (maxBytes <? Z.of_nat (length buf))%Z then
                    (w, log,
                     Threw (Error ("Response too large (>" ++ pretty maxBytes ++ " bytes)")))
                  else
                    (w, log,
                     Returned {| contentType := contentType;
                                 text := decodeUtf8 buf;
                                 finalUrl := finalUrl |})
              end
      end
  end.

Definition safeFetchTextWithLimit (w : World) (url : string) (opts : SafeFetchOptions)
  : Run :=
  let maxBytes := Z.max 1 (maxBytes opts) in
  let timeoutMs := Z.max 1000 (timeoutMs opts) in
  let allowHttp := match allowHttp opts with Some b => b | None => false end in
  let maxRedirects :=
    Z.min (Z.max (match maxRedirects opts with Some n => n | None => 3 end) 0) 10 in
  match parseUrl url with
  | Threw e => (w, [], Threw e)
  | Returned current =>
      match assertAllowedUrl current allowHttp with
      | Threw e => (w, [], Threw e)
      | Returned _ =>
          let headers :=
            match userAgent opts with
            | Some ua => if String.eqb ua "" then [] else [("User-Agent", ua)]
            | None => []
            end in
          redirectLoop maxBytes timeoutMs allowHttp headers
            (Z.to_nat (maxRedirects + 1)) w current []
      end
  end.

End SafeFetch.

(** * Properties *)

Local Open Scope nat_scope.

(** ** The forest behind [find] *)

Section Forest.

Implicit Types (p : gmap string string) (x y r : string).

(** [find] follows the entry of [x] when it is neither empty nor [x]
    itself. *)
Definition link p x y : Prop := p !! x = Some y ∧ y ≠ "" ∧ y ≠ x.

Definition isRoot p x : Prop := ∀ y, ¬ link p x y.

Inductive rootOf p : string → string → Prop :=
| rootOf_here x : isRoot p x → rootOf p x x
| rootOf_step x y r : link p x y → rootOf p y r → rootOf p x r.

Definition same p x y : Prop := ∃ r, rootOf p x r ∧ rootOf p y r.

Lemma link_fun p x y y' : link p x y → link p x y' → y = y'.
Proof. intros [H _] [H' _]. congruence. Qed.

Lemma rootOf_det p x r r' : rootOf p x r → rootOf p x r' → r = r'.
Proof.
  induction 1 as [x Hx | x y r Hl _ IH]; inversion 1 as [? Hx' | ? y' ? Hl' Hr']; subst.
  - done.
  - destruct (Hx _ Hl').
  - destruct (Hx' _ Hl).
  - apply IH. by rewrite (link_fun _ _ _ _ Hl Hl').
Qed.

Lemma rootOf_isRoot p x r : rootOf p x r → isRoot p r.
Proof. induction 1; auto. Qed.

Lemma rootOf_nonempty p x r : rootOf p x r → x ≠ "" → r ≠ "".
Proof. induction 1 as [| x y r [_ [Hy _]] _ IH]; auto. Qed.

Lemma rootOf_root p r : isRoot p r → ∀ s, rootOf p r s → s = r.
Proof. intros Hr s Hs. eapply rootOf_det; [exact Hs | by constructor]. Qed.

Lemma isRoot_lookup p x :
  isRoot p x ↔ p !! x = None ∨ p !! x = Some "" ∨ p !! x = Some x.
Proof.
  split.
  - intros H. destruct (p !! x) as [y|] eqn:E; [|by left]. right.
    destruct (decide (y = "")) as [->|]; [by left|].
    destruct (decide (y = x)) as [->|]; [by right|].
    destruct (H y). by split.
  - intros H y [E [H1 H2]]. rewrite E in H.
    destruct H as [H | [H | H]]; congruence.
Qed.

(** What path compression does to the map: some non-roots of root
    [r] now point at [r]. *)
Definition compressed p p' r : Prop :=
  ∀ y, p' !! y = p !! y ∨ (p' !! y = Some r ∧ rootOf p y r ∧ ∃ z, link p y z).

Lemma compressed_refl p r : compressed p p r.
Proof. intros y. by left. Qed.

Lemma compressed_isRoot p p' r y : compressed p p' r → isRoot p y → isRoot p' y.
Proof.
  intros Hc Hy z [Hz ?]. destruct (Hc y) as [E | (_ & _ & z' & Hl)].
  - apply (Hy z). split; [congruence | done].
  - by apply (Hy z').
Qed.

Lemma compressed_link p p' r y z :
  compressed p p' r → link p y z →
  link p' y z ∨ (link p' y r ∧ rootOf p y r).
Proof.
  intros Hc Hl. destruct (Hc y) as [E | (E & Hr & _)].
  - left. destruct Hl as [? ?]. split; [congruence | done].
  - right. split; [|done]. split; [done|]. split.
    + inversion Hr as [? Hy | ? y' ? Hl' Hr']; subst.
      * by destruct (Hy z).
      * eapply rootOf_nonempty; [exact Hr' | by destruct Hl' as (_ & ? & _)].
    + intros ->. apply rootOf_isRoot in Hr. by destruct (Hr z).
Qed.

Lemma compressed_rootOf p p' r y s :
  compressed p p' r → rootOf p y s → rootOf p' y s.
Proof.
  intros Hc. induction 1 as [y Hy | y z s Hl Hs IH].
  - constructor. by eapply compressed_isRoot.
  - destruct (compressed_link p p' r y z Hc Hl) as [Hl' | [Hl' Hr]].
    + by econstructor.
    + assert (s = r) as -> by (eapply rootOf_det; [|exact Hr]; by econstructor).
      econstructor; [exact Hl'|]. constructor.
      eapply compressed_isRoot; [exact Hc|]. by eapply rootOf_isRoot.
Qed.

(** [find_from] returns the root and a compressed map. *)
Lemma find_from_spec fuel p x r p' :
  find_from fuel p x = Some (r, p') → rootOf p x r ∧ compressed p p' r.
Proof.
  revert x r p'. induction fuel as [|fuel IH]; intros x r p'; [done|]. simpl.
  destruct (p !! x) as [y|] eqn:E.
  2:{ intros [= <- <-]. split; [|apply compressed_refl].
      constructor. apply isRoot_lookup. by left. }
  destruct (String.eqb_spec y "") as [->|Hy].
  { intros [= <- <-]. split; [|apply compressed_refl].
    constructor. apply isRoot_lookup. right. by left. }
  destruct (String.eqb_spec y x) as [->|Hyx].
  { intros [= <- <-]. split; [|apply compressed_refl].
    constructor. apply isRoot_lookup. right. by right. }
  destruct (find_from fuel p y) as [[r0 p0]|] eqn:F; [|done].
  intros [= <- <-]. destruct (IH _ _ _ F) as [Hr Hc].
  assert (link p x y) as Hl by done.
  split; [by econstructor|].
  intros z. destruct (decide (x = z)) as [<-|Hne].
  - right. rewrite lookup_insert_eq. split; [done|]. split; [by econstructor | by exists y].
  - rewrite lookup_insert_ne; [|done]. apply Hc.
Qed.

End Forest.

(** ** Termination of [find]: ranks *)

Section Ranks.

Implicit Types (p : gmap string string) (x y r : string).

(** The entries [find] follows. *)
Definition linked p : gmap string string :=
  filter (λ kv, kv.2 ≠ "" ∧ kv.2 ≠ kv.1) p.

Definition nlinks p : nat := base.size (linked p).

Lemma linked_lookup p x y : linked p !! x = Some y ↔ link p x y.
Proof. unfold linked, link. rewrite map_lookup_filter_Some. naive_solver. Qed.

Lemma nlinks_le p : nlinks p ≤ base.size p.
Proof. apply map_subseteq_size, map_filter_subseteq. Qed.

Lemma linked_dom_eq p p' :
  (∀ y, (∃ z, link p y z) ↔ (∃ z, link p' y z)) → nlinks p = nlinks p'.
Proof.
  intros H. unfold nlinks. rewrite <- !(size_dom (D := gset string)). f_equal.
  apply set_eq. intros y. rewrite !elem_of_dom. unfold is_Some.
  setoid_rewrite linked_lookup. apply H.
Qed.

(** Links go up in rank, and ranks are bounded by the number of the
    links. *)
Definition ranked p : Prop :=
  ∃ rk : string → nat,
    (∀ x y, link p x y → rk x < rk y) ∧ (∀ x, rk x ≤ nlinks p).

Lemma ranked_empty : ranked ∅.
Proof.
  exists (λ _, 0). split; [|intros; lia].
  intros x y [H _]. by rewrite lookup_empty in H.
Qed.

Lemma find_from_total p :
  ranked p → ∀ fuel x, nlinks p < fuel → is_Some (find_from fuel p x).
Proof.
  intros (rk & Hrk & Hb).
  assert (∀ fuel x, nlinks p - rk x < fuel → is_Some (find_from fuel p x)) as H.
  { induction fuel as [|fuel IH]; intros x Hf; [lia|]. simpl.
    destruct (p !! x) as [y|] eqn:E; [|done].
    destruct (String.eqb_spec y ""); [done|].
    destruct (String.eqb_spec y x); [done|].
    assert (rk x < rk y) by (by apply Hrk).
    pose proof (Hb y).
    destruct (IH y) as [[r0 p0] ->]; [lia | done]. }
  intros fuel x Hf. apply H. lia.
Qed.

Lemma rootOf_total p x : ranked p → ∃ r, rootOf p x r.
Proof.
  intros Hp. destruct (find_from_total p Hp (S (nlinks p)) x) as [[r p'] H]; [lia|].
  exists r. by apply find_from_spec in H as [? _].
Qed.

Lemma rank_le_root p (rk : string → nat) y r :
  (∀ x y, link p x y → rk x < rk y) → rootOf p y r → rk y ≤ rk r.
Proof.
  intros Hrk. induction 1 as [|y z r Hl _ IH]; [done|].
  apply Hrk in Hl. lia.
Qed.

Lemma compressed_links p p' r y :
  compressed p p' r → (∃ z, link p y z) ↔ (∃ z, link p' y z).
Proof.
  intros Hc. split.
  - intros [z Hl]. destruct (compressed_link _ _ _ _ _ Hc Hl) as [?|[? _]]; eauto.
  - intros [z [E Hz]]. destruct (Hc y) as [E' | (_ & _ & H)]; [|done].
    exists z. split; [congruence | done].
Qed.

Lemma compressed_ranked p p' r : ranked p → compressed p p' r → ranked p'.
Proof.
  intros (rk & Hrk & Hb) Hc. exists rk. split.
  - intros x y [E Hy]. destruct (Hc x) as [E' | (E' & Hr & z & Hl)].
    + apply Hrk. split; [congruence | done].
    + assert (y = r) as -> by congruence.
      inversion Hr as [? Hx | ? z' ? Hl' Hr']; subst.
      * by destruct (Hx z).
      * apply Hrk in Hl'. pose proof (rank_le_root _ _ _ _ Hrk Hr'). lia.
  - intros x. rewrite <- (linked_dom_eq p p'); [done|].
    intros y. by eapply compressed_links.
Qed.

(** Path compression keeps every root. *)
Lemma compressed_same_roots p p' r :
  ranked p → compressed p p' r → ∀ y s, rootOf p' y s ↔ rootOf p y s.
Proof.
  intros Hp Hc y s. split; [|by eapply compressed_rootOf].
  intros H'. destruct (rootOf_total p y Hp) as [s0 H0].
  pose proof (compressed_rootOf _ _ _ _ _ Hc H0) as H1.
  by rewrite (rootOf_det _ _ _ _ H' H1).
Qed.

(** Attaching a root [l] under another root [w]. *)
Lemma nlinks_attach_root p l w : isRoot p l → nlinks p ≤ nlinks (<[l := w]> p).
Proof.
  intros Hl. apply map_subseteq_size, map_subseteq_spec. intros x y.
  rewrite !linked_lookup. intros [E Hy]. split; [|done].
  rewrite lookup_insert_ne; [done|]. intros ->. by destruct (Hl y).
Qed.

Lemma nlinks_attach_link p l w :
  isRoot p l → w ≠ "" → w ≠ l → nlinks (<[l := w]> p) = S (nlinks p).
Proof.
  intros Hl H1 H2. unfold nlinks, linked.
  rewrite map_filter_insert_True; [|done].
  apply map_size_insert_None.
  destruct (filter _ p !! l) as [y|] eqn:E; [|done].
  apply (linked_lookup p l y) in E. by destruct (Hl y).
Qed.

Lemma attach_link p l w x y :
  isRoot p l → link (<[l := w]> p) x y → (x = l ∧ y = w) ∨ (x ≠ l ∧ link p x y).
Proof.
  intros Hl [E Hy]. destruct (decide (l = x)) as [->|Hne].
  - rewrite lookup_insert_eq in E. left. split; congruence.
  - rewrite lookup_insert_ne in E; [|done]. right. by split.
Qed.

Lemma attach_ranked p l w :
  ranked p → isRoot p l → isRoot p w → l ≠ w → ranked (<[l := w]> p).
Proof.
  intros (rk & Hrk & Hb) Hl Hw Hne.
  destruct (decide (w = "")) as [->|Hw0].
  - exists rk. split.
    + intros x y H. pose proof H as (_ & Hy & _).
      apply attach_link in H as [[_ ->] | [_ H]]; [done | by apply Hrk | done].
    + intros x. pose proof (Hb x). pose proof (nlinks_attach_root p l "" Hl). lia.
  - exists (λ x, if decide (x = w) then Nat.max (rk w) (S (rk l)) else rk x). split.
    + intros x y H. apply attach_link in H as [[-> ->] | [Hx H]]; [| |done].
      * rewrite decide_False; [|done]. rewrite decide_True; [|done]. lia.
      * rewrite decide_False; [|intros ->; by destruct (Hw y)].
        apply Hrk in H. case_decide; [subst y|]; lia.
    + intros x. rewrite nlinks_attach_link; [|done..].
      pose proof (Hb x). pose proof (Hb w). pose proof (Hb l).
      case_decide; lia.
Qed.

Lemma attach_rootOf p l w y s :
  isRoot p l → isRoot p w → l ≠ w → w ≠ "" →
  rootOf p y s → rootOf (<[l := w]> p) y (if decide (s = l) then w else s).
Proof.
  intros Hl Hw Hne Hw0.
  assert (rootOf (<[l := w]> p) w w) as Hww.
  { constructor. intros z [E Hz]. rewrite lookup_insert_ne in E; [|done].
    by destruct (Hw z). }
  induction 1 as [y Hy | y z s Hyz _ IH].
  - case_decide as Hd.
    + subst y. econstructor; [|exact Hww]. split; [apply lookup_insert_eq | done].
    + constructor. intros z [E Hz]. rewrite lookup_insert_ne in E; [|done].
      by destruct (Hy z).
  - econstructor; [|exact IH]. destruct Hyz as [E Hz]. split; [|done].
    rewrite lookup_insert_ne; [done|]. intros ->. destruct (Hl z). by split.
Qed.

(** Attaching under the empty string changes no root: [find] does not
    follow an empty entry. *)
Lemma attach_empty_rootOf p l y s :
  isRoot p l → rootOf p y s → rootOf (<[l := ""]> p) y s.
Proof.
  intros Hl. induction 1 as [y Hy | y z s Hyz _ IH].
  - constructor. intros z H. pose proof H as (_ & Hz & _).
    apply attach_link in H as [[_ ->] | [_ H]]; [done | by destruct (Hy z) | done].
  - econstructor; [|exact IH]. destruct Hyz as [E Hz]. split; [|done].
    rewrite lookup_insert_ne; [done|]. intros ->. destruct (Hl z). by split.
Qed.

End Ranks.

(** ** [find] and [union] on the structure *)

Section UnionFindSpec.

Implicit Types (uf : UnionFind) (x y a b r : string).

(** The invariant of the structure. *)
Definition wf uf : Prop := ranked (parent uf).

Lemma find_total uf x : wf uf → ∃ r uf', find uf x = Some (r, uf').
Proof.
  intros H. unfold find.
  destruct (find_from_total _ H (S (base.size (parent uf))) x) as [[r p'] ->]; [|eauto].
  pose proof (nlinks_le (parent uf)). lia.
Qed.

Lemma find_spec uf x r uf' :
  wf uf → find uf x = Some (r, uf') →
  rootOf (parent uf) x r ∧ wf uf' ∧ size uf' = size uf ∧
  ∀ y s, rootOf (parent uf') y s ↔ rootOf (parent uf) y s.
Proof.
  intros H. unfold find.
  destruct (find_from _ _ x) as [[r0 p']|] eqn:F; [|done]. intros [= <- <-].
  apply find_from_spec in F as [Hr Hc]. simpl.
  split; [done|]. split; [by eapply compressed_ranked|]. split; [done|].
  intros y s. exact (compressed_same_roots _ _ _ H Hc y s).
Qed.

Lemma findRoot_spec uf x : wf uf → rootOf (parent uf) x (findRoot uf x).
Proof.
  intros H. unfold findRoot. destruct (find_total uf x H) as (r & uf' & E).
  rewrite E. by destruct (find_spec _ _ _ _ H E) as [? _].
Qed.

Lemma findRoot_find uf x r uf' : wf uf → find uf x = Some (r, uf') → findRoot uf x = r.
Proof. intros _ E. unfold findRoot. by rewrite E. Qed.

Lemma findRoot_eq uf uf' :
  wf uf → wf uf' → (∀ y s, rootOf (parent uf') y s ↔ rootOf (parent uf) y s) →
  ∀ y, findRoot uf' y = findRoot uf y.
Proof.
  intros H H' Hs y. apply (rootOf_det (parent uf) y).
  - apply Hs. by apply findRoot_spec.
  - by apply findRoot_spec.
Qed.

Lemma findRoot_same uf x y :
  wf uf → findRoot uf x = findRoot uf y ↔ same (parent uf) x y.
Proof.
  intros H. split.
  - intros E. exists (findRoot uf x). split; [|rewrite E]; by apply findRoot_spec.
  - intros (r & Hx & Hy).
    rewrite (rootOf_det _ _ _ _ (findRoot_spec uf x H) Hx).
    by rewrite (rootOf_det _ _ _ _ (findRoot_spec uf y H) Hy).
Qed.

Lemma findRoot_nonempty uf x : wf uf → x ≠ "" → findRoot uf x ≠ "".
Proof. intros H. apply (rootOf_nonempty (parent uf)). by apply findRoot_spec. Qed.

Lemma findRoot_idem uf x : wf uf → findRoot uf (findRoot uf x) = findRoot uf x.
Proof.
  intros H. apply (rootOf_det (parent uf) (findRoot uf x)); [by apply findRoot_spec|].
  constructor. apply (rootOf_isRoot _ x). by apply findRoot_spec.
Qed.

Lemma makeUnionFind_parent items x :
  parent (makeUnionFind items) !! x = if decide (x ∈ items) then Some x else None.
Proof.
  unfold makeUnionFind.
  assert (∀ uf0, parent (fold_left
    (λ uf x, {| parent := <[x := x]> (parent uf); size := <[x := 1]> (size uf) |})
    items uf0) !! x = if decide (x ∈ items) then Some x else parent uf0 !! x) as H.
  { induction items as [|i items IH]; intros uf0.
    - cbn [fold_left]. destruct (decide (x ∈ [])) as [Hin|]; [|done].
      by apply elem_of_nil in Hin.
    - cbn [fold_left]. rewrite IH. cbn [parent].
      destruct (decide (x ∈ items)) as [Hin|Hin];
        destruct (decide (x ∈ i :: items)) as [Hin'|Hin']; try done.
      + destruct Hin'. by right.
      + apply elem_of_cons in Hin' as [->|]; [|done]. by rewrite lookup_insert_eq.
      + rewrite lookup_insert_ne; [done|]. intros ->. apply Hin'. by left. }
  rewrite H. cbn [parent]. rewrite lookup_empty. by case_decide.
Qed.

Lemma makeUnionFind_isRoot items x : isRoot (parent (makeUnionFind items)) x.
Proof.
  apply isRoot_lookup. rewrite makeUnionFind_parent. case_decide; auto.
Qed.

Lemma makeUnionFind_wf items : wf (makeUnionFind items).
Proof.
  exists (λ _, 0). split; [|intros; lia].
  intros x y Hl. by destruct (makeUnionFind_isRoot items x y).
Qed.

Lemma makeUnionFind_findRoot items x : findRoot (makeUnionFind items) x = x.
Proof.
  apply (rootOf_det (parent (makeUnionFind items)) x).
  - apply findRoot_spec, makeUnionFind_wf.
  - constructor. apply makeUnionFind_isRoot.
Qed.

(** What [union] does to the roots: the roots of [a] and [b] become one
    of the two and every other root stays; or, when the surviving root
    would be the empty string, nothing changes at all, because [find]
    does not follow an empty entry. *)
Definition merged uf a b w (uf' : UnionFind) : Prop :=
  ∀ y, findRoot uf' y =
       if decide (findRoot uf y = findRoot uf a ∨ findRoot uf y = findRoot uf b)
       then w else findRoot uf y.

Lemma union_roots uf a b uf' :
  wf uf → union uf a b = Some uf' →
  wf uf' ∧
  ∃ w, (w = findRoot uf a ∨ w = findRoot uf b) ∧
       (merged uf a b w uf' ∨
        ((a = "" ∨ b = "") ∧ ∀ y, findRoot uf' y = findRoot uf y)).
Proof.
  intros H. unfold union, merged.
  destruct (find uf a) as [[ra uf1]|] eqn:Fa; [|done].
  destruct (find_spec _ _ _ _ H Fa) as (Hra & H1 & _ & Hs1).
  destruct (find uf1 b) as [[rb uf2]|] eqn:Fb; [|done].
  destruct (find_spec _ _ _ _ H1 Fb) as (Hrb & H2 & _ & Hs2).
  assert (∀ y s, rootOf (parent uf2) y s ↔ rootOf (parent uf) y s) as Hs.
  { intros y s. by rewrite Hs2, Hs1. }
  apply Hs1 in Hrb.
  assert (findRoot uf a = ra) as Ea by (by eapply findRoot_find).
  assert (findRoot uf b = rb) as Eb.
  { apply (rootOf_det (parent uf) b); [by apply findRoot_spec | done]. }
  rewrite Ea, Eb.
  assert (isRoot (parent uf2) ra) as Rra.
  { apply (rootOf_isRoot _ a). apply Hs. exact Hra. }
  assert (isRoot (parent uf2) rb) as Rrb.
  { apply (rootOf_isRoot _ b). apply Hs. exact Hrb. }
  assert (ra = "" → a = "") as Za.
  { intros E. destruct (decide (a = "")); [done|].
    by destruct (rootOf_nonempty _ _ _ Hra). }
  assert (rb = "" → b = "") as Zb.
  { intros E. destruct (decide (b = "")); [done|].
    by destruct (rootOf_nonempty _ _ _ Hrb). }
  destruct (String.eqb_spec ra rb) as [<-|Hne].
  { intros [= <-]. split; [done|]. exists ra. split; [by left|]. left.
    intros y. rewrite (findRoot_eq uf uf2 H H2 Hs).
    destruct (decide (findRoot uf y = ra ∨ findRoot uf y = ra)); intuition congruence. }
  assert (∀ l w sz, isRoot (parent uf2) l → isRoot (parent uf2) w → l ≠ w →
            let uf3 := {| parent := <[l := w]> (parent uf2); size := sz |} in
            wf uf3 ∧
            (w ≠ "" → ∀ y, findRoot uf3 y =
               if decide (findRoot uf y = l) then w else findRoot uf y) ∧
            (w = "" → ∀ y, findRoot uf3 y = findRoot uf y)) as Hatt.
  { intros l w sz Rl Rw Hlw uf3.
    assert (wf uf3) as H3 by (by apply attach_ranked).
    split; [done|]. split.
    - intros Hw0 y.
      apply (rootOf_det (parent uf3) y); [by apply findRoot_spec|].
      apply attach_rootOf; try done. apply Hs. by apply findRoot_spec.
    - intros -> y.
      apply (rootOf_det (parent uf3) y); [by apply findRoot_spec|].
      apply attach_empty_rootOf; [done|]. apply Hs. by apply findRoot_spec. }
  destruct (sizeOr1 (size uf2) ra <? sizeOr1 (size uf2) rb); intros [= <-].
  - destruct (Hatt ra rb (<[rb := sizeOr1 (size uf2) ra + sizeOr1 (size uf2) rb]> (size uf2))
                Rra Rrb Hne) as (H3 & Hf & Hz).
    split; [done|]. exists rb. split; [by right|].
    destruct (decide (rb = "")) as [E|E]; [right; by auto|left].
    intros y. rewrite (Hf E).
    destruct (decide (findRoot uf y = ra)), (decide (findRoot uf y = ra ∨ findRoot uf y = rb));
      intuition congruence.
  - destruct (Hatt rb ra (<[ra := sizeOr1 (size uf2) ra + sizeOr1 (size uf2) rb]> (size uf2))
                Rrb Rra (not_eq_sym Hne)) as (H3 & Hf & Hz).
    split; [done|]. exists ra. split; [by left|].
    destruct (decide (ra = "")) as [E|E]; [right; by auto|left].
    intros y. rewrite (Hf E).
    destruct (decide (findRoot uf y = rb)), (decide (findRoot uf y = ra ∨ findRoot uf y = rb));
      intuition congruence.
Qed.

Lemma union_wf uf a b uf' : wf uf → union uf a b = Some uf' → wf uf'.
Proof. intros H E. by destruct (union_roots _ _ _ _ H E). Qed.

(** Unions never separate. *)
Lemma union_keeps uf a b uf' x y :
  wf uf → union uf a b = Some uf' →
  findRoot uf x = findRoot uf y → findRoot uf' x = findRoot uf' y.
Proof.
  intros H E Hxy. destruct (union_roots _ _ _ _ H E) as (_ & w & _ & [Hm | [_ Hm]]).
  - by rewrite !Hm, Hxy.
  - by rewrite !Hm.
Qed.

(** A union of two non-empty strings joins them. *)
Lemma union_joins uf a b uf' :
  wf uf → union uf a b = Some uf' → a ≠ "" → b ≠ "" →
  findRoot uf' a = findRoot uf' b.
Proof.
  intros H E Ha Hb. destruct (union_roots _ _ _ _ H E) as (_ & w & _ & [Hm | [[?|?] _]]);
    [|done..].
  rewrite !Hm. rewrite !decide_True; auto.
Qed.

(** A union of [a] and [b] changes nothing for a string connected to
    neither. *)
Lemma union_apart uf a b uf' y :
  wf uf → union uf a b = Some uf' →
  findRoot uf y ≠ findRoot uf a → findRoot uf y ≠ findRoot uf b →
  findRoot uf' y = findRoot uf y.
Proof.
  intros H E Ha Hb. destruct (union_roots _ _ _ _ H E) as (_ & w & _ & [Hm | [_ Hm]]).
  - rewrite Hm. rewrite decide_False; [done|]. intros [?|?]; done.
  - apply Hm.
Qed.

(** The exact effect of a union of non-empty strings on the partition. *)
Lemma union_same uf a b uf' x y :
  wf uf → union uf a b = Some uf' → a ≠ "" → b ≠ "" →
  findRoot uf' x = findRoot uf' y ↔
  findRoot uf x = findRoot uf y
  ∨ (findRoot uf x = findRoot uf a ∧ findRoot uf y = findRoot uf b)
  ∨ (findRoot uf x = findRoot uf b ∧ findRoot uf y = findRoot uf a).
Proof.
  intros H E Ha Hb.
  destruct (union_roots _ _ _ _ H E) as (_ & w & Hw & [Hm | [[?|?] _]]); [|done..].
  rewrite !Hm.
  destruct (decide (findRoot uf x = findRoot uf a ∨ findRoot uf x = findRoot uf b)) as [Dx|Dx],
    (decide (findRoot uf y = findRoot uf a ∨ findRoot uf y = findRoot uf b)) as [Dy|Dy];
    intuition congruence.
Qed.

Lemma union_total uf a b : wf uf → ∃ uf', union uf a b = Some uf'.
Proof.
  intros H. unfold union.
  destruct (find_total uf a H) as (ra & uf1 & Fa). rewrite Fa.
  destruct (find_spec _ _ _ _ H Fa) as (_ & H1 & _).
  destruct (find_total uf1 b H1) as (rb & uf2 & ->).
  destruct (String.eqb ra rb); [eauto|]. destruct (_ <? _); eauto.
Qed.

End UnionFindSpec.

(** ** Loops over the insertion-ordered maps *)

Section Loops.

Lemma foldM_inv {A S : Type} (I : S → Prop) (Q : A → Prop)
    (f : S → A → option S) (l : list A) (s : S) :
  (∀ s x, I s → Q x → ∃ s', f s x = Some s' ∧ I s') →
  Forall Q l → I s → ∃ s', foldM f l s = Some s' ∧ I s'.
Proof.
  intros Hf Hl. revert s. induction Hl as [|x l Hx _ IH]; intros s Hs; simpl.
  - eauto.
  - destruct (Hf s x Hs Hx) as (s1 & -> & H1). by apply IH.
Qed.

Lemma foldM_app {A S : Type} (f : S → A → option S) (l1 l2 : list A) (s : S) :
  foldM f (l1 ++ l2) s =
  match foldM f l1 s with Some s' => foldM f l2 s' | None => None end.
Proof.
  revert s. induction l1 as [|x l1 IH]; intros s; simpl; [done|].
  destruct (f s x); [apply IH | done].
Qed.

(** Every string stored in a set of the map. *)
Definition vals (m : list (string * list string)) : list string :=
  concat (map snd m).

Lemma in_vals m a : In a (vals m) ↔ ∃ k set, In (k, set) m ∧ In a set.
Proof.
  unfold vals. rewrite in_concat. split.
  - intros (set & Hs & Ha). apply in_map_iff in Hs as ([k set'] & <- & Hin). eauto.
  - intros (k & set & Hin & Ha). exists set. split; [|done].
    apply in_map_iff. by exists (k, set).
Qed.

Lemma in_setAdd x v s : In x (setAdd v s) ↔ x = v ∨ In x s.
Proof.
  unfold setAdd, has. destruct (existsb (String.eqb v) s) eqn:E.
  - split; [by right|]. intros [->|]; [|done].
    apply existsb_exists in E as (y & Hy & Ey). by apply String.eqb_eq in Ey as ->.
  - rewrite in_app_iff. simpl. naive_solver.
Qed.

Lemma in_addToSet k v m k' set :
  In (k', set) (addToSet k v m) →
  (k' = k ∧ set = [v]) ∨ In (k', set) m
  ∨ (k' = k ∧ ∃ set0, In (k, set0) m ∧ set = setAdd v set0).
Proof.
  induction m as [|[k0 s0] m IH]; simpl.
  - intros [[= <- <-]|[]]. by left.
  - destruct (String.eqb_spec k0 k) as [->|Hne]; simpl.
    + intros [[= <- <-]|H]; [|by auto]. right. right. split; [done|]. exists s0. auto.
    + intros [[= <- <-]|H]; [by auto|].
      destruct (IH H) as [?|[?|(? & set0 & ? & ?)]]; [by auto..|].
      right. right. split; [done|]. exists set0. auto.
Qed.

Lemma vals_addToSet k v m a : In a (vals (addToSet k v m)) → a = v ∨ In a (vals m).
Proof.
  rewrite !in_vals. intros (k' & set & Hin & Ha).
  destruct (in_addToSet _ _ _ _ _ Hin) as [[_ ->]|[?|(_ & set0 & ? & ->)]].
  - destruct Ha as [<-|[]]. by left.
  - right. eauto.
  - apply in_setAdd in Ha as [->|Ha]; [by left|]. right. eauto.
Qed.

(** Adding [v] under [k] makes [v] a member of the set of [k]. *)
Lemma addToSet_in k v m : ∃ set, In (k, set) (addToSet k v m) ∧ In v set.
Proof.
  induction m as [|[k0 s0] m IH]; simpl.
  - exists [v]. split; by left.
  - destruct (String.eqb_spec k0 k) as [->|Hne].
    + exists (setAdd v s0). split; [by left|]. apply in_setAdd. by left.
    + destruct IH as (set & ? & ?). exists set. split; [by right | done].
Qed.

(** Members stay members when the map grows. *)
Lemma addToSet_mono k v m k' set a :
  In (k', set) m → In a set → ∃ set', In (k', set') (addToSet k v m) ∧ In a set'.
Proof.
  induction m as [|[k0 s0] m IH]; simpl; [done|].
  intros [[= -> ->]|Hin] Ha.
  - destruct (String.eqb_spec k' k) as [->|Hne].
    + exists (setAdd v set). split; [by left|]. apply in_setAdd. by right.
    + exists set. split; [by left | done].
  - destruct (String.eqb_spec k0 k) as [->|Hne].
    + exists set. split; [by right | done].
    + destruct (IH Hin Ha) as (set' & ? & ?). exists set'. split; [by right | done].
Qed.

End Loops.

(** ** Invariants of the passes *)

(** A pass body either leaves the state alone or calls [connectMany] on
    its set. *)
Definition connectBody
    (body : list string → string → PassState → option PassState) : Prop :=
  ∀ set k st, body set k st = Some st ∨ ∃ reason, body set k st = connectMany set reason st.

Section PassInvariant.

(** [P] is a property of the forest kept by every union of two strings
    of [M]. *)
Variable P : UnionFind → Prop.
Variable M : string → Prop.
Hypothesis P_wf : ∀ uf, P uf → wf uf.
Hypothesis P_union :
  ∀ uf a b uf', P uf → M a → M b → union uf a b = Some uf' → P uf'.

Lemma connectStep_inv first reason st m :
  P (fst st) → M first → M m →
  ∃ st', connectStep first reason st m = Some st' ∧ P (fst st').
Proof.
  intros Hst Hf Hm. unfold connectStep.
  destruct (union_total (fst st) first m (P_wf _ Hst)) as [uf' E]. rewrite E.
  eexists. split; [done|]. exact (P_union _ _ _ _ Hst Hf Hm E).
Qed.

Lemma connectMany_inv members reason st :
  P (fst st) → Forall M members →
  ∃ st', connectMany members reason st = Some st' ∧ P (fst st').
Proof.
  intros Hst Hm. unfold connectMany.
  destruct (length members <? 2); [by exists st|].
  destruct members as [|first rest]; [by exists st|].
  apply Forall_cons in Hm as [Hf Hr].
  apply (foldM_inv (λ st, P (fst st)) M); [|done..].
  intros s x Hs Hx. by apply connectStep_inv.
Qed.

Lemma forEachEntry_inv body m st :
  connectBody body → Forall M (vals m) → P (fst st) →
  ∃ st', forEachEntry body m st = Some st' ∧ P (fst st').
Proof.
  intros Hb Hm Hst. unfold forEachEntry.
  apply (foldM_inv (λ st, P (fst st)) (λ e, Forall M (snd e))); [| |done].
  - intros s [k set] Hs Hset. simpl in *.
    destruct (Hb set k s) as [-> | [reason ->]]; [by exists s|].
    by apply connectMany_inv.
  - apply Forall_forall. intros [k set] Hin. apply Forall_forall. intros a Ha.
    rewrite Forall_forall in Hm. apply Hm, list_elem_of_In, in_vals.
    exists k, set. split; by apply list_elem_of_In.
Qed.

End PassInvariant.

Lemma linkBody_connect : connectBody linkBody.
Proof. intros set k st. unfold linkBody. destruct (_ <? _); eauto. Qed.

Lemma domainBody_connect : connectBody domainBody.
Proof. intros set k st. unfold domainBody. destruct (_ <? _); eauto. Qed.

Lemma stemBody_connect : connectBody stemBody.
Proof. intros set k st. unfold stemBody. destruct (_ <? _); eauto. Qed.

Lemma baseBody_connect : connectBody baseBody.
Proof. intros set k st. unfold baseBody. destruct (_ <? _); eauto. Qed.

Lemma walletBody_connect : connectBody walletBody.
Proof. intros set k st. unfold walletBody. destruct (_ <? _); eauto. Qed.

Lemma funderBody_connect : connectBody funderBody.
Proof. intros set k st. unfold funderBody. destruct (_ <? _); eauto. Qed.

Section PassesRun.

Variable urlHostname : string → option string.
Variable input : Input.

Variable P : UnionFind → Prop.
Variable M : string → Prop.
Hypothesis P_wf : ∀ uf, P uf → wf uf.
Hypothesis P_union :
  ∀ uf a b uf', P uf → M a → M b → union uf a b = Some uf' → P uf'.

(** A property kept by the unions of the actor passes holds after
    them. *)
Lemma runActorPasses_inv :
  P (makeUnionFind (actors input)) →
  Forall M (vals (linkToActors input)) →
  Forall M (vals (domainToActors urlHostname input)) →
  Forall M (vals (stemToActors input)) →
  Forall M (vals (baseHandleToActors input)) →
  Forall M (vals (walletToActors input)) →
  ∃ st, runActorPasses urlHostname input = Some st ∧ P (fst st).
Proof.
  intros H0 M1 M2 M3 M4 M5. unfold runActorPasses.
  destruct (forEachEntry_inv P M P_wf P_union linkBody _
              (makeUnionFind (actors input), ∅) linkBody_connect M1 H0) as (s1 & -> & H1).
  destruct (forEachEntry_inv P M P_wf P_union domainBody _ s1 domainBody_connect M2 H1)
    as (s2 & E2 & H2).
  destruct (forEachEntry_inv P M P_wf P_union stemBody _ s2 stemBody_connect M3 H2)
    as (s3 & E3 & H3).
  destruct (forEachEntry_inv P M P_wf P_union baseBody _ s3 baseBody_connect M4 H3)
    as (s4 & E4 & H4).
  destruct (forEachEntry_inv P M P_wf P_union walletBody _ s4 walletBody_connect M5 H4)
    as (s5 & E5 & H5).
  exists s5. split; [|done]. simpl. rewrite E2. simpl. rewrite E3. simpl. by rewrite E4.
Qed.

Lemma funderPass_inv st :
  P (fst st) → Forall M (vals (funderToWallets input)) →
  ∃ st', forEachEntry funderBody (funderToWallets input) st = Some st' ∧ P (fst st').
Proof. intros. by apply (forEachEntry_inv P M P_wf P_union _ _ _ funderBody_connect). Qed.

End PassesRun.

Lemma Forall_any {A : Type} (l : list A) : Forall (λ _, True) l.
Proof. by apply Forall_forall. Qed.

Lemma runActorPasses_total h i : ∃ st, runActorPasses h i = Some st ∧ wf (fst st).
Proof.
  apply (runActorPasses_inv h i wf (λ _, True)); try apply Forall_any; try done.
  - intros uf a b uf' H _ _ E. by eapply union_wf.
  - apply makeUnionFind_wf.
Qed.

Lemma runPasses_total h i : ∃ st, runPasses h i = Some st ∧ wf (fst st).
Proof.
  unfold runPasses. destruct (runActorPasses_total h i) as (st & -> & H). simpl.
  apply (funderPass_inv i wf (λ _, True)); try apply Forall_any; try done.
  intros uf a b uf' H' _ _ E. by eapply union_wf.
Qed.

(** Grouping by root reads the forest without changing any root. *)
Definition sameRoots (uf uf' : UnionFind) : Prop :=
  wf uf' ∧ ∀ y, findRoot uf' y = findRoot uf y.

Lemma find_sameRoots uf x r uf' :
  wf uf → find uf x = Some (r, uf') → r = findRoot uf x ∧ sameRoots uf uf'.
Proof.
  intros H E. destruct (find_spec _ _ _ _ H E) as (Hr & H' & _ & Hs).
  split; [by rewrite (findRoot_find _ _ _ _ H E)|]. split; [done|].
  by apply findRoot_eq.
Qed.

Lemma rootToMembers_total i uf :
  wf uf → ∃ r, rootToMembers i uf = Some r ∧ sameRoots uf (fst r).
Proof.
  intros H. unfold rootToMembers.
  apply (foldM_inv (λ st, sameRoots uf (fst st)) (λ _, True)); [|apply Forall_any|by split].
  intros [uf1 rtm] a [H1 Hs] _. unfold rootStep. simpl.
  destruct (find_total uf1 a H1) as (r & uf2 & E). rewrite E.
  eexists. split; [done|]. simpl.
  destruct (find_sameRoots _ _ _ _ H1 E) as (_ & H2 & Hs2). split; [done|].
  intros y. by rewrite Hs2.
Qed.

Lemma computeControllerGroups_total h i : ∃ out, computeControllerGroups h i = Some out.
Proof.
  unfold computeControllerGroups.
  destruct (runPasses_total h i) as (st & -> & H). simpl.
  destruct (rootToMembers_total i (fst st) H) as (r & -> & _). simpl. eauto.
Qed.

(** ** Sorting *)

Section Sorting.

Context {A : Type} (cmp : A → A → comparison).

Lemma sortInsert_perm x l : sortInsert cmp x l ≡ₚ x :: l.
Proof.
  induction l as [|y l IH]; simpl; [done|].
  destruct (cmp x y); try done. rewrite IH. apply Permutation_swap.
Qed.

Lemma sortBy_perm l : sortBy cmp l ≡ₚ l.
Proof.
  induction l as [|x l IH]; simpl; [done|]. by rewrite sortInsert_perm, IH.
Qed.

Lemma sortBy_length l : length (sortBy cmp l) = length l.
Proof. apply Permutation_length, sortBy_perm. Qed.

Lemma sortBy_In l x : In x (sortBy cmp l) ↔ In x l.
Proof.
  split; apply Permutation_in; [apply sortBy_perm | symmetry; apply sortBy_perm].
Qed.

(** On elements where the comparator agrees with a transitive order
    [le], the result is sorted by [le]. *)
Variable Q : A → Prop.
Variable le : A → A → Prop.
Hypothesis le_cmp : ∀ x y, Q x → Q y → cmp x y ≠ Gt → le x y.
Hypothesis le_gt : ∀ x y, Q x → Q y → cmp x y = Gt → le y x.
Hypothesis le_trans : ∀ x y z, Q x → Q y → Q z → le x y → le y z → le x z.

Lemma sortInsert_sorted x l :
  Q x → Forall Q l → StronglySorted le l → StronglySorted le (sortInsert cmp x l).
Proof.
  intros Hx Hl Hs. induction Hs as [|y l Hs IH Hy]; simpl.
  - repeat constructor.
  - apply Forall_cons in Hl as [Qy Ql].
    assert (cmp x y ≠ Gt → StronglySorted le (x :: y :: l)) as Hle.
    { intros Hc. constructor; [by constructor|].
      pose proof (le_cmp x y Hx Qy Hc) as Hxy. constructor; [done|].
      rewrite Forall_forall in Hy, Ql |- *. intros z Hz.
      apply (le_trans x y z); auto. }
    destruct (cmp x y) eqn:Hc; [by apply Hle | by apply Hle |].
    constructor; [by apply IH|].
    rewrite (sortInsert_perm x l). constructor; [by apply le_gt | done].
Qed.

Lemma sortBy_sorted l : Forall Q l → StronglySorted le (sortBy cmp l).
Proof.
  induction 1 as [|x l Hx Hl IH]; simpl; [constructor|].
  apply sortInsert_sorted; [done | by rewrite sortBy_perm | done].
Qed.

End Sorting.

(** [members.sort()] orders by [String.compare]. *)
Lemma sort_strings_sorted (l : list string) :
  StronglySorted String.le (sortBy String.compare l).
Proof.
  apply (sortBy_sorted String.compare (λ _, True)); [| | |apply Forall_any].
  - intros x y _ _ H. unfold String.le, String.leb. by destruct (String.compare x y).
  - intros x y _ _ H. unfold String.le, String.leb.
    rewrite String.compare_antisym, H. done.
  - intros x y z _ _ _. apply transitivity.
Qed.

(** ** Components: [rootToMembers] *)

Section Components.

(** The map [rootToMembers] for a fixed root function. *)
Definition groupByKey (key : string → string) (l : list string)
  : list (string * list string) :=
  fold_left (λ m a, pushTo (key a) a m) l [].

(** The actors whose root is [r], in input order. *)
Definition membersOf (key : string → string) (l : list string) (r : string)
  : list string :=
  List.filter (λ a, String.eqb (key a) r) l.

Lemma groupByKey_snoc key l a :
  groupByKey key (l ++ [a]) = pushTo (key a) a (groupByKey key l).
Proof. unfold groupByKey. by rewrite fold_left_app. Qed.

Lemma membersOf_snoc key l a r :
  membersOf key (l ++ [a]) r =
  (membersOf key l r ++ if String.eqb (key a) r then [a] else [])%list.
Proof.
  unfold membersOf. rewrite List.filter_app. simpl. by destruct (String.eqb (key a) r).
Qed.

Lemma mapGet_None {V : Type} k (m : list (string * V)) :
  mapGet k m = None ↔ ¬ In k (map fst m).
Proof.
  induction m as [|[k0 v] m IH]; simpl; [naive_solver|].
  destruct (String.eqb_spec k0 k) as [->|Hne]; [naive_solver|].
  rewrite IH. naive_solver.
Qed.

Lemma mapGet_In {V : Type} k (v : V) (m : list (string * V)) :
  mapGet k m = Some v → In (k, v) m.
Proof.
  induction m as [|[k0 v0] m IH]; simpl; [done|].
  destruct (String.eqb_spec k0 k) as [->|Hne]; [|by auto].
  intros [= ->]. by left.
Qed.

Lemma In_mapGet {V : Type} k (v : V) (m : list (string * V)) :
  NoDup (map fst m) → In (k, v) m → mapGet k m = Some v.
Proof.
  induction m as [|[k0 v0] m IH]; simpl; [done|].
  intros Hnd. apply NoDup_cons in Hnd as [Hk Hnd].
  intros [[= -> ->]|Hin].
  - by rewrite String.eqb_refl.
  - destruct (String.eqb_spec k0 k) as [->|Hne]; [|by apply IH].
    destruct Hk. apply list_elem_of_In, in_map_iff. by exists (k, v).
Qed.

Lemma pushTo_keys r a m :
  map fst (pushTo r a m) =
  match mapGet r m with Some _ => map fst m | None => (map fst m ++ [r])%list end.
Proof.
  induction m as [|[k s] m IH]; simpl; [done|].
  destruct (String.eqb_spec k r) as [->|Hne]; simpl; [done|].
  rewrite IH. by destruct (mapGet r m).
Qed.

Lemma mapGet_pushTo r a m k :
  mapGet k (pushTo r a m) =
  if String.eqb r k then Some (default [] (mapGet r m) ++ [a])%list else mapGet k m.
Proof.
  induction m as [|[k0 s0] m IH]; simpl.
  - by destruct (String.eqb r k).
  - destruct (String.eqb_spec k0 r) as [->|Hne]; simpl.
    + by destruct (String.eqb r k).
    + rewrite IH. destruct (String.eqb_spec k0 k) as [E|Hne']; [|done].
      destruct (String.eqb_spec r k) as [E'|]; [|done]. congruence.
Qed.

(** [rootToMembers] has one entry per root that occurs, holding the
    actors of that root in input order. *)
Lemma groupByKey_spec key l :
  NoDup (map fst (groupByKey key l)) ∧
  ∀ r, mapGet r (groupByKey key l) =
       match membersOf key l r with [] => None | s => Some s end.
Proof.
  induction l as [|a l [IH1 IH2]] using rev_ind; [split; [constructor | done]|].
  rewrite groupByKey_snoc. split.
  - rewrite pushTo_keys. destruct (mapGet (key a) (groupByKey key l)) eqn:E; [done|].
    apply NoDup_app. split; [done|]. split; [|apply NoDup_singleton].
    intros x Hx Hx'. apply list_elem_of_singleton in Hx' as ->.
    apply mapGet_None in E. apply E. by apply list_elem_of_In.
  - intros r. rewrite mapGet_pushTo, membersOf_snoc, !IH2.
    destruct (String.eqb_spec (key a) r) as [<-|Hne].
    + by destruct (membersOf key l (key a)).
    + by rewrite app_nil_r.
Qed.

Lemma groupByKey_entry key l r s :
  In (r, s) (groupByKey key l) → s = membersOf key l r ∧ s ≠ [].
Proof.
  destruct (groupByKey_spec key l) as [Hnd Hget]. intros Hin.
  apply (In_mapGet _ _ _ Hnd) in Hin. rewrite Hget in Hin.
  destruct (membersOf key l r); [done|]. by injection Hin as <-.
Qed.

Lemma membersOf_In key l r a : In a (membersOf key l r) ↔ In a l ∧ key a = r.
Proof. unfold membersOf. rewrite filter_In, String.eqb_eq. done. Qed.

End Components.

Lemma rootToMembers_spec i uf r :
  wf uf → rootToMembers i uf = Some r →
  snd r = groupByKey (findRoot uf) (actors i) ∧ sameRoots uf (fst r).
Proof.
  intros H. unfold rootToMembers, groupByKey.
  assert (∀ l uf1 m, sameRoots uf uf1 → foldM rootStep l (uf1, m) = Some r →
            snd r = fold_left (λ m a, pushTo (findRoot uf a) a m) l m
            ∧ sameRoots uf (fst r)) as Hgen.
  { induction l as [|a l IH]; intros uf1 m Hs; simpl.
    - by intros [= <-].
    - unfold rootStep at 1. simpl. destruct Hs as [H1 Hs].
      destruct (find uf1 a) as [[ra uf2]|] eqn:E; [|done].
      destruct (find_sameRoots _ _ _ _ H1 E) as (-> & H2 & Hs2).
      rewrite Hs. apply IH. split; [done|]. intros y. by rewrite Hs2. }
  apply Hgen. by split.
Qed.

(** ** Groups: the [rootToMembers.forEach] callback *)

Section Groups.

Variable input : Input.
Variable ev : gmap string (list string).

(** The size filter of the callback. *)
Definition survives (ms : list string) : bool :=
  negb (Z.of_nat (length ms) <? Z.max 2 (minGroupSize input))%Z.

(** The group the callback builds for a component numbered [id]. *)
Definition groupOf (id : nat) (ms : list string) : ControllerGroup :=
  let ms := sortBy String.compare ms in
  {| controllerId := id;
     members := ms;
     score := computeScore (length ms) (collectReasons ev ms);
     evidence := take 8 (collectReasons ev ms) |}.

Fixpoint groupsFrom (id : nat) (comps : list (list string)) : list ControllerGroup :=
  match comps with
  | [] => []
  | ms :: comps' => groupOf id ms :: groupsFrom (S id) comps'
  end.

Definition survivors (rtm : list (string * list string)) : list (list string) :=
  List.filter survives (map snd rtm).

Lemma groupBody_unfold acc ms :
  groupBody input ev acc ms =
  if survives ms then
    {| acc_groups := (acc_groups acc ++ [groupOf (acc_next acc) ms])%list;
       acc_ids := fold_left (λ ids m, mapSet m (acc_next acc) ids)
                    (sortBy String.compare ms) (acc_ids acc);
       acc_next := S (acc_next acc) |}
  else acc.
Proof. unfold groupBody, survives. by destruct (_ <? _)%Z. Qed.

Lemma groupsFrom_ids id comps :
  map controllerId (groupsFrom id comps) = seq id (length comps).
Proof. revert id. induction comps as [|ms comps IH]; intros id; simpl; [done|]. by rewrite IH. Qed.

Lemma groupsFrom_In id comps g :
  In g (groupsFrom id comps) → ∃ ms, In ms comps ∧ members g = sortBy String.compare ms
    ∧ score g = computeScore (length (members g)) (collectReasons ev (members g))
    ∧ evidence g = take 8 (collectReasons ev (members g)).
Proof.
  revert id. induction comps as [|ms comps IH]; intros id; simpl; [done|].
  intros [<-|Hin].
  - exists ms. split; [by left | done].
  - destruct (IH _ Hin) as (ms' & ? & ?). exists ms'. split; [by right | done].
Qed.

Lemma buildGroups_fold rtm acc :
  let acc' := fold_left (λ acc e, groupBody input ev acc (snd e)) rtm acc in
  acc_groups acc' = (acc_groups acc ++ groupsFrom (acc_next acc) (survivors rtm))%list
  ∧ acc_next acc' = acc_next acc + length (survivors rtm).
Proof.
  revert acc. induction rtm as [|[r ms] rtm IH]; intros acc; simpl.
  - by rewrite app_nil_r, Nat.add_0_r.
  - unfold survivors. simpl. fold (survivors rtm).
    destruct (IH (groupBody input ev acc ms)) as [IH1 IH2].
    rewrite IH1, IH2, groupBody_unfold. destruct (survives ms); simpl; [|done].
    rewrite <- app_assoc. split; [done | lia].
Qed.

Lemma buildGroups_groups rtm :
  acc_groups (buildGroups input ev rtm) = groupsFrom 0 (survivors rtm).
Proof. unfold buildGroups. by destruct (buildGroups_fold rtm {| acc_groups := []; acc_ids := []; acc_next := 0 |}) as [-> _]. Qed.

(** [controllerIdByActor] against the groups. *)
Definition idsOk (gs : list ControllerGroup) (ids : list (string * nat)) : Prop :=
  (∀ m id, mapGet m ids = Some id →
     ∃ g, In g gs ∧ In m (members g) ∧ controllerId g = id)
  ∧ (∀ g m, In g gs → In m (members g) → mapGet m ids = Some (controllerId g)).

Lemma mapGet_mapSet {V : Type} k k' (v : V) m :
  mapGet k (mapSet k' v m) = if String.eqb k' k then Some v else mapGet k m.
Proof.
  induction m as [|[k0 v0] m IH]; simpl; [done|].
  destruct (String.eqb_spec k0 k') as [->|Hne]; simpl.
  - by destruct (String.eqb k' k).
  - rewrite IH. destruct (String.eqb_spec k0 k) as [E|]; [|done].
    destruct (String.eqb_spec k' k) as [E'|]; [congruence | done].
Qed.

Lemma mapGet_setAll {V : Type} k (v : V) l m :
  mapGet k (fold_left (λ ids x, mapSet x v ids) l m) =
  if decide (k ∈ l) then Some v else mapGet k m.
Proof.
  revert m. induction l as [|x l IH]; intros m; cbn [fold_left].
  - destruct (decide (k ∈ [])) as [Hin|]; [|done]. by apply elem_of_nil in Hin.
  - rewrite IH, mapGet_mapSet.
    destruct (decide (k ∈ l)) as [Hin|Hin], (decide (k ∈ x :: l)) as [Hin'|Hin'];
      try done.
    + destruct Hin'. by right.
    + apply elem_of_cons in Hin' as [->|]; [|done]. by rewrite String.eqb_refl.
    + destruct (String.eqb_spec x k) as [->|]; [|done]. destruct Hin'. by left.
Qed.

(** No actor lies in two entries. *)
Fixpoint disjointEntries (rtm : list (string * list string)) : Prop :=
  match rtm with
  | [] => True
  | e :: rtm' =>
      (∀ e' a, In e' rtm' → In a (snd e) → ¬ In a (snd e')) ∧ disjointEntries rtm'
  end.

Lemma disjoint_by_key (key : string → string) rtm :
  NoDup (map fst rtm) → (∀ r s a, In (r, s) rtm → In a s → key a = r) →
  disjointEntries rtm.
Proof.
  induction rtm as [|[r s] rtm IH]; simpl; [done|].
  intros Hnd Hk. apply NoDup_cons in Hnd as [Hr Hnd]. split.
  - intros [r' s'] a Hin Ha Ha'. simpl in *.
    assert (key a = r) as E by (by apply (Hk r s); [left|]).
    assert (key a = r') as E' by (by apply (Hk r' s'); [right|]).
    apply Hr, list_elem_of_In, in_map_iff. exists (r', s'). split; [simpl; congruence | done].
  - apply IH; [done|]. intros r' s' a Hin. apply Hk. by right.
Qed.

Lemma buildGroups_ids_fold rtm acc :
  idsOk (acc_groups acc) (acc_ids acc) →
  (∀ g e a, In g (acc_groups acc) → In e rtm → In a (members g) → ¬ In a (snd e)) →
  disjointEntries rtm →
  let acc' := fold_left (λ acc e, groupBody input ev acc (snd e)) rtm acc in
  idsOk (acc_groups acc') (acc_ids acc').
Proof.
  revert acc. induction rtm as [|[r ms] rtm IH]; intros acc Hok Hdis Hd; simpl; [done|].
  destruct Hd as [Hd1 Hd2]. simpl in Hd1.
  apply IH; [| |done]; rewrite groupBody_unfold; destruct (survives ms) eqn:Es;
    simpl; try done.
  - destruct Hok as [I1 I2]. split.
    + intros m id. rewrite mapGet_setAll. case_decide as Hm.
      * intros [= <-]. exists (groupOf (acc_next acc) ms).
        split; [apply in_app_iff; right; by left|]. split; [|done].
        by apply list_elem_of_In.
      * intros Hget. destruct (I1 _ _ Hget) as (g & ? & ? & ?). exists g.
        split; [apply in_app_iff; by left | done].
    + intros g m [Hg|[<-|[]]]%in_app_iff Hm; rewrite mapGet_setAll.
      * rewrite decide_False; [by apply I2|].
        intros Hin%list_elem_of_In%sortBy_In.
        exact (Hdis g (r, ms) m Hg (or_introl eq_refl) Hm Hin).
      * rewrite decide_True; [done|]. by apply list_elem_of_In.
  - intros g e a [Hg|[<-|[]]]%in_app_iff He Ha.
    + apply (Hdis g e a); [done | by right | done].
    + simpl in Ha. apply sortBy_In in Ha. by apply Hd1.
  - intros g e a Hg He. apply Hdis; [done | by right].
Qed.

Lemma buildGroups_ids rtm :
  disjointEntries rtm →
  idsOk (acc_groups (buildGroups input ev rtm)) (acc_ids (buildGroups input ev rtm)).
Proof.
  intros Hd. unfold buildGroups. apply buildGroups_ids_fold; [|done..].
  split; simpl; [done|]. by intros g m [].
Qed.

End Groups.

(** ** The shape of the result *)

(** The groups before the final sort. *)
Definition groupsBeforeSort (i : Input) (uf : UnionFind) (ev : gmap string (list string))
  : list ControllerGroup :=
  groupsFrom ev 0 (survivors i (groupByKey (findRoot uf) (actors i))).

(** The forest and the ledger the passes leave behind. *)
Definition passState (h : string → option string) (i : Input) : PassState :=
  default (makeUnionFind (actors i), ∅) (runPasses h i).

Definition forestOf (h : string → option string) (i : Input) : UnionFind :=
  fst (passState h i).

Definition ledgerOf (h : string → option string) (i : Input)
  : gmap string (list string) :=
  snd (passState h i).

Lemma runPasses_passState h i : runPasses h i = Some (passState h i).
Proof. unfold passState. by destruct (runPasses_total h i) as (st & -> & _). Qed.

Lemma forestOf_wf h i : wf (forestOf h i).
Proof.
  unfold forestOf, passState. by destruct (runPasses_total h i) as (st & -> & ?).
Qed.

Lemma resolver_shape h i out :
  computeControllerGroups h i = Some out →
  groups out = sortBy compareGroups (groupsBeforeSort i (forestOf h i) (ledgerOf h i)) ∧
  idsOk (groupsBeforeSort i (forestOf h i) (ledgerOf h i)) (controllerIdByActor out).
Proof.
  unfold computeControllerGroups. pose proof (forestOf_wf h i) as H.
  unfold ledgerOf, forestOf in *. rewrite (runPasses_passState h i).
  destruct (passState h i) as [uf ev]. simpl in *.
  destruct (rootToMembers i uf) as [r|] eqn:Er; [|done]. simpl.
  destruct (rootToMembers_spec i uf r H Er) as [Hr _].
  intros [= <-]. simpl.
  rewrite Hr. unfold groupsBeforeSort. rewrite <- buildGroups_groups. split; [done|].
  apply buildGroups_ids.
  destruct (groupByKey_spec (findRoot uf) (actors i)) as [Hnd _].
  apply (disjoint_by_key (findRoot uf)); [done|].
  intros r0 s a Hin Ha. apply groupByKey_entry in Hin as [-> _].
  by apply membersOf_In in Ha as [_ ?].
Qed.

(** A group before the sort is one component of the forest, sorted. *)
Lemma groupsBeforeSort_In i uf ev g :
  In g (groupsBeforeSort i uf ev) →
  ∃ r, members g = sortBy String.compare (membersOf (findRoot uf) (actors i) r)
     ∧ survives i (membersOf (findRoot uf) (actors i) r) = true
     ∧ score g = computeScore (length (members g)) (collectReasons ev (members g))
     ∧ evidence g = take 8 (collectReasons ev (members g)).
Proof.
  unfold groupsBeforeSort. intros Hin.
  apply groupsFrom_In in Hin as (ms & Hms & Hm & Hs & He).
  unfold survivors in Hms. apply filter_In in Hms as [Hms Hsv].
  apply in_map_iff in Hms as ([r s] & <- & Hin). simpl in *.
  apply groupByKey_entry in Hin as [-> _]. eauto.
Qed.

(** ** The confidence score *)

Section Score.

Lemma SFcompare_swap x y : SFcompare y x = option_map CompOpp (SFcompare x y).
Proof.
  destruct x as [sx|sx| |sx mx ex], y as [sy|sy| |sy my ey]; simpl; try done;
    try (by destruct sx); try (by destruct sy); try (by destruct sx, sy).
  destruct sx, sy; simpl; try done; rewrite (Z.compare_antisym ex ey);
    destruct (ex ?= ey)%Z; simpl; try done;
    by rewrite !(Pos.compare_cont_antisym _ _ Eq).
Qed.

Lemma SFcompare_Eq x y :
  SFcompare x y = Some Eq →
  x = y ∨ ∃ s s', x = S754_zero s ∧ y = S754_zero s'.
Proof.
  destruct x as [sx|sx| |sx mx ex], y as [sy|sy| |sy my ey]; simpl; try done;
    try (by destruct sx); try (by destruct sy).
  - intros _. right. eauto.
  - destruct sx, sy; try done; by left.
  - destruct sx, sy; try done; destruct (ex ?= ey)%Z eqn:E; try done;
      apply Z.compare_eq in E as ->; intros [= H]; left; f_equal.
    + apply Pos.compare_eq. by destruct (Pos.compare_cont Eq mx my) eqn:E';
        rewrite ?E'; unfold Pos.compare; rewrite ?E'.
    + apply Pos.compare_eq. unfold Pos.compare. by destruct (Pos.compare_cont Eq mx my).
Qed.

(** [Math.min] does not depend on the order of its arguments. *)
Lemma min_comm x y : Num.min x y = Num.min y x.
Proof.
  unfold Num.min. rewrite (SFcompare_swap x y).
  destruct (SFcompare x y) as [[]|] eqn:E; simpl; try done.
  destruct (SFcompare_Eq _ _ E) as [->|(s & s' & -> & ->)]; [done|].
  by destruct s, s'.
Qed.

(** The score as the specification words it: the clamp of the base,
    the size ramp and the four indicator bonuses. *)
Definition bonus (present : bool) (amount sum : Num.num) : Num.num :=
  if present then Num.add sum amount else sum.

Definition specScore (memberCount : nat) (reasons : list string) : Num.num :=
  let starts pre := existsb (λ r, Str.startsWith r pre) reasons in
  let ramp :=
    Num.min (Num.div (Num.ofZ (Z.of_nat memberCount - 2)) Num.c_10) Num.c_0_25 in
  Num.min Num.c_1
    (bonus (starts "Shared domain:") Num.c_0_10
      (bonus (starts "Shared link:") Num.c_0_15
        (bonus (starts "Common funder:") Num.c_0_25
          (bonus (starts "Shared wallet:") Num.c_0_25
            (Num.add Num.c_0_25 ramp))))).

Lemma computeScore_spec n reasons : computeScore n reasons = specScore n reasons.
Proof. unfold computeScore, specScore, bonus, hasReason. apply min_comm. Qed.

End Score.

(** ** Binary64 rounding: magnitudes

    The size ramp divides an integer by ten. What the order of the
    scores needs from that quotient is a lower bound, and the bound
    follows from how many binary digits the operands have. *)

Section Binary64.

Local Open Scope Z_scope.

(** Digits. *)
Definition dg (p : positive) : Z := Zpos (digits2_pos p).

Lemma dg_pos p : 0 < dg p.
Proof. unfold dg. lia. Qed.

Lemma dg_xO p : dg (xO p) = dg p + 1.
Proof. unfold dg. simpl. lia. Qed.

Lemma dg_xI p : dg (xI p) = dg p + 1.
Proof. unfold dg. simpl. lia. Qed.

Lemma dg_bounds p : (2 ^ (dg p - 1) <= Zpos p < 2 ^ (dg p))%Z.
Proof.
  induction p as [p IH|p IH|].
  - rewrite dg_xI. replace (dg p + 1 - 1) with (Z.succ (dg p - 1)) by lia.
    replace (dg p + 1) with (Z.succ (dg p)) by lia.
    pose proof (dg_pos p). rewrite !Z.pow_succ_r by lia. lia.
  - rewrite dg_xO. replace (dg p + 1 - 1) with (Z.succ (dg p - 1)) by lia.
    replace (dg p + 1) with (Z.succ (dg p)) by lia.
    pose proof (dg_pos p). rewrite !Z.pow_succ_r by lia. lia.
  - unfold dg. simpl. lia.
Qed.

Lemma dg_lower p k : 0 <= k → 2 ^ k <= Zpos p → k + 1 <= dg p.
Proof.
  intros Hk Hp. destruct (dg_bounds p) as [_ Hu].
  assert (2 ^ k < 2 ^ dg p) as H by lia.
  apply Z.pow_lt_mono_r_iff in H; [lia | lia | pose proof (dg_pos p); lia].
Qed.

Lemma dg_succ p : dg p <= dg (Pos.succ p).
Proof.
  induction p as [p IH|p IH|].
  - change (Pos.succ p~1) with (Pos.succ p)~0%positive. rewrite dg_xO, dg_xI. lia.
  - change (Pos.succ p~0) with p~1%positive. rewrite dg_xI, dg_xO. lia.
  - by vm_compute.
Qed.

Lemma dg_iter_xO p d : dg (Pos.iter xO p d) = dg p + Zpos d.
Proof.
  induction d as [|d IH] using Pos.peano_ind.
  - change (Pos.iter xO p 1) with (xO p). rewrite dg_xO. lia.
  - rewrite Pos.iter_succ, dg_xO, IH. lia.
Qed.

(** Shifting right. *)
Definition nonneg (mrs : shr_record) : Prop := 0 <= shr_m mrs.

Lemma shr_1_digits mrs :
  0 < shr_m mrs →
  nonneg (shr_1 mrs) ∧ Zdigits2 (shr_m (shr_1 mrs)) = Zdigits2 (shr_m mrs) - 1.
Proof.
  destruct mrs as [m r s]. cbn [shr_m]. intros Hm. unfold nonneg.
  destruct m as [|[p|p|]|p]; cbn [shr_1 shr_m Zdigits2 digits2_pos]; try lia.
Qed.

Lemma digits_pos_iff m : 0 <= m → (0 < Zdigits2 m ↔ 0 < m).
Proof. destruct m; simpl; lia. Qed.

Lemma iter_shr_digits n : ∀ mrs,
  nonneg mrs → Zpos n < Zdigits2 (shr_m mrs) →
  nonneg (SpecFloat.iter_pos shr_1 n mrs)
  ∧ Zdigits2 (shr_m (SpecFloat.iter_pos shr_1 n mrs)) = Zdigits2 (shr_m mrs) - Zpos n.
Proof.
  assert (∀ mrs, nonneg mrs → 1 < Zdigits2 (shr_m mrs) →
            nonneg (shr_1 mrs) ∧ Zdigits2 (shr_m (shr_1 mrs)) = Zdigits2 (shr_m mrs) - 1) as H1.
  { intros mrs Hn Hd. apply shr_1_digits. apply digits_pos_iff; [done | lia]. }
  induction n as [n IH|n IH|]; intros mrs Hn Hd; simpl.
  - destruct (H1 mrs Hn) as [Hn1 Hd1]; [lia|].
    destruct (IH (shr_1 mrs) Hn1) as [Hn2 Hd2]; [lia|].
    destruct (IH _ Hn2) as [Hn3 Hd3]; [lia|]. split; [done | lia].
  - destruct (IH mrs Hn) as [Hn2 Hd2]; [lia|].
    destruct (IH _ Hn2) as [Hn3 Hd3]; [lia|]. split; [done | lia].
  - destruct (H1 mrs Hn) as [Hn1 Hd1]; [lia|]. split; [done | lia].
Qed.

Abbreviation fexp64 := (fexp 53 1024).

Lemma fexp64_eq e : fexp64 e = Z.max (e - 53) (-1074).
Proof. reflexivity. Qed.

Lemma shr_record_of_loc_m m l : shr_m (shr_record_of_loc m l) = m.
Proof. by destruct l as [|[]]. Qed.

(** [shr_fexp] keeps the magnitude [digits + exponent] of a positive
    mantissa above the smallest exponent. *)
Lemma shr_fexp_spec m e l :
  0 < m → -1074 < Zdigits2 m + e →
  let '(mrs, e') := shr_fexp 53 1024 m e l in
  0 < shr_m mrs ∧ Zdigits2 (shr_m mrs) + e' = Zdigits2 m + e
  ∧ fexp64 (Zdigits2 m + e) <= e'.
Proof.
  intros Hm Hmu. unfold shr_fexp, shr.
  destruct (fexp64 (Zdigits2 m + e) - e) as [|n|n] eqn:En.
  - rewrite shr_record_of_loc_m. repeat split; lia.
  - destruct (iter_shr_digits n (shr_record_of_loc m l)) as [Hn Hd].
    + unfold nonneg. rewrite shr_record_of_loc_m. lia.
    + rewrite shr_record_of_loc_m. rewrite fexp64_eq in En. lia.
    + rewrite shr_record_of_loc_m in Hd. rewrite fexp64_eq in *.
      split; [|split; lia]. apply digits_pos_iff; [done | lia].
  - rewrite shr_record_of_loc_m. repeat split; lia.
Qed.

Lemma round_nearest_even_spec m l :
  0 < m → 0 < round_nearest_even m l ∧ Zdigits2 m <= Zdigits2 (round_nearest_even m l).
Proof.
  intros Hm.
  assert (0 < m + 1 ∧ Zdigits2 m <= Zdigits2 (m + 1)) as H1.
  { destruct m as [|p|p]; try lia. split; [lia|].
    replace (Zpos p + 1) with (Zpos (Pos.succ p)) by lia. apply dg_succ. }
  unfold round_nearest_even. destruct l as [|[]]; try (split; [done | lia]); try done.
  destruct (Z.even m); [split; [done | lia] | done].
Qed.

(** The result of rounding: infinite or finite with the sign asked for,
    an exponent of at least the magnitude minus 53, and no smaller
    magnitude. *)
Definition roundedFrom (s : bool) (mu : Z) (x : spec_float) : Prop :=
  x = S754_infinity s
  ∨ ∃ m e, x = S754_finite s m e ∧ mu - 53 <= e ∧ mu <= dg m + e.

Lemma binary_round_aux_spec s m e l :
  0 < m → -1074 < Zdigits2 m + e →
  roundedFrom s (Zdigits2 m + e) (binary_round_aux 53 1024 s m e l).
Proof.
  intros Hm Hmu. unfold binary_round_aux.
  pose proof (shr_fexp_spec m e l Hm Hmu) as H1.
  destruct (shr_fexp 53 1024 m e l) as [mrs1 e1]. destruct H1 as (Hm1 & Hd1 & _).
  destruct (round_nearest_even_spec (shr_m mrs1) (loc_of_shr_record mrs1) Hm1)
    as [Hr Hrd].
  set (m1 := round_nearest_even (shr_m mrs1) (loc_of_shr_record mrs1)) in *.
  pose proof (shr_fexp_spec m1 e1 loc_Exact Hr) as H2.
  destruct (shr_fexp 53 1024 m1 e1 loc_Exact) as [mrs2 e2].
  destruct H2 as (Hm2 & Hd2 & He2); [lia|].
  destruct (shr_m mrs2) as [|m2|m2] eqn:E2; try lia.
  destruct (e2 <=? 1024 - 53); [|by left].
  right. exists m2, e2. split; [done|]. rewrite fexp64_eq in He2.
  cbn [Zdigits2] in Hd2. unfold dg. lia.
Qed.

Lemma ofZ_spec p :
  roundedFrom false (dg p) (binary_normalize 53 1024 (Zpos p) 0 false).
Proof.
  unfold binary_normalize, binary_round, shl_align.
  pose proof (dg_pos p) as Hp.
  assert (dg p = Zdigits2 (Zpos p) + 0) as E0 by (unfold dg; cbn [Zdigits2]; lia).
  destruct (fexp64 (Zpos (digits2_pos p) + 0) - 0) as [|d|d] eqn:Ed.
  - rewrite E0. apply binary_round_aux_spec; lia.
  - rewrite E0. apply binary_round_aux_spec; lia.
  - assert (dg p = Zdigits2 (Zpos (Pos.iter xO p d)) + fexp64 (Zpos (digits2_pos p) + 0))
      as E1.
    { cbn [Zdigits2]. fold (dg (Pos.iter xO p d)). rewrite dg_iter_xO. lia. }
    rewrite E1. apply binary_round_aux_spec; lia.
Qed.

Lemma SFdiv_spec mx ex my ey :
  -1021 <= dg mx + ex - (dg my + ey) →
  roundedFrom false (dg mx + ex - (dg my + ey))
    (SFdiv 53 1024 (S754_finite false mx ex) (S754_finite false my ey)).
Proof.
  intros Hmu. unfold SFdiv, SFdiv_core_binary. cbn [Zdigits2 xorb].
  fold (dg mx) (dg my).
  set (e' := Z.min (fexp64 (dg mx + ex - (dg my + ey))) (ex - ey)).
  set (s := ex - ey - e').
  assert (dg my - dg mx + 53 <= s) as Hs.
  { unfold s, e'. rewrite fexp64_eq. lia. }
  assert (0 <= s) as Hs0 by (unfold s, e'; lia).
  set (m' := match s with Z.pos _ => Z.shiftl (Z.pos mx) s | 0 => Z.pos mx | Z.neg _ => 0 end).
  assert (m' = Zpos mx * 2 ^ s) as Em.
  { unfold m'. destruct s as [|ps|ps] eqn:Es; [lia| |lia].
    by rewrite Z.shiftl_mul_pow2. }
  destruct (Z.div_eucl m' (Z.pos my)) as [q r] eqn:Eq.
  assert (q = m' / Zpos my) as -> by (unfold Z.div; by rewrite Eq).
  pose proof (dg_pos mx) as Px. pose proof (dg_pos my) as Py.
  destruct (dg_bounds mx) as [Lx _]. destruct (dg_bounds my) as [_ Uy].
  set (k := dg mx + s - 1 - dg my).
  assert (2 ^ k <= m' / Zpos my) as Hq.
  { apply Z.div_le_lower_bound; [lia|]. rewrite Em.
    assert (2 ^ (dg mx - 1) * 2 ^ s <= Zpos mx * 2 ^ s) as H1.
    { apply Z.mul_le_mono_nonneg_r; [apply Z.pow_nonneg; lia | done]. }
    rewrite <- Z.pow_add_r in H1 by lia.
    assert (Zpos my * 2 ^ k <= 2 ^ dg my * 2 ^ k) as H2.
    { apply Z.mul_le_mono_nonneg_r; [apply Z.pow_nonneg; lia | lia]. }
    rewrite <- Z.pow_add_r in H2 by (unfold k; lia).
    replace (dg my + k) with (dg mx - 1 + s) in H2 by (unfold k; lia). lia. }
  assert (0 < 2 ^ k) as Hk by (apply Z.pow_pos_nonneg; unfold k; lia).
  destruct (m' / Zpos my) as [|pq|pq] eqn:Epq; [lia| |lia].
  pose proof (dg_lower pq k ltac:(unfold k; lia) Hq) as Hd.
  assert (dg mx + ex - (dg my + ey) <= Zdigits2 (Zpos pq) + e') as Hmag.
  { cbn [Zdigits2]. fold (dg pq). unfold k, s in *. lia. }
  destruct (binary_round_aux_spec false (Zpos pq) e'
              (new_location (Zpos my) r) ltac:(lia) ltac:(lia)) as [->|(m & e & -> & He & Hm)].
  - by left.
  - right. exists m, e. split; [done|]. lia.
Qed.

End Binary64.

(** The size ramp of the score. *)
Definition ramp (n : nat) : Num.num :=
  Num.min (Num.div (Num.ofZ (Z.of_nat n - 2)) Num.c_10) Num.c_0_25.

Lemma min_above_quarter x :
  roundedFrom false 0 x → Num.min x Num.c_0_25 = Num.c_0_25.
Proof.
  intros [->|(m & e & -> & He & _)]; [done|].
  unfold Num.min, Num.c_0_25. cbn [SFcompare].
  destruct (Z.compare_spec e (-54)) as [?|?|?]; [lia | lia | done].
Qed.

Lemma roundedFrom_mono s mu mu' x : (mu' <= mu)%Z → roundedFrom s mu x → roundedFrom s mu' x.
Proof.
  intros H [->|(m & e & -> & He & Hm)]; [by left|].
  right. exists m, e. split; [done|]. lia.
Qed.

(** From eight on the quotient is at least one quarter. *)
Lemma ramp_saturates z :
  (8 <= z)%Z → Num.min (Num.div (Num.ofZ z) Num.c_10) Num.c_0_25 = Num.c_0_25.
Proof.
  intros Hz. destruct z as [|p|p]; [lia| |lia].
  assert (4 <= dg p)%Z as Hd by (apply (dg_lower p 3); lia).
  apply min_above_quarter. unfold Num.ofZ, Num.div, Num.c_10.
  destruct (ofZ_spec p) as [->|(m & e & -> & He & Hm)]; [by left|].
  assert (dg 5629499534213120 = 53)%Z as E10 by (by vm_compute).
  eapply roundedFrom_mono; [|apply SFdiv_spec]; rewrite E10; lia.
Qed.

Definition rampValues : list Num.num :=
  Eval vm_compute in [ramp 2; ramp 3; ramp 4; Num.c_0_25].

Lemma ramp_values n : 2 ≤ n → In (ramp n) rampValues.
Proof.
  intros Hn. do 10 (destruct n as [|n]; [try lia; vm_compute; tauto|]).
  unfold ramp. rewrite ramp_saturates; [vm_compute; tauto | lia].
Qed.

(** ** Sequences of unions *)

Definition unionAll (pairs : list (string * string)) (uf : UnionFind) : option UnionFind :=
  foldM (λ uf p, union uf (fst p) (snd p)) pairs uf.

(** Connected by a finite chain of the unions of [pairs], starting from
    what [uf0] connects. *)
Inductive chained (uf0 : UnionFind) (pairs : list (string * string))
  : string → string → Prop :=
| chained_base x y : findRoot uf0 x = findRoot uf0 y → chained uf0 pairs x y
| chained_pair a b : In (a, b) pairs → chained uf0 pairs a b
| chained_sym x y : chained uf0 pairs x y → chained uf0 pairs y x
| chained_trans x y z :
    chained uf0 pairs x y → chained uf0 pairs y z → chained uf0 pairs x z.

Lemma chained_incl uf0 pairs pairs' x y :
  (∀ p, In p pairs → In p pairs') → chained uf0 pairs x y → chained uf0 pairs' x y.
Proof.
  intros H. induction 1 as [x y E|a b Hin|x y _ IH|x y z _ IH1 _ IH2].
  - by apply chained_base.
  - by apply chained_pair, H.
  - by apply chained_sym.
  - by eapply chained_trans.
Qed.

Lemma chained_union uf0 a b uf1 ps x y :
  wf uf0 → union uf0 a b = Some uf1 → a ≠ "" → b ≠ "" →
  chained uf1 ps x y ↔ chained uf0 ((a, b) :: ps) x y.
Proof.
  intros H E Ha Hb. split.
  - induction 1 as [x y E1|a' b' Hin|x y _ IH|x y z _ IH1 _ IH2].
    + apply (union_same _ _ _ _ x y H E Ha Hb) in E1 as [E0|[[Ex Ey]|[Ex Ey]]].
      * by apply chained_base.
      * apply (chained_trans _ _ x a); [by apply chained_base|].
        apply (chained_trans _ _ a b); [apply chained_pair; by left|].
        by apply chained_base.
      * apply (chained_trans _ _ x b); [by apply chained_base|].
        apply (chained_trans _ _ b a); [apply chained_sym, chained_pair; by left|].
        by apply chained_base.
    + apply chained_pair. by right.
    + by apply chained_sym.
    + by eapply chained_trans.
  - induction 1 as [x y E0|a' b' Hin|x y _ IH|x y z _ IH1 _ IH2].
    + apply chained_base. by apply (union_keeps _ _ _ _ _ _ H E).
    + destruct Hin as [[= <- <-]|Hin]; [|by apply chained_pair].
      apply chained_base. by apply (union_joins _ _ _ _ H E).
    + by apply chained_sym.
    + by eapply chained_trans.
Qed.

(** After any sequence of unions of non-empty strings, [find] agrees on
    two strings exactly when a chain of those unions connects them. *)
Lemma unionAll_connected pairs uf0 uf :
  wf uf0 → Forall (λ p, fst p ≠ "" ∧ snd p ≠ "") pairs → unionAll pairs uf0 = Some uf →
  wf uf ∧ ∀ x y, findRoot uf x = findRoot uf y ↔ chained uf0 pairs x y.
Proof.
  intros H Hne. revert uf0 H. unfold unionAll.
  induction Hne as [|[a b] ps [Ha Hb] _ IH]; intros uf0 H; simpl.
  - intros [= <-]. split; [done|]. intros x y. split; [apply chained_base|].
    induction 1 as [x y E|a b []|x y _ IH|x y z _ IH1 _ IH2]; congruence.
  - destruct (union uf0 a b) as [uf1|] eqn:E; [|done]. intros Eps.
    destruct (IH uf1 (union_wf _ _ _ _ H E) Eps) as [Hwf Hiff]. split; [done|].
    intros x y. rewrite Hiff. by apply chained_union.
Qed.

(** The partition does not depend on the order of the unions. *)
Lemma unionAll_order pairs pairs' uf0 uf uf' :
  wf uf0 → Forall (λ p, fst p ≠ "" ∧ snd p ≠ "") pairs → pairs ≡ₚ pairs' →
  unionAll pairs uf0 = Some uf → unionAll pairs' uf0 = Some uf' →
  ∀ x y, findRoot uf x = findRoot uf y ↔ findRoot uf' x = findRoot uf' y.
Proof.
  intros H Hne Hp E E' x y.
  assert (Forall (λ p, fst p ≠ "" ∧ snd p ≠ "") pairs') as Hne' by (by rewrite <- Hp).
  destruct (unionAll_connected _ _ _ H Hne E) as [_ ->].
  destruct (unionAll_connected _ _ _ H Hne' E') as [_ ->].
  split; apply chained_incl; intros p Hin%list_elem_of_In; apply list_elem_of_In;
    [by rewrite <- Hp | by rewrite Hp].
Qed.

(** [find] on a string without an entry returns it and leaves the
    structure as it is. *)
Lemma find_unregistered uf x : parent uf !! x = None → find uf x = Some (x, uf).
Proof. intros E. unfold find. simpl. rewrite E. by destruct uf. Qed.

(** ** What the maps of the passes contain *)

Lemma in_setOf x l : In x (setOf l) ↔ In x l.
Proof.
  unfold setOf.
  assert (∀ s, In x (fold_left (λ s y, setAdd y s) l s) ↔ In x l ∨ In x s) as H.
  { induction l as [|y l IH]; intros s; simpl; [naive_solver|].
    rewrite IH, in_setAdd. naive_solver. }
  rewrite H. simpl. naive_solver.
Qed.

(** Keys satisfy [Qk] and members satisfy [Qv]. *)
Definition entriesOk (Qk Qv : string → Prop) (m : list (string * list string)) : Prop :=
  ∀ k set, In (k, set) m → Qk k ∧ ∀ a, In a set → Qv a.

Lemma entriesOk_nil Qk Qv : entriesOk Qk Qv [].
Proof. by intros k set []. Qed.

Lemma entriesOk_addToSet (Qk Qv : string → Prop) k v m :
  Qk k → Qv v → entriesOk Qk Qv m → entriesOk Qk Qv (addToSet k v m).
Proof.
  intros Hk Hv Hm k' set Hin.
  destruct (in_addToSet _ _ _ _ _ Hin) as [[-> ->]|[?|(-> & set0 & H0 & ->)]].
  - split; [done|]. by intros a [<-|[]].
  - by apply Hm.
  - split; [done|]. intros a [->|Ha]%in_setAdd; [done|]. by apply (Hm k set0).
Qed.

Lemma entriesOk_vals Qk Qv m : entriesOk Qk Qv m → Forall Qv (vals m).
Proof.
  intros Hm. apply Forall_forall. intros a Ha%list_elem_of_In%in_vals.
  destruct Ha as (k & set & Hin & Ha). by apply (Hm k set).
Qed.

Lemma fold_left_inv {A S : Type} (I : S → Prop) (Q : A → Prop)
    (f : S → A → S) (l : list A) (s : S) :
  (∀ s x, I s → Q x → I (f s x)) → (∀ x, In x l → Q x) → I s → I (fold_left f l s).
Proof.
  intros Hf. revert s. induction l as [|x l IH]; intros s Hl Hs; simpl; [done|].
  apply IH; [intros; apply Hl; by right|]. apply Hf; [done|]. apply Hl. by left.
Qed.

Lemma walletsOf_wallets i a w : In w (walletsOf i a) → looksLikeEvmAddress w = true.
Proof. unfold walletsOf. rewrite in_setOf, filter_In. by intros [_ ?]. Qed.

Lemma linkToActors_ok i : entriesOk (λ _, True) (λ a, In a (actors i)) (linkToActors i).
Proof.
  unfold linkToActors.
  apply (fold_left_inv _ (λ a, In a (actors i))); [|done|apply entriesOk_nil].
  intros m a Hm Ha.
  apply (fold_left_inv _ (λ _, True)); [|done|done].
  intros m' l Hm' _. by apply entriesOk_addToSet.
Qed.

Lemma domainToActors_ok h i :
  entriesOk (λ d, has d COMMON_DOMAINS = false) (λ a, In a (actors i)) (domainToActors h i).
Proof.
  unfold domainToActors.
  apply (fold_left_inv _ (λ a, In a (actors i))); [|done|apply entriesOk_nil].
  intros m a Hm Ha.
  apply (fold_left_inv _ (λ d, has d COMMON_DOMAINS = false)); [| |done].
  - intros m' d Hm' Hd. by apply entriesOk_addToSet.
  - intros d [_ Hd]%in_setOf%filter_In. by apply negb_true_iff in Hd.
Qed.

Lemma stemToActors_ok i :
  entriesOk (λ stem, stem ≠ "") (λ a, In a (map fst (handleStemByActor i))) (stemToActors i).
Proof.
  unfold stemToActors.
  apply (fold_left_inv _ (λ e, In e (handleStemByActor i))); [|done|apply entriesOk_nil].
  intros m [actor stem] Hm He. simpl.
  destruct (String.eqb_spec stem ""); [done|].
  apply entriesOk_addToSet; [done| |done]. apply in_map_iff. by exists (actor, stem).
Qed.

Lemma baseHandleToActors_ok i :
  entriesOk (λ base, 3 ≤ String.length base) (λ a, In a (actors i)) (baseHandleToActors i).
Proof.
  unfold baseHandleToActors.
  apply (fold_left_inv _ (λ a, In a (actors i))); [|done|apply entriesOk_nil].
  intros m a Hm Ha. destruct (_ <? 2)%nat; [done|].
  destruct (String.length _ <? 3)%nat eqn:E; [done|].
  apply Nat.ltb_ge in E. by apply entriesOk_addToSet.
Qed.

Lemma walletToActors_ok i :
  entriesOk (λ w, looksLikeEvmAddress w = true) (λ a, In a (actors i)) (walletToActors i).
Proof.
  unfold walletToActors.
  apply (fold_left_inv _ (λ a, In a (actors i))); [|done|apply entriesOk_nil].
  intros m a Hm Ha.
  apply (fold_left_inv _ (λ w, looksLikeEvmAddress w = true)); [| |done].
  - intros m' w Hm' Hw. by apply entriesOk_addToSet.
  - intros w. apply walletsOf_wallets.
Qed.

Lemma funderToWallets_ok i :
  entriesOk (λ f, looksLikeEvmAddress f = true)
    (λ w, In w (map fst (sharedFundersByWallet i))) (funderToWallets i).
Proof.
  unfold funderToWallets.
  apply (fold_left_inv _ (λ e, In e (sharedFundersByWallet i))); [|done|apply entriesOk_nil].
  intros m [wallet funders] Hm He. simpl.
  apply (fold_left_inv _ (λ _, True)); [|done|done].
  intros m' f Hm' _. destruct (looksLikeEvmAddress f) eqn:E; [|done].
  apply entriesOk_addToSet; [done| |done]. apply in_map_iff. by exists (wallet, funders).
Qed.

(** ** What [connectMany] establishes *)

Definition reasonsAt (ev : gmap string (list string)) (k : string) : list string :=
  default [] (ev !! k).

Lemma addEvidence_here a b reason ev : In reason (reasonsAt (addEvidence a b reason ev) (pairKey a b)).
Proof.
  unfold reasonsAt, addEvidence. rewrite lookup_insert_eq. simpl.
  apply in_setAdd. by left.
Qed.

Lemma addEvidence_mono a b reason ev k r :
  In r (reasonsAt ev k) → In r (reasonsAt (addEvidence a b reason ev) k).
Proof.
  unfold reasonsAt, addEvidence. intros Hr.
  destruct (decide (pairKey a b = k)) as [<-|Hne].
  - rewrite lookup_insert_eq. simpl. apply in_setAdd. by right.
  - by rewrite lookup_insert_ne.
Qed.

(** The forest of [st'] connects whatever the forest of [st] connects,
    and the ledger of [st'] holds whatever the ledger of [st] holds. *)
Definition extends (st st' : PassState) : Prop :=
  wf (fst st') ∧
  (∀ x y, findRoot (fst st) x = findRoot (fst st) y →
          findRoot (fst st') x = findRoot (fst st') y) ∧
  (∀ k r, In r (reasonsAt (snd st) k) → In r (reasonsAt (snd st') k)).

Lemma extends_refl st : wf (fst st) → extends st st.
Proof. by intros H. Qed.

Lemma extends_trans st1 st2 st3 : extends st1 st2 → extends st2 st3 → extends st1 st3.
Proof.
  intros (_ & K1 & E1) (H & K2 & E2). split; [done|]. split.
  - intros x y Hxy. by apply K2, K1.
  - intros k r Hr. by apply E2, E1.
Qed.

Lemma connectStep_extends first reason st m st' :
  wf (fst st) → connectStep first reason st m = Some st' → extends st st'.
Proof.
  intros H. unfold connectStep.
  destruct (union (fst st) first m) as [uf'|] eqn:E; [|done]. intros [= <-].
  split; [by eapply union_wf|]. split; simpl.
  - intros x y. by apply (union_keeps _ _ _ _ _ _ H E).
  - intros k r. apply addEvidence_mono.
Qed.

Lemma connectFold first reason rest st st' :
  wf (fst st) → foldM (connectStep first reason) rest st = Some st' →
  extends st st'
  ∧ (∀ m, In m rest → In reason (reasonsAt (snd st') (pairKey first m)))
  ∧ (first ≠ "" → ¬ In "" rest →
     ∀ m, In m rest → findRoot (fst st') m = findRoot (fst st') first).
Proof.
  revert st. induction rest as [|m rest IH]; intros st H; simpl.
  - intros [= <-]. split; [by apply extends_refl|]. split; by intros.
  - destruct (connectStep first reason st m) as [st1|] eqn:E1; [|done]. intros E.
    pose proof (connectStep_extends _ _ _ _ _ H E1) as X1.
    destruct (IH st1 (proj1 X1) E) as (X & Hev & Hj).
    split; [by eapply extends_trans|]. split.
    + intros m' [<-|Hm']; [|by apply Hev].
      apply X. unfold connectStep in E1.
      destruct (union (fst st) first m); [|done]. injection E1 as <-. simpl.
      apply addEvidence_here.
    + intros Hf Hr m' [<-|Hm'].
      * apply X. unfold connectStep in E1.
        destruct (union (fst st) first m) as [uf1|] eqn:Eu; [|done]. injection E1 as <-.
        simpl. symmetry. apply (union_joins _ _ _ _ H Eu Hf).
        intros ->. apply Hr. by left.
      * apply Hj; [done| |done]. intros ?. apply Hr. by right.
Qed.

Lemma connectMany_spec members reason st st' :
  wf (fst st) → connectMany members reason st = Some st' →
  extends st st'
  ∧ (2 ≤ length members →
     (∀ m, In m (tail members) →
        In reason (reasonsAt (snd st') (pairKey (hd "" members) m)))
     ∧ (¬ In "" members →
        ∀ a b, In a members → In b members →
               findRoot (fst st') a = findRoot (fst st') b)).
Proof.
  intros H. unfold connectMany. destruct (Nat.ltb_spec (length members) 2) as [Hlt|Hge].
  { intros [= <-]. split; [by apply extends_refl | lia]. }
  destruct members as [|first rest]; [simpl in Hge; lia|]. intros E.
  destruct (connectFold _ _ _ _ _ H E) as (X & Hev & Hj).
  split; [done|]. intros _. split; [done|]. intros Hne.
  assert (∀ a, In a (first :: rest) → findRoot (fst st') a = findRoot (fst st') first) as Ha.
  { intros a [<-|Ha]; [done|]. apply Hj; [| |done].
    - intros ->. apply Hne. by left.
    - intros ?. apply Hne. by right. }
  intros a b Ha' Hb'. by rewrite (Ha a), (Ha b).
Qed.

(** The sets of the maps hold each sharer once, so the size of a set is
    the number of distinct sharers. *)
Definition distinctSets (m : list (string * list string)) : Prop :=
  ∀ k set, In (k, set) m → NoDup set.

Lemma setAdd_NoDup v s : NoDup s → NoDup (setAdd v s).
Proof.
  intros Hs. unfold setAdd, has. destruct (existsb (String.eqb v) s) eqn:E; [done|].
  apply NoDup_app. split; [done|]. split; [|apply NoDup_singleton].
  intros x Hx ->%list_elem_of_singleton.
  assert (existsb (String.eqb v) s = true) as E'; [|congruence].
  apply existsb_exists. exists v. split; [by apply list_elem_of_In | apply String.eqb_refl].
Qed.

Lemma distinctSets_addToSet k v m : distinctSets m → distinctSets (addToSet k v m).
Proof.
  intros Hm k' set Hin.
  destruct (in_addToSet _ _ _ _ _ Hin) as [[-> ->]|[?|(-> & set0 & H0 & ->)]].
  - apply NoDup_singleton.
  - by apply (Hm k').
  - apply setAdd_NoDup. by apply (Hm k).
Qed.

Lemma distinctSets_fold {A B : Type} (f : A → list B) (g : A → B → option (string * string))
    (l : list A) :
  distinctSets
    (fold_left
       (λ m a, fold_left
                 (λ m b, match g a b with Some (k, v) => addToSet k v m | None => m end)
                 (f a) m)
       l []).
Proof.
  apply (fold_left_inv distinctSets (λ _, True)); [|done|by intros k set []].
  intros m a Hm _. apply (fold_left_inv distinctSets (λ _, True)); [|done|done].
  intros m' b Hm' _. destruct (g a b) as [[k v]|]; [|done]. by apply distinctSets_addToSet.
Qed.

Lemma linkToActors_distinct i : distinctSets (linkToActors i).
Proof. apply (distinctSets_fold (linksOf i) (λ a l, Some (l, a))). Qed.

Lemma domainToActors_distinct h i : distinctSets (domainToActors h i).
Proof.
  apply (distinctSets_fold
    (λ a, setOf (List.filter (λ d, negb (has d COMMON_DOMAINS)) (extractDomains h (linksOf i a))))
    (λ a d, Some (d, a))).
Qed.

Lemma stemToActors_distinct i : distinctSets (stemToActors i).
Proof.
  unfold stemToActors.
  apply (fold_left_inv distinctSets (λ _, True)); [|done|by intros k set []].
  intros m e Hm _. destruct (String.eqb (snd e) ""); [done|]. by apply distinctSets_addToSet.
Qed.

Lemma baseHandleToActors_distinct i : distinctSets (baseHandleToActors i).
Proof.
  unfold baseHandleToActors.
  apply (fold_left_inv distinctSets (λ _, True)); [|done|by intros k set []].
  intros m a Hm _. destruct (_ <? 2)%nat; [done|]. destruct (_ <? 3)%nat; [done|].
  by apply distinctSets_addToSet.
Qed.

Lemma walletToActors_distinct i : distinctSets (walletToActors i).
Proof. apply (distinctSets_fold (walletsOf i) (λ a w, Some (w, a))). Qed.

Lemma funderToWallets_distinct i : distinctSets (funderToWallets i).
Proof.
  unfold funderToWallets.
  apply (fold_left_inv distinctSets (λ _, True)); [|done|by intros k set []].
  intros m e Hm _. apply (fold_left_inv distinctSets (λ _, True)); [|done|done].
  intros m' f Hm' _. destruct (looksLikeEvmAddress f); [|done].
  by apply distinctSets_addToSet.
Qed.

(** ** Unions among a class of strings leave the others alone *)

Section Apart.

Variable K : string → Prop.
Variable uf0 : UnionFind.

(** Strings of [K] are connected to strings of [K] only, and a string
    outside [K] has the root it had in [uf0]. *)
Definition apart (uf : UnionFind) : Prop :=
  wf uf
  ∧ (∀ k x, K k → ¬ K x → findRoot uf k ≠ findRoot uf x)
  ∧ (∀ x, ¬ K x → findRoot uf x = findRoot uf0 x).

Lemma apart_wf uf : apart uf → wf uf.
Proof. by intros [? _]. Qed.

Lemma apart_union uf a b uf' :
  apart uf → K a → K b → union uf a b = Some uf' → apart uf'.
Proof.
  intros (H & Hap & Hfix) Ha Hb E.
  assert (∀ x, ¬ K x → findRoot uf' x = findRoot uf x) as Hx.
  { intros x Hx. apply (union_apart _ _ _ _ _ H E); apply not_eq_sym; by apply Hap. }
  split; [by eapply union_wf|]. split.
  - intros k x Hk Hnx. rewrite (Hx x Hnx).
    destruct (union_roots _ _ _ _ H E) as (_ & w & Hw & [Hm | [_ Hm]]).
    + rewrite Hm. case_decide; [|by apply Hap].
      destruct Hw as [-> | ->]; by apply Hap.
    + rewrite Hm. by apply Hap.
  - intros x Hnx. rewrite (Hx x Hnx). by apply Hfix.
Qed.

End Apart.







Lemma body_extends body set k st st' :
  connectBody body → wf (fst st) → body set k st = Some st' → extends st st'.
Proof.
  intros Hb H E. destruct (Hb set k st) as [E' | [reason E']]; rewrite E' in E.
  - injection E as <-. by apply extends_refl.
  - by apply (connectMany_spec _ _ _ _ H E).
Qed.

Lemma forEachEntry_extends body m st st' :
  connectBody body → wf (fst st) → forEachEntry body m st = Some st' → extends st st'.
Proof.
  intros Hb. unfold forEachEntry. revert st.
  induction m as [|[k set] m IH]; intros st H; simpl.
  - intros [= <-]. by apply extends_refl.
  - destruct (body set k st) as [st1|] eqn:E1; [|done]. intros E.
    pose proof (body_extends _ _ _ _ _ Hb H E1) as X1.
    eapply extends_trans; [exact X1|]. apply IH; [by destruct X1 | done].
Qed.

(** The callback runs on every entry, between two extensions. *)
Lemma forEachEntry_entry body m st st' k set :
  connectBody body → wf (fst st) → forEachEntry body m st = Some st' → In (k, set) m →
  ∃ st1 st2, extends st st1 ∧ body set k st1 = Some st2 ∧ extends st2 st'.
Proof.
  intros Hb H E Hin. apply in_split in Hin as (m1 & m2 & ->).
  unfold forEachEntry in E. rewrite foldM_app in E.
  fold (forEachEntry body m1 st) in E.
  destruct (forEachEntry body m1 st) as [st1|] eqn:E1; [|done]. simpl in E.
  destruct (body set k st1) as [st2|] eqn:E2; [|done].
  pose proof (forEachEntry_extends body m1 st st1 Hb H E1) as X1.
  assert (wf (fst st1)) as H1 by (by destruct X1).
  pose proof (body_extends _ _ _ _ _ Hb H1 E2) as X2.
  assert (wf (fst st2)) as H2 by (by destruct X2).
  exists st1, st2. split; [done|]. split; [done|].
  by apply (forEachEntry_extends body m2).
Qed.

(** Which set of a map holds a string. *)
Definition memberAt (m : list (string * list string)) (k a : string) : Prop :=
  ∃ set, mapGet k m = Some set ∧ In a set.

Lemma mapGet_addToSet k v m k' :
  mapGet k' (addToSet k v m) =
  if String.eqb k k' then Some (setAdd v (default [] (mapGet k m))) else mapGet k' m.
Proof.
  induction m as [|[k0 s0] m IH]; simpl.
  - by destruct (String.eqb k k').
  - destruct (String.eqb_spec k0 k) as [->|Hne]; simpl.
    + by destruct (String.eqb k k').
    + rewrite IH. destruct (String.eqb_spec k0 k') as [E|]; [|done].
      destruct (String.eqb_spec k k') as [E'|]; [congruence | done].
Qed.

Lemma memberAt_add k v m : memberAt (addToSet k v m) k v.
Proof.
  unfold memberAt. rewrite mapGet_addToSet, String.eqb_refl.
  eexists. split; [done|]. apply in_setAdd. by left.
Qed.

Lemma memberAt_mono k v m k' a : memberAt m k' a → memberAt (addToSet k v m) k' a.
Proof.
  intros (set & E & Ha). unfold memberAt. rewrite mapGet_addToSet.
  destruct (String.eqb_spec k k') as [->|]; [|by eauto].
  rewrite E. eexists. split; [done|]. apply in_setAdd. by right.
Qed.

Lemma fold_left_mono {A S : Type} (I : S → Prop) (f : S → A → S) (l : list A) (s : S) :
  (∀ s x, I s → I (f s x)) → I s → I (fold_left f l s).
Proof. intros Hf. apply (fold_left_inv I (λ _, True)); [by auto | done]. Qed.

Lemma fold_left_hit {A S : Type} (I : S → Prop) (f : S → A → S) (l : list A) (s : S) x :
  (∀ s x, I s → I (f s x)) → (∀ s, I (f s x)) → In x l → I (fold_left f l s).
Proof.
  intros Hmono Hx. revert s. induction l as [|y l IH]; intros s; simpl; [done|].
  intros [->|Hin]; [|by apply IH]. by apply fold_left_mono.
Qed.






(** ** The order of the scores *)

(** The score from the ramp and the four indicators. *)
Definition scoreFrom (r : Num.num) (w f l d : bool) : Num.num :=
  let score := Num.add Num.c_0_25 r in
  let score := if w then Num.add score Num.c_0_25 else score in
  let score := if f then Num.add score Num.c_0_25 else score in
  let score := if l then Num.add score Num.c_0_15 else score in
  let score := if d then Num.add score Num.c_0_10 else score in
  Num.min score Num.c_1.

Lemma computeScore_from n reasons :
  computeScore n reasons =
  scoreFrom (ramp n) (hasReason "Shared wallet:" reasons) (hasReason "Common funder:" reasons)
    (hasReason "Shared link:" reasons) (hasReason "Shared domain:" reasons).
Proof. reflexivity. Qed.

(** Every score a group of two or more members can have. *)
Definition allScores : list Num.num :=
  Eval vm_compute in
    flat_map (λ r,
      flat_map (λ w,
        flat_map (λ f,
          flat_map (λ l, map (scoreFrom r w f l) [false; true]) [false; true])
          [false; true])
        [false; true])
      rampValues.

Lemma scoreFrom_in r w f l d : In r rampValues → In (scoreFrom r w f l d) allScores.
Proof.
  intros Hr. simpl in Hr.
  destruct Hr as [<-|[<-|[<-|[<-|[]]]]]; destruct w, f, l, d; vm_compute; tauto.
Qed.

Lemma computeScore_in n reasons : 2 ≤ n → In (computeScore n reasons) allScores.
Proof. intros Hn. rewrite computeScore_from. by apply scoreFrom_in, ramp_values. Qed.

(** A positive finite binary64 value as an integer multiple of 2^-1074. *)
Definition scoreKey (s : Num.num) : Z :=
  match s with
  | S754_finite false m e => Z.shiftl (Zpos m) (e + 1074)
  | _ => 0
  end.

Definition numSame (a b : Num.num) : bool :=
  match a, b with
  | S754_zero s, S754_zero s' | S754_infinity s, S754_infinity s' => Bool.eqb s s'
  | S754_nan, S754_nan => true
  | S754_finite s m e, S754_finite s' m' e' => Bool.eqb s s' && Pos.eqb m m' && Z.eqb e e'
  | _, _ => false
  end.

Lemma numSame_eq a b : numSame a b = true → a = b.
Proof.
  destruct a as [s|s| |s m e], b as [s'|s'| |s' m' e']; simpl; try done.
  - by intros ->%Bool.eqb_prop.
  - by intros ->%Bool.eqb_prop.
  - intros [[->%Bool.eqb_prop ->%Pos.eqb_eq]%andb_prop ->%Z.eqb_eq]%andb_prop. done.
Qed.

Definition comparisonSame (c c' : comparison) : bool :=
  match c, c' with
  | Eq, Eq | Lt, Lt | Gt, Gt => true
  | _, _ => false
  end.

(** What the comparator does on two scores, against the integer order
    of their keys. *)
Definition scoresAgree (a b : Num.num) : bool :=
  let d := Num.sub b a in
  (if Num.truthy d
   then comparisonSame (Num.sign d) (Z.compare (scoreKey b) (scoreKey a))
        && negb (Z.eqb (scoreKey a) (scoreKey b))
   else numSame a b)
  && Bool.eqb (Num.ltb b a) (Z.ltb (scoreKey b) (scoreKey a)).

Lemma allScores_agree :
  forallb (λ a, forallb (scoresAgree a) allScores) allScores = true.
Proof. vm_compute. reflexivity. Qed.

Lemma score_order a b :
  In a allScores → In b allScores →
  (Num.truthy (Num.sub b a) = true →
     Num.sign (Num.sub b a) = Z.compare (scoreKey b) (scoreKey a)
     ∧ scoreKey a ≠ scoreKey b)
  ∧ (Num.truthy (Num.sub b a) = false → a = b)
  ∧ Num.ltb b a = Z.ltb (scoreKey b) (scoreKey a).
Proof.
  intros Ha Hb. pose proof allScores_agree as H.
  rewrite forallb_forall in H. specialize (H a Ha).
  rewrite forallb_forall in H. specialize (H b Hb).
  unfold scoresAgree in H. apply andb_prop in H as [H1 H2].
  apply Bool.eqb_prop in H2. split; [|split; [|done]].
  - intros Ht. rewrite Ht in H1. apply andb_prop in H1 as [H1 H3].
    split.
    + by destruct (Num.sign _), (Z.compare _ _).
    + apply negb_true_iff, Z.eqb_neq in H3. done.
  - intros Ht. rewrite Ht in H1. by apply numSame_eq.
Qed.

(** Descending score, ties by descending member count. *)
Definition precedes (a b : ControllerGroup) : Prop :=
  Num.ltb (score b) (score a) = true
  ∨ (score a = score b ∧ length (members b) ≤ length (members a)).

Definition scored (g : ControllerGroup) : Prop := In (score g) allScores.

Lemma precedes_keys a b :
  scored a → scored b →
  precedes a b ↔
  (scoreKey (score b) < scoreKey (score a))%Z
  ∨ (scoreKey (score a) = scoreKey (score b) ∧ length (members b) ≤ length (members a)).
Proof.
  intros Ha Hb. unfold precedes.
  destruct (score_order (score a) (score b) Ha Hb) as (H1 & H2 & H3).
  rewrite H3, Z.ltb_lt. split.
  - intros [?|[-> ?]]; [by left | by right].
  - intros [?|[E ?]]; [by left|]. right. split; [|done].
    destruct (Num.truthy (Num.sub (score b) (score a))) eqn:Et; [|by apply H2].
    by destruct (H1 eq_refl) as [_ ?].
Qed.

Lemma compareGroups_keys a b :
  scored a → scored b →
  compareGroups a b =
  match Z.compare (scoreKey (score b)) (scoreKey (score a)) with
  | Eq => Z.compare (Z.of_nat (length (members b))) (Z.of_nat (length (members a)))
  | c => c
  end.
Proof.
  intros Ha Hb. unfold compareGroups.
  destruct (score_order (score a) (score b) Ha Hb) as (H1 & H2 & _).
  destruct (Num.truthy (Num.sub (score b) (score a))) eqn:Et.
  - destruct (H1 eq_refl) as [-> Hne].
    destruct (Z.compare_spec (scoreKey (score b)) (scoreKey (score a))); [congruence|done..].
  - rewrite (H2 eq_refl), Z.compare_refl. done.
Qed.

Lemma sortBy_precedes l : Forall scored l → StronglySorted precedes (sortBy compareGroups l).
Proof.
  apply (sortBy_sorted compareGroups scored precedes).
  - intros x y Hx Hy Hc. apply (precedes_keys x y Hx Hy).
    rewrite (compareGroups_keys x y Hx Hy) in Hc.
    destruct (Z.compare_spec (scoreKey (score y)) (scoreKey (score x))) as [E|E|E];
      [|by left|done].
    right. split; [done|].
    destruct (Z.compare_spec (Z.of_nat (length (members y))) (Z.of_nat (length (members x))));
      [lia | lia | done].
  - intros x y Hx Hy Hc. apply (precedes_keys y x Hy Hx).
    rewrite (compareGroups_keys x y Hx Hy) in Hc.
    destruct (Z.compare_spec (scoreKey (score y)) (scoreKey (score x))) as [E|E|E];
      [|done|by left].
    right. split; [done|].
    destruct (Z.compare_spec (Z.of_nat (length (members y))) (Z.of_nat (length (members x))));
      [done | done | lia].
  - intros x y z Hx Hy Hz Hxy Hyz.
    apply (precedes_keys x y Hx Hy) in Hxy. apply (precedes_keys y z Hy Hz) in Hyz.
    apply (precedes_keys x z Hx Hz). lia.
Qed.

Lemma groupsBeforeSort_scored i uf ev g : In g (groupsBeforeSort i uf ev) → scored g.
Proof.
  intros Hg. apply groupsBeforeSort_In in Hg as (r & Hm & Hs & Hsc & _).
  unfold scored. rewrite Hsc. apply computeScore_in. rewrite Hm, sortBy_length.
  unfold survives in Hs. apply negb_true_iff, Z.ltb_ge in Hs. lia.
Qed.

Lemma groupsFrom_members ev id comps :
  map members (groupsFrom ev id comps) = map (sortBy String.compare) comps.
Proof.
  revert id. induction comps as [|ms comps IH]; intros id; simpl; [done|]. by rewrite IH.
Qed.

Lemma groupsFrom_length ev id comps : length (groupsFrom ev id comps) = length comps.
Proof.
  revert id. induction comps as [|ms comps IH]; intros id; simpl; [done|]. by rewrite IH.
Qed.

(** ** Worked inputs *)

Definition mkInput actors links bios stems funders extra minSize : Input :=
  {| actors := actors; linksByActor := links; bioByActor := bios;
     handleStemByActor := stems; sharedFundersByWallet := funders;
     extraWalletsByActor := extra; minGroupSize := minSize |}.

Definition outputOf (i : Input) : Output :=
  match computeControllerGroups simpleHostname i with
  | Some out => out
  | None => {| groups := []; controllerIdByActor := [] |}
  end.

(** Two handles that agree across platforms. *)
Definition ex_alice : Input :=
  mkInput ["x:alice"; "y:alice"] [] [] [] [] None 2.

Definition ex_alice_group : ControllerGroup :=
  {| controllerId := 0;
     members := ["x:alice"; "y:alice"];
     score := Num.c_0_25;
     evidence := ["Same handle across platforms: alice"] |}.

Lemma ex_alice_result :
  computeControllerGroups simpleHostname ex_alice =
  Some {| groups := [ex_alice_group];
          controllerIdByActor := [("x:alice", 0); ("y:alice", 0)] |}.
Proof. vm_compute. reflexivity. Qed.

(** * The statements of the specification *)

(** C1. For every returned group the score is
    [min(1, 0.25 + min((memberCount - 2) / 10, 0.25) + bonuses)], where
    [memberCount] is the length of the group's member list and the
    bonuses are 0.25, 0.25, 0.15 and 0.10 for a collected reason that
    starts with "Shared wallet:", "Common funder:", "Shared link:" and
    "Shared domain:"; the collected reasons are those of the pairwise
    scan over the group's members. *)
Theorem C1_score_formula h i out g :
  computeControllerGroups h i = Some out → In g (groups out) →
  score g = specScore (length (members g)) (collectReasons (ledgerOf h i) (members g)).
Proof.
  intros Hout Hg. destruct (resolver_shape h i out Hout) as (Hgs & _).
  rewrite Hgs in Hg. apply sortBy_In in Hg.
  apply groupsBeforeSort_In in Hg as (r & _ & _ & -> & _). apply computeScore_spec.
Qed.

Lemma C1_score_formula_witness :
  score ex_alice_group =
  specScore (length (members ex_alice_group))
    (collectReasons (ledgerOf simpleHostname ex_alice) (members ex_alice_group)).
Proof.
  apply (C1_score_formula simpleHostname ex_alice
           {| groups := [ex_alice_group];
              controllerIdByActor := [("x:alice", 0); ("y:alice", 0)] |}).
  - vm_compute. reflexivity.
  - simpl. left. reflexivity.
Defined.

(** Two actors that share one link: the empty identifier and ["a"], and
    the same with ["b"] in place of the empty identifier. *)
Definition ex_link_empty : Input :=
  mkInput [""; "a"] [("", ["l"]); ("a", ["l"])] [] [] [] None 2.

Definition ex_link_pair : Input :=
  mkInput ["b"; "a"] [("b", ["l"]); ("a", ["l"])] [] [] [] None 2.

(** C2. A set that reaches the threshold of its pass is not always
    joined. For the actors [""] and ["a"] sharing the link ["l"] the
    link pass has the set [""; "a"], of size 2, its threshold; the pass
    runs [connectMany] on it and records the reason for the pair, and
    after all passes [find] still answers [""] and ["a"]: the two actors
    are in different components and no group is returned. With ["b"] in
    place of the empty identifier the same input gives one component and
    one group. *)
Theorem C2_threshold_met_not_joined :
  (linkToActors ex_link_empty = [("l", [""; "a"])]
   ∧ linkBody [""; "a"] "l" (makeUnionFind [""; "a"], ∅)
     = connectMany [""; "a"] "Shared link: l" (makeUnionFind [""; "a"], ∅)
   ∧ reasonsAt (ledgerOf simpleHostname ex_link_empty) (pairKey "" "a") = ["Shared link: l"]
   ∧ parent (forestOf simpleHostname ex_link_empty) !! "a" = Some ""
   ∧ findRoot (forestOf simpleHostname ex_link_empty) "" = ""
   ∧ findRoot (forestOf simpleHostname ex_link_empty) "a" = "a"
   ∧ groups (outputOf ex_link_empty) = [])
  ∧ (linkToActors ex_link_pair = [("l", ["b"; "a"])]
     ∧ reasonsAt (ledgerOf simpleHostname ex_link_pair) (pairKey "b" "a") = ["Shared link: l"]
     ∧ findRoot (forestOf simpleHostname ex_link_pair) "a" = "b"
     ∧ findRoot (forestOf simpleHostname ex_link_pair) "b" = "b"
     ∧ map (λ g, (members g, evidence g)) (groups (outputOf ex_link_pair))
       = [(["a"; "b"], ["Shared link: l"])]).
Proof. vm_compute. repeat split. Qed.

(** One address in upper and in lower case, as an extra wallet and in a
    bio. *)
Definition addr_upper : string := "0xAAAAAAAAAAAAAAAAAAAAAAAAAAAAAAAAAAAAAAAA".
Definition addr_lower : string := "0xaaaaaaaaaaaaaaaaaaaaaaaaaaaaaaaaaaaaaaaa".

Definition ex_extra_upper : Input :=
  mkInput ["a"; "b"] [] [("b", addr_lower)] [] [] (Some [("a", [addr_upper])]) 2.

Definition ex_bio_upper : Input :=
  mkInput ["a"; "b"] [] [("a", addr_upper); ("b", addr_lower)] [] [] None 2.

(** C3. The wallets found in a bio, in the links and in the actor
    identifier are lowercased; the wallets of [extraWalletsByActor] are
    pushed as they are. With the same address in upper case among the
    extra wallets of ["a"] and in lower case in the bio of ["b"] the two
    keys differ and the actors are not grouped; with the upper-case
    address in the bio of ["a"] instead, they are. *)
Theorem C3_extra_wallets_keep_case :
  Str.toLowerCase addr_upper = addr_lower
  ∧ walletsOf ex_extra_upper "a" = [addr_upper]
  ∧ walletsOf ex_extra_upper "b" = [addr_lower]
  ∧ walletToActors ex_extra_upper = [(addr_upper, ["a"]); (addr_lower, ["b"])]
  ∧ computeControllerGroups simpleHostname ex_extra_upper
    = Some {| groups := []; controllerIdByActor := [] |}
  ∧ walletToActors ex_bio_upper = [(addr_lower, ["a"; "b"])]
  ∧ map members (groups (outputOf ex_bio_upper)) = [["a"; "b"]].
Proof. vm_compute. repeat split. Qed.

(** Four actors, two wallets each shared by two of them, one funder of
    both wallets. *)
Definition wallet_1 : string := "0x1111111111111111111111111111111111111111".
Definition funder_f : string := "0xffffffffffffffffffffffffffffffffffffffff".


(** Two actors whose identifiers are upper-case addresses with a common
    funder. *)
Definition addr_upper_b : string := "0xBBBBBBBBBBBBBBBBBBBBBBBBBBBBBBBBBBBBBBBB".

Definition ex_funded_actors : Input :=
  mkInput [addr_upper; addr_upper_b] [] [] []
    [(addr_upper, [funder_f]); (addr_upper_b, [funder_f])] None 2.





(** C5. A component with fewer than [max(2, minGroupSize)] members yields
    no group, and none of its actors is a key of [controllerIdByActor];
    in particular an actor that is alone in its component is absent from
    both. The component of [a] is the list of the actors whose root in
    the final forest is the root of [a]. *)
Theorem C5_small_components_dropped h i out :
  computeControllerGroups h i = Some out →
  let component a :=
    membersOf (findRoot (forestOf h i)) (actors i) (findRoot (forestOf h i) a) in
  let absent a :=
    (∀ g, In g (groups out) → ¬ In a (members g))
    ∧ mapGet a (controllerIdByActor out) = None in
  (∀ g, In g (groups out) →
     (Z.max 2 (minGroupSize i) ≤ Z.of_nat (length (members g)))%Z)
  ∧ (∀ a, (Z.of_nat (length (component a)) < Z.max 2 (minGroupSize i))%Z → absent a)
  ∧ (∀ a, component a = [a] → absent a).
Proof.
  intros Hout component absent.
  destruct (resolver_shape h i out Hout) as (Hgs & [I1 I2]).
  set (uf := forestOf h i) in *. set (ev := ledgerOf h i) in *.
  assert (∀ g, In g (groups out) → In g (groupsBeforeSort i uf ev)) as Hpre.
  { intros g Hg. rewrite Hgs in Hg. by apply sortBy_In in Hg. }
  assert (∀ g a, In g (groupsBeforeSort i uf ev) → In a (members g) →
            (Z.max 2 (minGroupSize i) ≤ Z.of_nat (length (component a)))%Z) as Hbig.
  { intros g a Hg Ha. apply groupsBeforeSort_In in Hg as (r & Hm & Hs & _).
    rewrite Hm in Ha. apply sortBy_In in Ha. pose proof Ha as Ha'.
    apply membersOf_In in Ha' as [_ Hr]. unfold component. rewrite Hr.
    unfold survives in Hs. apply negb_true_iff, Z.ltb_ge in Hs. done. }
  assert (∀ a, (Z.of_nat (length (component a)) < Z.max 2 (minGroupSize i))%Z → absent a)
    as Hsmall.
  { intros a Ha. split.
    - intros g Hg Hin. pose proof (Hbig g a (Hpre g Hg) Hin). lia.
    - destruct (mapGet a (controllerIdByActor out)) as [id|] eqn:Eid; [|done].
      destruct (I1 _ _ Eid) as (g & Hg & Hin & _). pose proof (Hbig g a Hg Hin). lia. }
  split; [|split; [done|]].
  - intros g Hg. apply Hpre in Hg. apply groupsBeforeSort_In in Hg as (r & -> & Hs & _).
    rewrite sortBy_length. unfold survives in Hs. by apply negb_true_iff, Z.ltb_ge in Hs.
  - intros a Ha. apply Hsmall. rewrite Ha. simpl. lia.
Qed.

(** An actor that shares nothing next to a pair that shares a handle. *)
Definition ex_loner : Input :=
  mkInput ["x:alice"; "y:alice"; "z:carol"] [] [] [] [] None 1.

Lemma C5_small_components_dropped_witness :
  (∀ g, In g (groups (outputOf ex_loner)) → ¬ In "z:carol" (members g))
  ∧ mapGet "z:carol" (controllerIdByActor (outputOf ex_loner)) = None.
Proof.
  refine (proj2 (proj2 (C5_small_components_dropped simpleHostname ex_loner
            (outputOf ex_loner) _)) "z:carol" _).
  - vm_compute. reflexivity.
  - vm_compute. reflexivity.
Defined.

(** C6. Before the sort the groups are the surviving components in the
    order [rootToMembers] enumerates them, numbered 0, 1, 2, ...; the
    returned list is the stable sort of that list by the comparator, so
    it has the same groups with the same identifiers, in descending order
    of score with ties in descending order of member count; and
    [controllerIdByActor] maps every member of a returned group to the
    identifier of that group and holds nothing else. *)
Theorem C6_identifiers_and_order h i out :
  computeControllerGroups h i = Some out →
  let pre := groupsBeforeSort i (forestOf h i) (ledgerOf h i) in
  map controllerId pre = seq 0 (length pre)
  ∧ map members pre
    = map (sortBy String.compare)
        (survivors i (groupByKey (findRoot (forestOf h i)) (actors i)))
  ∧ groups out = sortBy compareGroups pre
  ∧ groups out ≡ₚ pre
  ∧ StronglySorted precedes (groups out)
  ∧ (∀ g m, In g (groups out) → In m (members g) →
       mapGet m (controllerIdByActor out) = Some (controllerId g))
  ∧ (∀ m id, mapGet m (controllerIdByActor out) = Some id →
       ∃ g, In g (groups out) ∧ In m (members g) ∧ controllerId g = id).
Proof.
  intros Hout pre. destruct (resolver_shape h i out Hout) as (Hgs & [I1 I2]).
  fold pre in Hgs, I1, I2.
  split. { unfold pre, groupsBeforeSort. by rewrite groupsFrom_ids, groupsFrom_length. }
  split. { unfold pre, groupsBeforeSort. apply groupsFrom_members. }
  split; [done|]. split. { rewrite Hgs. apply sortBy_perm. }
  split. { rewrite Hgs. apply sortBy_precedes, Forall_forall.
           intros g Hg%list_elem_of_In. by eapply groupsBeforeSort_scored. }
  split.
  - intros g m Hg Hm. apply I2; [|done]. rewrite Hgs in Hg. by apply sortBy_In in Hg.
  - intros m id Hget. destruct (I1 m id Hget) as (g & Hg & Hm & Hid).
    exists g. split; [|done]. rewrite Hgs. by apply sortBy_In.
Qed.

(** A pair that shares a link and, listed after it, a trio that shares a
    wallet: the trio scores higher and comes first, with identifier 1. *)
Definition ex_two_groups : Input :=
  mkInput ["a"; "b"; "p"; "q"; "r"]
    [("a", ["l"]); ("b", ["l"])]
    [("p", wallet_1); ("q", wallet_1); ("r", wallet_1)] [] [] None 2.

Lemma ex_two_groups_result :
  map (λ g, (controllerId g, members g)) (groups (outputOf ex_two_groups))
  = [(1, ["p"; "q"; "r"]); (0, ["a"; "b"])]
  ∧ controllerIdByActor (outputOf ex_two_groups)
    = [("a", 0); ("b", 0); ("p", 1); ("q", 1); ("r", 1)].
Proof. by vm_compute. Qed.

Lemma C6_identifiers_and_order_witness :
  let pre := groupsBeforeSort ex_two_groups (forestOf simpleHostname ex_two_groups)
               (ledgerOf simpleHostname ex_two_groups) in
  map controllerId pre = seq 0 (length pre)
  ∧ groups (outputOf ex_two_groups) ≡ₚ pre
  ∧ StronglySorted precedes (groups (outputOf ex_two_groups)).
Proof.
  intros pre.
  destruct (C6_identifiers_and_order simpleHostname ex_two_groups (outputOf ex_two_groups))
    as (H1 & _ & _ & H4 & H5 & _).
  - vm_compute. reflexivity.
  - split; [exact H1|]. split; [exact H4 | exact H5].
Defined.

(** C7 (amended). Every returned group has its member list in
    lexicographic order. The evidence list is not sorted: it is the first
    eight reasons in the order in which the pairwise scan over the sorted
    members collected them. *)
Theorem C7_members_sorted h i out g :
  computeControllerGroups h i = Some out → In g (groups out) →
  StronglySorted String.le (members g)
  ∧ evidence g = take 8 (collectReasons (ledgerOf h i) (members g)).
Proof.
  intros Hout Hg. destruct (resolver_shape h i out Hout) as (Hgs & _).
  rewrite Hgs in Hg. apply sortBy_In in Hg.
  apply groupsBeforeSort_In in Hg as (r & -> & _ & _ & He).
  split; [apply sort_strings_sorted|].
  by rewrite He.
Qed.

Lemma C7_members_sorted_witness :
  StronglySorted String.le (members ex_alice_group)
  ∧ evidence ex_alice_group =
    take 8 (collectReasons (ledgerOf simpleHostname ex_alice) (members ex_alice_group)).
Proof.
  apply (C7_members_sorted simpleHostname ex_alice
           {| groups := [ex_alice_group];
              controllerIdByActor := [("x:alice", 0); ("y:alice", 0)] |}).
  - vm_compute. reflexivity.
  - simpl. left. reflexivity.
Defined.

(** Two actors that list the same three links, in an order that is
    neither ascending nor descending. *)
Definition ex_three_links : Input :=
  mkInput ["a"; "b"]
    [("a", ["u2"; "u1"; "u3"]); ("b", ["u2"; "u1"; "u3"])] [] [] [] None 2.

Definition ex_three_links_score : Num.num :=
  Eval vm_compute in Num.add Num.c_0_25 Num.c_0_15.

Lemma ex_three_links_result :
  groups (outputOf ex_three_links) =
  [ {| controllerId := 0;
       members := ["a"; "b"];
       score := ex_three_links_score;
       evidence := ["Shared link: u2"; "Shared link: u1"; "Shared link: u3"] |} ].
Proof. vm_compute. reflexivity. Qed.

(** The evidence of the one group of [ex_three_links] is sorted in
    neither direction. *)
Lemma C7_evidence_not_sorted :
  ¬ (∀ g, In g (groups (outputOf ex_three_links)) →
       StronglySorted String.le (members g)
       ∧ (StronglySorted String.le (evidence g)
          ∨ StronglySorted (flip String.le) (evidence g))).
Proof.
  intros H. rewrite ex_three_links_result in H.
  destruct (H _ (or_introl eq_refl)) as [_ [Hs | Hs]]; simpl in Hs.
  - apply StronglySorted_inv in Hs as [_ Hf].
    apply Forall_cons in Hf as [Hle _]. by vm_compute in Hle.
  - apply StronglySorted_inv in Hs as [Hs _].
    apply StronglySorted_inv in Hs as [_ Hf].
    apply Forall_cons in Hf as [Hle _]. by vm_compute in Hle.
Qed.

(** C8. [computeControllerGroups] returns for every input: [find] always
    gets to a root, so no pass fails. A link the URL parser rejects is
    skipped; an actor without an entry in [linksByActor], [bioByActor] or
    [extraWalletsByActor] gets empty collections and only the entries of
    [handleStemByActor] take part in the stem pass; strings that are not
    wallet-shaped are filtered out of the wallets of an actor and of the
    funders. *)
Theorem C8_total h i :
  (∃ out, computeControllerGroups h i = Some out)
  ∧ (∀ l ls, h l = None → extractDomains h (l :: ls) = extractDomains h ls)
  ∧ (∀ a, mapGet a (linksByActor i) = None → linksOf i a = [])
  ∧ (∀ a, mapGet a (linksByActor i) = None → mapGet a (bioByActor i) = None →
          (∀ extra, extraWalletsByActor i = Some extra → mapGet a extra = None) →
          looksLikeEvmAddress a = false → walletsOf i a = [])
  ∧ (∀ a, In a (vals (stemToActors i)) → In a (map fst (handleStemByActor i)))
  ∧ (∀ a w, In w (walletsOf i a) → looksLikeEvmAddress w = true)
  ∧ (∀ f set, In (f, set) (funderToWallets i) → looksLikeEvmAddress f = true).
Proof.
  split; [apply computeControllerGroups_total|].
  split; [intros l ls Hl; simpl; by rewrite Hl|].
  split; [intros a Ha; unfold linksOf; by rewrite Ha|].
  split.
  { intros a Hl Hb He Ha. unfold walletsOf, linksOf. rewrite Hl, Hb, Ha. simpl.
    destruct (extraWalletsByActor i) as [extra|]; [|done]. by rewrite (He extra). }
  split.
  { intros a Ha. pose proof (entriesOk_vals _ _ _ (stemToActors_ok i)) as H.
    rewrite Forall_forall in H. by apply H, list_elem_of_In. }
  split; [apply walletsOf_wallets|].
  intros f set Hin. by destruct (funderToWallets_ok i f set Hin).
Qed.

(** An input with a link that is no URL, a funder that is no wallet and
    an actor that has no entry anywhere. *)
Definition ex_malformed : Input :=
  mkInput ["a"; "b"; "c"]
    [("a", ["not a url"; "https://foo.io/a"]); ("b", ["https://foo.io/b"])]
    [("a", "no wallet here")] [("a", "stem")]
    [("w1", ["funder?"]); ("w2", ["funder?"])]
    (Some [("a", ["0x12"; "wallet"])]) 2.

Lemma C8_total_witness :
  (∃ out, computeControllerGroups simpleHostname ex_malformed = Some out)
  ∧ extractDomains simpleHostname ["not a url"; "https://foo.io/a"]
    = extractDomains simpleHostname ["https://foo.io/a"]
  ∧ linksOf ex_malformed "c" = []
  ∧ walletsOf ex_malformed "c" = [].
Proof.
  destruct (C8_total simpleHostname ex_malformed) as (H1 & H2 & H3 & H4 & _).
  split; [exact H1|]. split; [apply H2; reflexivity|]. split; [apply H3; reflexivity|].
  apply H4; try reflexivity. intros extra [= <-]. reflexivity.
Defined.

(** C9. [find] reads an entry that is the empty string as no entry. After
    [union("", "a")] on a structure over [""] and ["a"] the entry of
    ["a"] is the empty string, and [find("a")] still answers ["a"]: the
    two strings were joined by a union and [find] tells them apart. The
    resolver shows the same: two actors sharing a link are grouped when
    the empty identifier comes second and not when it comes first. *)
Theorem C9_union_with_empty_string :
  let uf := makeUnionFind [""; "a"] in
  (∃ uf', union uf "" "a" = Some uf'
          ∧ parent uf' !! "a" = Some ""
          ∧ findRoot uf' "" = "" ∧ findRoot uf' "a" = "a")
  ∧ groups (outputOf (mkInput [""; "a"] [("", ["l"]); ("a", ["l"])] [] [] [] None 2)) = []
  ∧ map members
      (groups (outputOf (mkInput ["a"; ""] [("", ["l"]); ("a", ["l"])] [] [] [] None 2)))
    = [[""; "a"]].
Proof.
  split; [|by vm_compute].
  destruct (union (makeUnionFind [""; "a"]) "" "a") as [uf'|] eqn:E; [|by vm_compute in E].
  exists uf'. split; [done|].
  assert (Some uf' = union (makeUnionFind [""; "a"]) "" "a") as E' by done.
  clear E.
  assert (∀ o : option UnionFind, Some uf' = o →
            match o with
            | Some u => parent u !! "a" = Some "" ∧ findRoot u "" = "" ∧ findRoot u "a" = "a"
            | None => True
            end → parent uf' !! "a" = Some "" ∧ findRoot uf' "" = "" ∧ findRoot uf' "a" = "a")
    as H by (by intros o <-).
  apply (H _ E'). vm_compute. repeat split.
Qed.

(** Two actors that share eight links and a wallet in their bios. *)
Definition ex_nine_reasons : Input :=
  let links := ["l1"; "l2"; "l3"; "l4"; "l5"; "l6"; "l7"; "l8"] in
  let bio := "pay 0x00000000000000000000000000000000000000aa please" in
  mkInput ["a"; "b"] [("a", links); ("b", links)] [("a", bio); ("b", bio)] [] [] None 2.

(** C10. There is an input with a returned group whose score carries the
    bonus for a "Shared wallet:" reason although no string of its returned
    evidence has that prefix: the pair's nine reasons are merged before the
    scan stops, the indicators are read from all nine, and the evidence
    keeps the first eight. *)
Theorem C10_bonus_without_evidence :
  ∃ i g, In g (groups (outputOf i)) ∧
    let collected := collectReasons (ledgerOf simpleHostname i) (members g) in
    length collected = 9
    ∧ hasReason "Shared wallet:" collected = true
    ∧ score g = specScore (length (members g)) collected
    ∧ evidence g = take 8 collected
    ∧ hasReason "Shared wallet:" (evidence g) = false
    ∧ score g = Num.add (specScore (length (members g)) (evidence g)) Num.c_0_25.
Proof.
  exists ex_nine_reasons.
  eexists. split; [vm_compute; left; reflexivity|].
  vm_compute. repeat split.
Qed.

(** * Further properties of the resolver *)

(** ** Path compression and union by size *)

Lemma find_from_entry fuel p x r p' :
  find_from fuel p x = Some (r, p') → (x = r ∧ p' = p) ∨ p' !! x = Some r.
Proof.
  destruct fuel as [|fuel]; [done|]. simpl.
  destruct (p !! x) as [y|]; [|intros [= <- <-]; by left].
  destruct (String.eqb y ""); [intros [= <- <-]; by left|].
  destruct (String.eqb y x); [intros [= <- <-]; by left|].
  destruct (find_from fuel p y) as [[r0 p0]|]; [|done].
  intros [= <- <-]. right. apply lookup_insert_eq.
Qed.

Lemma find_entry uf x r uf' :
  find uf x = Some (r, uf') → (x = r ∧ uf' = uf) ∨ parent uf' !! x = Some r.
Proof.
  unfold find. destruct (find_from _ _ x) as [[r0 p']|] eqn:F; [|done].
  intros [= <- <-]. apply find_from_entry in F as [[-> ->]|F]; [left|by right].
  split; [done|]. by destruct uf.
Qed.

(** The result of [union] written with the roots before it. *)
Lemma union_shape uf a b uf' :
  wf uf → union uf a b = Some uf' →
  let ra := findRoot uf a in
  let rb := findRoot uf b in
  let sa := sizeOr1 (size uf) ra in
  let sb := sizeOr1 (size uf) rb in
  if String.eqb ra rb then size uf' = size uf
  else if sa <? sb
       then parent uf' !! ra = Some rb ∧ size uf' = <[rb := sa + sb]> (size uf)
       else parent uf' !! rb = Some ra ∧ size uf' = <[ra := sa + sb]> (size uf).
Proof.
  intros H. unfold union.
  destruct (find uf a) as [[ra uf1]|] eqn:Fa; [|done].
  destruct (find_spec _ _ _ _ H Fa) as (_ & H1 & S1 & _).
  destruct (find_sameRoots _ _ _ _ H Fa) as (Ea & _ & R1).
  destruct (find uf1 b) as [[rb uf2]|] eqn:Fb; [|done].
  destruct (find_spec _ _ _ _ H1 Fb) as (_ & H2 & S2 & _).
  destruct (find_sameRoots _ _ _ _ H1 Fb) as (Eb & _ & R2).
  rewrite R1 in Eb. subst ra rb. cbn zeta. rewrite S2, S1.
  destruct (String.eqb _ _); [intros [= <-]; by rewrite S2, S1|].
  destruct (_ <? _); intros [= <-]; simpl; (split; [apply lookup_insert_eq | done]).
Qed.

Lemma union_winner uf a b uf' :
  wf uf → a ≠ "" → b ≠ "" → union uf a b = Some uf' →
  findRoot uf a ≠ findRoot uf b →
  findRoot uf' a =
  if sizeOr1 (size uf) (findRoot uf a) <? sizeOr1 (size uf) (findRoot uf b)
  then findRoot uf b else findRoot uf a.
Proof.
  intros H Ha Hb E Hne.
  pose proof (union_shape _ _ _ _ H E) as S. cbn zeta in S.
  destruct (String.eqb_spec (findRoot uf a) (findRoot uf b)) as [?|_]; [done|].
  destruct (union_roots _ _ _ _ H E) as (H' & w & Hw & [Hm | [[?|?] _]]); [|done..].
  assert (findRoot uf' a = w) as Ew.
  { rewrite Hm. rewrite decide_True; auto. }
  rewrite Ew.
  assert (isRoot (parent uf') w) as Rw.
  { rewrite <- Ew. apply (rootOf_isRoot _ a). by apply findRoot_spec. }
  pose proof (findRoot_nonempty uf a H Ha) as Na.
  pose proof (findRoot_nonempty uf b H Hb) as Nb.
  destruct (_ <? _); destruct S as [P _]; destruct Hw as [->| ->]; try done.
  - destruct (Rw (findRoot uf b)). split; [done|]. split; [done|]. congruence.
  - destruct (Rw (findRoot uf a)). split; [done|]. split; [done|]. congruence.
Qed.

(** ** The sizes count the classes *)

Definition nodes (uf : UnionFind) : gset string := dom (parent uf) ∪ dom (size uf).

Definition classOf (uf : UnionFind) (r : string) : gset string :=
  filter (λ x, findRoot uf x = r) (nodes uf ∪ {[r]}).

Definition sized (uf : UnionFind) : Prop :=
  wf uf ∧
  ∀ r, r ≠ "" → findRoot uf r = r → sizeOr1 (size uf) r = base.size (classOf uf r).

Lemma sizeOr1_pos sz r : 1 ≤ sizeOr1 sz r.
Proof. unfold sizeOr1. destruct (sz !! r) as [[|n]|]; lia. Qed.

Lemma sizeOr1_insert sz r n : 1 ≤ n → sizeOr1 (<[r := n]> sz) r = n.
Proof. intros Hn. unfold sizeOr1. rewrite lookup_insert_eq. destruct n; [lia|done]. Qed.

Lemma sizeOr1_insert_ne sz r r' n : r ≠ r' → sizeOr1 (<[r := n]> sz) r' = sizeOr1 sz r'.
Proof. intros Hn. unfold sizeOr1. by rewrite lookup_insert_ne. Qed.

Lemma compressed_dom p p' r : compressed p p' r → dom p' = dom p.
Proof.
  intros Hc. apply set_eq. intros y. rewrite !elem_of_dom.
  destruct (Hc y) as [-> | (E & _ & z & [E' _])]; [done|].
  rewrite E, E'. split; eauto.
Qed.

Lemma find_nodes uf x r uf' : find uf x = Some (r, uf') → nodes uf' = nodes uf.
Proof.
  unfold find. destruct (find_from _ _ x) as [[r0 p']|] eqn:F; [|done].
  intros [= <- <-]. apply find_from_spec in F as [_ Hc]. unfold nodes. simpl.
  by rewrite (compressed_dom _ _ _ Hc).
Qed.

Lemma classOf_ext uf uf' r :
  nodes uf' = nodes uf → (∀ y, findRoot uf' y = findRoot uf y) → classOf uf' r = classOf uf r.
Proof.
  intros Hn Hr. unfold classOf. rewrite Hn. apply set_eq. intros y.
  rewrite !elem_of_filter. by rewrite Hr.
Qed.

Lemma find_sized uf x r uf' : sized uf → find uf x = Some (r, uf') → sized uf'.
Proof.
  intros [H Hs] F. destruct (find_spec _ _ _ _ H F) as (_ & H' & S' & _).
  destruct (find_sameRoots _ _ _ _ H F) as (_ & _ & R).
  split; [done|]. intros s Hs0 Hroot. rewrite S'.
  rewrite (classOf_ext uf uf' s (find_nodes _ _ _ _ F) R). apply Hs; [done|].
  by rewrite <- R.
Qed.

Lemma makeUnionFind_size items x :
  size (makeUnionFind items) !! x = if decide (x ∈ items) then Some 1 else None.
Proof.
  unfold makeUnionFind.
  assert (∀ uf0, size (fold_left
    (λ uf x, {| parent := <[x := x]> (parent uf); size := <[x := 1]> (size uf) |})
    items uf0) !! x = if decide (x ∈ items) then Some 1 else size uf0 !! x) as H.
  { induction items as [|i items IH]; intros uf0.
    - cbn [fold_left]. destruct (decide (x ∈ [])) as [Hin|]; [|done].
      by apply elem_of_nil in Hin.
    - cbn [fold_left]. rewrite IH. cbn [size].
      destruct (decide (x ∈ items)) as [Hin|Hin];
        destruct (decide (x ∈ i :: items)) as [Hin'|Hin']; try done.
      + destruct Hin'. by right.
      + apply elem_of_cons in Hin' as [->|]; [|done]. by rewrite lookup_insert_eq.
      + rewrite lookup_insert_ne; [done|]. intros ->. apply Hin'. by left. }
  rewrite H. cbn [size]. rewrite lookup_empty. by case_decide.
Qed.

Lemma makeUnionFind_sized items : sized (makeUnionFind items).
Proof.
  split; [apply makeUnionFind_wf|]. intros r _ _.
  assert (classOf (makeUnionFind items) r = {[r]}) as ->.
  { apply set_eq. intros y. unfold classOf. rewrite elem_of_filter, makeUnionFind_findRoot.
    rewrite elem_of_singleton. split; [by intros [-> _]|]. intros ->. split; [done|].
    apply elem_of_union_r. by apply elem_of_singleton. }
  rewrite size_singleton. unfold sizeOr1.
  rewrite makeUnionFind_size. by case_decide.
Qed.

Lemma union_result uf a b uf' :
  wf uf → union uf a b = Some uf' →
  ∃ uf2, wf uf2 ∧ (∀ y, findRoot uf2 y = findRoot uf y) ∧ nodes uf2 = nodes uf
    ∧ size uf2 = size uf ∧
    let ra := findRoot uf a in
    let rb := findRoot uf b in
    let sa := sizeOr1 (size uf) ra in
    let sb := sizeOr1 (size uf) rb in
    uf' = if String.eqb ra rb then uf2
          else if sa <? sb
               then {| parent := <[ra := rb]> (parent uf2);
                       size := <[rb := sa + sb]> (size uf2) |}
               else {| parent := <[rb := ra]> (parent uf2);
                       size := <[ra := sa + sb]> (size uf2) |}.
Proof.
  intros H. unfold union.
  destruct (find uf a) as [[ra uf1]|] eqn:Fa; [|done].
  destruct (find_spec _ _ _ _ H Fa) as (_ & H1 & S1 & _).
  destruct (find_sameRoots _ _ _ _ H Fa) as (Ea & _ & R1).
  destruct (find uf1 b) as [[rb uf2]|] eqn:Fb; [|done].
  destruct (find_spec _ _ _ _ H1 Fb) as (_ & H2 & S2 & _).
  destruct (find_sameRoots _ _ _ _ H1 Fb) as (Eb & _ & R2).
  rewrite R1 in Eb. subst ra rb. intros E. exists uf2.
  split; [done|]. split; [intros y; by rewrite R2, R1|].
  split; [by rewrite (find_nodes _ _ _ _ Fb), (find_nodes _ _ _ _ Fa)|].
  split; [by rewrite S2, S1|]. cbn zeta. rewrite <- S1, <- S2.
  destruct (String.eqb _ _); [congruence|].
  destruct (_ <? _); congruence.
Qed.

Lemma attach_sized uf2 l w n (uf3 : UnionFind) :
  sized uf2 → l ≠ w → l ≠ "" → w ≠ "" → findRoot uf2 l = l → findRoot uf2 w = w →
  n = sizeOr1 (size uf2) l + sizeOr1 (size uf2) w →
  uf3 = {| parent := <[l := w]> (parent uf2); size := <[w := n]> (size uf2) |} →
  wf uf3 →
  (∀ y, findRoot uf3 y = if decide (findRoot uf2 y = l) then w else findRoot uf2 y) →
  sized uf3.
Proof.
  intros [H2 Hs] Hlw Hl0 Hw0 Rl Rw Hn E3 H3 Hf. split; [done|].
  assert (nodes uf3 = nodes uf2 ∪ {[l]} ∪ {[w]}) as Hnodes.
  { subst uf3. unfold nodes. simpl. rewrite !dom_insert_L. set_solver. }
  intros r Hr0 Hr3.
  assert (r ≠ l) as Hrl.
  { intros ->. rewrite Hf, Rl in Hr3. rewrite decide_True in Hr3; done. }
  destruct (decide (r = w)) as [->|Hrw].
  - assert (classOf uf3 w = classOf uf2 l ∪ classOf uf2 w) as ->.
    { apply set_eq. intros y. unfold classOf. rewrite elem_of_union, !elem_of_filter.
      rewrite Hnodes, Hf. destruct (decide (findRoot uf2 y = l)) as [Ey|Ey].
      - split; [|intros [[_ Hin]|[Ew _]]; [split; [done|set_solver] | congruence]].
        intros [_ Hin]. left. split; [done|].
        destruct (decide (y = w)) as [->|?]; [congruence|]. set_solver.
      - split; [|intros [[? _]|[Ew Hin]]; [done | split; [done|set_solver]]].
        intros [Ew Hin]. right. split; [done|].
        destruct (decide (y = l)) as [->|?]; [congruence|]. set_solver. }
    rewrite size_union.
    2:{ intros y. unfold classOf. rewrite !elem_of_filter. intros [E1 _] [E2 _]. congruence. }
    rewrite <- !Hs; [|done..]. subst uf3. simpl. rewrite sizeOr1_insert; [done|].
    pose proof (sizeOr1_pos (size uf2) l). lia.
  - assert (findRoot uf2 r = r) as Rr.
    { rewrite Hf in Hr3. destruct (decide (findRoot uf2 r = l)); congruence. }
    assert (classOf uf3 r = classOf uf2 r) as ->.
    { apply set_eq. intros y. unfold classOf. rewrite !elem_of_filter.
      rewrite Hnodes, Hf. destruct (decide (findRoot uf2 y = l)) as [Ey|Ey].
      - split; intros [? _]; congruence.
      - split; intros [Ew Hin]; (split; [done|]); [|set_solver].
        destruct (decide (y = l)) as [->|?]; [congruence|].
        destruct (decide (y = w)) as [->|?]; [congruence|]. set_solver. }
    rewrite <- Hs; [|done..]. subst uf3. simpl. by rewrite sizeOr1_insert_ne.
Qed.

Lemma union_sized uf a b uf' :
  sized uf → a ≠ "" → b ≠ "" → union uf a b = Some uf' → sized uf'.
Proof.
  intros Hs Ha Hb E. pose proof Hs as [H Hsz].
  destruct (union_result _ _ _ _ H E) as (uf2 & H2 & R2 & N2 & S2 & Eq').
  cbn zeta in Eq'.
  assert (sized uf2) as Hs2.
  { split; [done|]. intros r Hr0 Hr. rewrite S2, (classOf_ext uf uf2 r N2 R2).
    apply Hsz; [done|]. by rewrite <- R2. }
  destruct (String.eqb_spec (findRoot uf a) (findRoot uf b)) as [Heq|Hne]; [by subst|].
  pose proof (findRoot_nonempty uf a H Ha) as Na.
  pose proof (findRoot_nonempty uf b H Hb) as Nb.
  pose proof (union_wf _ _ _ _ H E) as H'.
  pose proof (union_winner _ _ _ _ H Ha Hb E Hne) as Hwin.
  destruct (union_roots _ _ _ _ H E) as (_ & w & _ & [Hm | [[?|?] _]]); [|done..].
  assert (findRoot uf' a = w) as Ew by (rewrite Hm; rewrite decide_True; auto).
  rewrite Ew in Hwin. clear Ew.
  assert (∀ x, findRoot uf2 (findRoot uf x) = findRoot uf x) as Rid.
  { intros x. rewrite R2. by apply findRoot_idem. }
  destruct (sizeOr1 (size uf) (findRoot uf a) <? sizeOr1 (size uf) (findRoot uf b)) eqn:Hlt.
  - apply (attach_sized uf2 (findRoot uf a) (findRoot uf b)
             (sizeOr1 (size uf) (findRoot uf a) + sizeOr1 (size uf) (findRoot uf b))
             uf' Hs2); try done.
    + by rewrite S2.
    + intros y. rewrite Hm, R2, Hwin.
      destruct (decide (findRoot uf y = findRoot uf a)),
        (decide (findRoot uf y = findRoot uf a ∨ findRoot uf y = findRoot uf b));
        intuition congruence.
  - apply (attach_sized uf2 (findRoot uf b) (findRoot uf a)
             (sizeOr1 (size uf) (findRoot uf a) + sizeOr1 (size uf) (findRoot uf b))
             uf' Hs2); try done.
    + rewrite S2. lia.
    + intros y. rewrite Hm, R2, Hwin.
      destruct (decide (findRoot uf y = findRoot uf b)),
        (decide (findRoot uf y = findRoot uf a ∨ findRoot uf y = findRoot uf b));
        intuition congruence.
Qed.

Lemma unionAll_sized pairs uf0 :
  sized uf0 → Forall (λ p, fst p ≠ "" ∧ snd p ≠ "") pairs →
  ∃ uf, unionAll pairs uf0 = Some uf ∧ sized uf.
Proof.
  intros H0 Hp. unfold unionAll.
  apply (foldM_inv sized (λ p, fst p ≠ "" ∧ snd p ≠ "")); [|done..].
  intros uf [a b] Hs [Ha Hb]. simpl in *.
  destruct (union_total uf a b (proj1 Hs)) as [uf' E]. exists uf'. split; [done|].
  by apply (union_sized uf a b).
Qed.

Lemma unionAll_total pairs uf0 : wf uf0 → ∃ uf, unionAll pairs uf0 = Some uf ∧ wf uf.
Proof.
  intros H0. unfold unionAll.
  apply (foldM_inv wf (λ _, True)); [|apply Forall_forall; done|done].
  intros uf [a b] H _. simpl. destruct (union_total uf a b H) as [uf' E].
  exists uf'. split; [done|]. by eapply union_wf.
Qed.

(** A forest for the worked cases: three items, two of them joined. *)
Definition ex_items : UnionFind := makeUnionFind ["a"; "b"; "c"].

Definition ex_joined : UnionFind := default ex_items (union ex_items "a" "b").

Lemma ex_joined_union : union ex_items "a" "b" = Some ex_joined.
Proof.
  unfold ex_joined. destruct (union ex_items "a" "b") as [uf|] eqn:E; [done|].
  by vm_compute in E.
Qed.

Lemma ex_joined_wf : wf ex_joined.
Proof. exact (union_wf _ _ _ _ (makeUnionFind_wf _) ex_joined_union). Qed.

(** X1. On a well-formed forest [find] returns: the root it answers is
    its own root, the sizes are untouched and every string keeps its root,
    so path compression changes no class; and after the call the entry of
    the argument is that root, unless the argument is the root. *)
Theorem X1_find_compresses uf x :
  wf uf →
  ∃ r uf', find uf x = Some (r, uf')
    ∧ wf uf' ∧ size uf' = size uf
    ∧ (∀ y, findRoot uf' y = findRoot uf y)
    ∧ findRoot uf' r = r
    ∧ (x = r ∨ parent uf' !! x = Some r).
Proof.
  intros H. destruct (find_total uf x H) as (r & uf' & E). exists r, uf'.
  destruct (find_spec _ _ _ _ H E) as (_ & H' & S' & _).
  destruct (find_sameRoots _ _ _ _ H E) as (Er & _ & R).
  split; [done|]. split; [done|]. split; [done|]. split; [done|]. split.
  - rewrite R, Er. by apply findRoot_idem.
  - destruct (find_entry _ _ _ _ E) as [[? _]|?]; auto.
Qed.

Lemma X1_find_compresses_witness :
  ∃ r uf', find ex_joined "b" = Some (r, uf')
    ∧ wf uf' ∧ size uf' = size ex_joined
    ∧ (∀ y, findRoot uf' y = findRoot ex_joined y)
    ∧ findRoot uf' r = r
    ∧ ("b" = r ∨ parent uf' !! "b" = Some r).
Proof. apply (X1_find_compresses ex_joined "b"). exact ex_joined_wf. Defined.

(** X2. On a well-formed forest [union] of two non-empty strings
    returns, and afterwards two strings have the same root exactly when
    they had before or one was with the first argument and the other with
    the second. When the arguments were in different classes the root of
    the merged class is the root of the class recorded as larger, and that
    of the first argument when the sizes are equal. *)
Theorem X2_union_merges uf a b :
  wf uf → a ≠ "" → b ≠ "" →
  ∃ uf', union uf a b = Some uf' ∧ wf uf'
    ∧ (∀ x y, findRoot uf' x = findRoot uf' y ↔
         findRoot uf x = findRoot uf y
         ∨ (findRoot uf x = findRoot uf a ∧ findRoot uf y = findRoot uf b)
         ∨ (findRoot uf x = findRoot uf b ∧ findRoot uf y = findRoot uf a))
    ∧ (findRoot uf a ≠ findRoot uf b →
       findRoot uf' a =
       if sizeOr1 (size uf) (findRoot uf a) <? sizeOr1 (size uf) (findRoot uf b)
       then findRoot uf b else findRoot uf a).
Proof.
  intros H Ha Hb. destruct (union_total uf a b H) as [uf' E]. exists uf'.
  split; [done|]. split; [by eapply union_wf|]. split.
  - intros x y. by apply union_same.
  - by apply union_winner.
Qed.

Lemma X2_union_merges_witness :
  ∃ uf', union ex_joined "c" "b" = Some uf' ∧ wf uf'
    ∧ (∀ x y, findRoot uf' x = findRoot uf' y ↔
         findRoot ex_joined x = findRoot ex_joined y
         ∨ (findRoot ex_joined x = findRoot ex_joined "c"
            ∧ findRoot ex_joined y = findRoot ex_joined "b")
         ∨ (findRoot ex_joined x = findRoot ex_joined "b"
            ∧ findRoot ex_joined y = findRoot ex_joined "c"))
    ∧ (findRoot ex_joined "c" ≠ findRoot ex_joined "b" →
       findRoot uf' "c" =
       if sizeOr1 (size ex_joined) (findRoot ex_joined "c")
          <? sizeOr1 (size ex_joined) (findRoot ex_joined "b")
       then findRoot ex_joined "b" else findRoot ex_joined "c").
Proof.
  apply (X2_union_merges ex_joined "c" "b"); [exact ex_joined_wf | done | done].
Defined.

(** X3. After any sequence of unions of non-empty strings on a fresh
    structure, the size recorded for a non-empty root, read as the source
    reads it, is the number of strings in its class: the strings that have
    an entry and, if it has none, the root itself. *)
Theorem X3_sizes_count_classes items pairs :
  Forall (λ p, fst p ≠ "" ∧ snd p ≠ "") pairs →
  ∃ uf, unionAll pairs (makeUnionFind items) = Some uf
    ∧ ∀ r, r ≠ "" → findRoot uf r = r →
        sizeOr1 (size uf) r = base.size (classOf uf r).
Proof.
  intros Hp.
  destruct (unionAll_sized pairs _ (makeUnionFind_sized items) Hp) as (uf & E & _ & Hs).
  by exists uf.
Qed.

Lemma X3_sizes_count_classes_witness :
  ∃ uf, unionAll [("a", "b"); ("x", "a")] (makeUnionFind ["a"; "b"; "c"]) = Some uf
    ∧ ∀ r, r ≠ "" → findRoot uf r = r →
        sizeOr1 (size uf) r = base.size (classOf uf r).
Proof.
  apply (X3_sizes_count_classes ["a"; "b"; "c"] [("a", "b"); ("x", "a")]).
  repeat constructor; done.
Defined.

(** X4. A sequence of unions of non-empty strings on a well-formed
    forest returns, and afterwards two strings have the same root exactly
    when a chain of the united pairs and of the classes of the start leads
    from one to the other. So the classes do not depend on the order of
    the unions. *)
Theorem X4_unions_closure pairs pairs' uf0 :
  wf uf0 → Forall (λ p, fst p ≠ "" ∧ snd p ≠ "") pairs → pairs ≡ₚ pairs' →
  ∃ uf uf', unionAll pairs uf0 = Some uf ∧ unionAll pairs' uf0 = Some uf'
    ∧ (∀ x y, findRoot uf x = findRoot uf y ↔ chained uf0 pairs x y)
    ∧ (∀ x y, findRoot uf x = findRoot uf y ↔ findRoot uf' x = findRoot uf' y).
Proof.
  intros H0 Hp Hperm.
  destruct (unionAll_total pairs uf0 H0) as (uf & E & _).
  destruct (unionAll_total pairs' uf0 H0) as (uf' & E' & _).
  exists uf, uf'. split; [done|]. split; [done|]. split.
  - by destruct (unionAll_connected pairs uf0 uf H0 Hp E).
  - by apply (unionAll_order pairs pairs' uf0).
Qed.

Lemma X4_unions_closure_witness :
  ∃ uf uf',
    unionAll [("a", "b"); ("c", "d"); ("b", "c")] (makeUnionFind ["a"; "b"; "c"; "d"]) = Some uf
    ∧ unionAll [("b", "c"); ("c", "d"); ("a", "b")] (makeUnionFind ["a"; "b"; "c"; "d"])
      = Some uf'
    ∧ (∀ x y, findRoot uf x = findRoot uf y ↔
         chained (makeUnionFind ["a"; "b"; "c"; "d"]) [("a", "b"); ("c", "d"); ("b", "c")] x y)
    ∧ (∀ x y, findRoot uf x = findRoot uf y ↔ findRoot uf' x = findRoot uf' y).
Proof.
  apply (X4_unions_closure [("a", "b"); ("c", "d"); ("b", "c")]
           [("b", "c"); ("c", "d"); ("a", "b")] (makeUnionFind ["a"; "b"; "c"; "d"])).
  - apply makeUnionFind_wf.
  - repeat constructor; done.
  - apply (reverse_Permutation [("b", "c"); ("c", "d"); ("a", "b")]).
Defined.

(** ** Lower case and the address shape *)

Lemma lower_char_idem c : Str.lower_char (Str.lower_char c) = Str.lower_char c.
Proof. by destruct c as [[] [] [] [] [] [] [] []]. Qed.

Lemma lower_char_hex c : Str.is_hex c = true → Str.is_hex (Str.lower_char c) = true.
Proof. by destruct c as [[] [] [] [] [] [] [] []]. Qed.

Lemma toLowerCase_idem s : Str.toLowerCase (Str.toLowerCase s) = Str.toLowerCase s.
Proof. induction s as [|c s IH]; [done|]. simpl. by rewrite lower_char_idem, IH. Qed.

Lemma toLowerCase_length s : String.length (Str.toLowerCase s) = String.length s.
Proof. induction s as [|c s IH]; [done|]. simpl. by rewrite IH. Qed.

Lemma toLowerCase_app s t :
  Str.toLowerCase (s ++ t) = Str.toLowerCase s ++ Str.toLowerCase t.
Proof. induction s as [|c s IH]; [done|]. simpl. by rewrite IH. Qed.

Lemma toLowerCase_hex s :
  Str.all Str.is_hex s = true → Str.all Str.is_hex (Str.toLowerCase s) = true.
Proof.
  induction s as [|c s IH]; [done|]. simpl. intros [Hc Hs]%andb_true_iff.
  by rewrite lower_char_hex, IH.
Qed.

Lemma looksLikeEvmAddress_shape x :
  looksLikeEvmAddress x = true ↔
  ∃ r, x = "0x" ++ r ∧ String.length r = 40 ∧ Str.all Str.is_hex r = true.
Proof.
  split.
  - destruct x as [|c0 x]; [done|]. destruct x as [|c1 r].
    { by destruct c0 as [[] [] [] [] [] [] [] []]. }
    destruct c0 as [[] [] [] [] [] [] [] []]; try done.
    destruct c1 as [[] [] [] [] [] [] [] []]; try done.
    simpl. intros [Hl Hh]%andb_true_iff. exists r. by apply Nat.eqb_eq in Hl.
  - intros (r & -> & Hl & Hh).
    change ((String.length r =? 40) && Str.all Str.is_hex r = true). by rewrite Hl, Hh.
Qed.

Lemma looksLikeEvmAddress_lower x :
  looksLikeEvmAddress x = true → looksLikeEvmAddress (Str.toLowerCase x) = true.
Proof.
  intros (r & -> & Hl & Hh)%looksLikeEvmAddress_shape. apply looksLikeEvmAddress_shape.
  exists (Str.toLowerCase r). split; [done|]. split; [by rewrite toLowerCase_length|].
  by apply toLowerCase_hex.
Qed.

(** ** The scan for addresses *)

Lemma take_while_n_spec f n s h t :
  Str.take_while_n f n s = Some (h, t) →
  s = h ++ t ∧ String.length h = n ∧ Str.all f h = true.
Proof.
  revert s h t. induction n as [|n IH]; intros s h t; simpl.
  - by intros [= <- <-].
  - destruct s as [|c r]; [done|]. destruct (f c) eqn:Fc; [|done].
    destruct (Str.take_while_n f n r) as [[h' t']|] eqn:E; [|done].
    intros [= <- <-]. destruct (IH _ _ _ E) as (-> & <- & Hh). simpl. by rewrite Fc, Hh.
Qed.

Lemma take_while_n_None f n s :
  Str.take_while_n f n s = None → (String.length s =? n) && Str.all f s = false.
Proof.
  revert s. induction n as [|n IH]; intros s; simpl; [done|].
  destruct s as [|c r]; [done|]. simpl. destruct (f c) eqn:Fc; [|by rewrite andb_false_r].
  destruct (Str.take_while_n f n r) as [[h' t']|] eqn:E; [done|]. intros _. by apply IH.
Qed.

Lemma string_all_app f s t : Str.all f (s ++ t) = Str.all f s && Str.all f t.
Proof. induction s as [|c s IH]; [done|]. simpl. by rewrite IH, andb_assoc. Qed.

Lemma append_cons c s t : String c s ++ t = String c (s ++ t).
Proof. reflexivity. Qed.

Lemma string_length_app s t : String.length (s ++ t) = String.length s + String.length t.
Proof. induction s as [|c s IH]; [done|]. rewrite append_cons. simpl. by rewrite IH. Qed.

Lemma append_empty_r s : s ++ "" = s.
Proof. induction s as [|c s IH]; [done|]. by rewrite append_cons, IH. Qed.

Lemma evm_match_here_address s m :
  evm_match_here s = Some m → looksLikeEvmAddress m = true.
Proof.
  destruct s as [|c0 s]; [done|]. destruct s as [|c1 r].
  { by destruct c0 as [[] [] [] [] [] [] [] []]. }
  destruct c0 as [[] [] [] [] [] [] [] []]; try done.
  destruct c1 as [[] [] [] [] [] [] [] []]; try done.
  change (match Str.take_while_n Str.is_hex 40 r with
          | Some (h, "") => Some ("0x" ++ h)
          | Some (h, String c _) => if Str.is_word c then None else Some ("0x" ++ h)
          | None => None
          end = Some m → looksLikeEvmAddress m = true).
  destruct (Str.take_while_n Str.is_hex 40 r) as [[h t]|] eqn:E; [|done].
  destruct (take_while_n_spec _ _ _ _ _ E) as (_ & Hl & Hh).
  assert (looksLikeEvmAddress ("0x" ++ h) = true) as Hm.
  { apply looksLikeEvmAddress_shape. by exists h. }
  destruct t as [|c t]; [by intros [= <-]|]. destruct (Str.is_word c); [done|]. by intros [= <-].
Qed.

Lemma evm_scan_addresses pw s w :
  In w (evm_scan pw s) → looksLikeEvmAddress w = true ∧ Str.toLowerCase w = w.
Proof.
  revert pw w. induction s as [|c r IH]; intros pw w; [done|].
  cbn [evm_scan].
  destruct (if pw then None else evm_match_here (String c r)) as [m|] eqn:E; [|apply IH].
  intros [<-|Hin]; [|by eapply IH]. destruct pw; [done|].
  split; [|apply toLowerCase_idem].
  by apply looksLikeEvmAddress_lower, (evm_match_here_address (String c r) m).
Qed.

(** In a run of word characters only the whole run can be a match. *)
Lemma evm_scan_inside s : Str.all Str.is_word s = true → evm_scan true s = [].
Proof.
  induction s as [|c r IH]; [done|]. simpl. intros [Hc Hr]%andb_true_iff.
  rewrite Hc. by apply IH.
Qed.

Lemma hex_word c : Str.is_hex c = true → Str.is_word c = true.
Proof. by destruct c as [[] [] [] [] [] [] [] []]. Qed.

Lemma evm_match_here_run s :
  Str.all Str.is_word s = true →
  evm_match_here s = if looksLikeEvmAddress s then Some s else None.
Proof.
  destruct s as [|c0 s]; [done|]. destruct s as [|c1 r].
  { by destruct c0 as [[] [] [] [] [] [] [] []]. }
  destruct c0 as [[] [] [] [] [] [] [] []]; try done;
    destruct c1 as [[] [] [] [] [] [] [] []]; try done.
  change (Str.all Str.is_word r = true →
          match Str.take_while_n Str.is_hex 40 r with
          | Some (h, "") => Some ("0x" ++ h)
          | Some (h, String c _) => if Str.is_word c then None else Some ("0x" ++ h)
          | None => None
          end = if (String.length r =? 40) && Str.all Str.is_hex r
                then Some ("0x" ++ r) else None).
  intros Hw.
  destruct (Str.take_while_n Str.is_hex 40 r) as [[h t]|] eqn:E.
  - destruct (take_while_n_spec _ _ _ _ _ E) as (-> & Hl & Hh).
    destruct t as [|c t].
    + rewrite append_empty_r, Hl, Hh. done.
    + rewrite string_all_app in Hw. apply andb_true_iff in Hw as [_ Hw]. simpl in Hw.
      apply andb_true_iff in Hw as [-> _].
      rewrite string_length_app, Hl. simpl.
      destruct (Nat.eqb_spec (40 + S (String.length t)) 40); [lia|done].
  - by rewrite (take_while_n_None _ _ _ E).
Qed.

Lemma take_while_n_app f n r c t :
  f c = false →
  Str.take_while_n f n (r ++ String c t) =
  match Str.take_while_n f n r with
  | Some (h, rest) => Some (h, rest ++ String c t)
  | None => None
  end.
Proof.
  intros Fc. revert r. induction n as [|n IH]; intros r; [done|].
  destruct r as [|d r]; simpl; [by rewrite Fc|].
  destruct (f d); [|done]. rewrite IH. by destruct (Str.take_while_n f n r) as [[h rest]|].
Qed.

Lemma evm_match_here_app s c t :
  Str.is_word c = false → evm_match_here (s ++ String c t) = evm_match_here s.
Proof.
  intros Hc.
  assert (Str.is_hex c = false) as Hx.
  { destruct (Str.is_hex c) eqn:E; [|done]. apply hex_word in E. congruence. }
  destruct s as [|c0 s].
  { simpl. destruct c as [[] [] [] [] [] [] [] []]; try done. }
  destruct s as [|c1 r].
  { destruct c0 as [[] [] [] [] [] [] [] []]; try done.
    by destruct c as [[] [] [] [] [] [] [] []]. }
  destruct c0 as [[] [] [] [] [] [] [] []]; try done;
    destruct c1 as [[] [] [] [] [] [] [] []]; try done.
  change (match Str.take_while_n Str.is_hex 40 (r ++ String c t) with
          | Some (h, "") => Some ("0x" ++ h)
          | Some (h, String c _) => if Str.is_word c then None else Some ("0x" ++ h)
          | None => None
          end =
          match Str.take_while_n Str.is_hex 40 r with
          | Some (h, "") => Some ("0x" ++ h)
          | Some (h, String c _) => if Str.is_word c then None else Some ("0x" ++ h)
          | None => None
          end).
  rewrite take_while_n_app; [|done].
  destruct (Str.take_while_n Str.is_hex 40 r) as [[h [|d rest]]|]; simpl; [|done..].
  by rewrite Hc.
Qed.

Lemma evm_scan_app pw s c t :
  Str.is_word c = false →
  evm_scan pw (s ++ String c t) = (evm_scan pw s ++ evm_scan false t)%list.
Proof.
  intros Hc. revert pw. induction s as [|d s IH]; intros pw.
  - change (evm_scan pw (String c t) = evm_scan false t). cbn [evm_scan].
    rewrite Hc.
    assert (evm_match_here (String c t) = None) as ->; [|by destruct pw].
    exact (evm_match_here_app "" c t Hc).
  - change (evm_scan pw (String d (s ++ String c t)) =
            (evm_scan pw (String d s) ++ evm_scan false t)%list).
    cbn [evm_scan].
    change (String d (s ++ String c t)) with (String d s ++ String c t).
    rewrite evm_match_here_app; [|done]. rewrite IH.
    by destruct (if pw then None else evm_match_here (String d s)).
Qed.

Lemma extract_joined links :
  extractEvmAddressesFromText (Str.join (String "010" "") links)
  = flat_map extractEvmAddressesFromText links.
Proof.
  unfold extractEvmAddressesFromText.
  induction links as [|p ps IH]; [done|].
  destruct ps as [|q ps].
  - simpl. by rewrite app_nil_r.
  - change (Str.join (String "010" "") (p :: q :: ps))
      with (p ++ String "010" (Str.join (String "010" "") (q :: ps))).
    rewrite evm_scan_app; [|done]. by rewrite IH.
Qed.

(** X5. Every string [extractEvmAddressesFromText] returns has the shape
    of an address, which makes it 42 characters long, and is in lower
    case. *)
Theorem X5_extracted_addresses text w :
  In w (extractEvmAddressesFromText text) →
  looksLikeEvmAddress w = true ∧ String.length w = 42 ∧ Str.toLowerCase w = w.
Proof.
  intros Hin. apply evm_scan_addresses in Hin as [Ha Hl]. split; [done|]. split; [|done].
  apply looksLikeEvmAddress_shape in Ha as (r & -> & Hr & _).
  rewrite string_length_app, Hr. done.
Qed.

Lemma X5_extracted_addresses_witness :
  looksLikeEvmAddress addr_lower = true ∧ String.length addr_lower = 42
  ∧ Str.toLowerCase addr_lower = addr_lower.
Proof.
  apply (X5_extracted_addresses ("send to " ++ addr_upper ++ ", thanks")).
  vm_compute. left. reflexivity.
Defined.

(** X6. On a text made of word characters only (letters, digits and the
    underscore) [extractEvmAddressesFromText] returns the text in lower
    case when the whole text is an address and nothing otherwise: an
    address that is part of a longer run of word characters is not
    found. *)
Theorem X6_extract_word_run s :
  Str.all Str.is_word s = true →
  extractEvmAddressesFromText s
  = if looksLikeEvmAddress s then [Str.toLowerCase s] else [].
Proof.
  intros Hw. unfold extractEvmAddressesFromText.
  destruct s as [|c r]; [done|]. cbn [evm_scan].
  rewrite (evm_match_here_run _ Hw).
  simpl in Hw. apply andb_true_iff in Hw as [Hc Hr]. rewrite Hc.
  rewrite (evm_scan_inside _ Hr). by destruct (looksLikeEvmAddress (String c r)).
Qed.

Lemma X6_extract_word_run_witness :
  extractEvmAddressesFromText (addr_upper ++ "0")
  = if looksLikeEvmAddress (addr_upper ++ "0")
    then [Str.toLowerCase (addr_upper ++ "0")] else [].
Proof. apply (X6_extract_word_run (addr_upper ++ "0")). reflexivity. Defined.

(** X7. Extraction from two texts joined by a character that is not a
    word character gives the addresses of the first followed by those of
    the second; so from [links.join('\n')] it gives the addresses of each
    link, link by link. *)
Theorem X7_extract_joined_lines :
  (∀ s c t, Str.is_word c = false →
     extractEvmAddressesFromText (s ++ String c t)
     = (extractEvmAddressesFromText s ++ extractEvmAddressesFromText t)%list)
  ∧ (∀ links,
       extractEvmAddressesFromText (Str.join (String "010" "") links)
       = flat_map extractEvmAddressesFromText links).
Proof.
  split; [|apply extract_joined].
  intros s c t Hc. by apply evm_scan_app.
Qed.

Lemma X7_extract_joined_lines_witness :
  extractEvmAddressesFromText (addr_upper ++ String " " wallet_1)
  = (extractEvmAddressesFromText addr_upper ++ extractEvmAddressesFromText wallet_1)%list.
Proof. apply (proj1 X7_extract_joined_lines). reflexivity. Defined.

(** X8. [extractDomains] returns at most one domain per link, in lower
    case, and works link by link: the domains of two lists of links one
    after the other are the domains of the first followed by those of the
    second. *)
Theorem X8_extractDomains (h : string → option string) :
  (∀ links d, In d (extractDomains h links) → Str.toLowerCase d = d)
  ∧ (∀ links, length (extractDomains h links) ≤ length links)
  ∧ (∀ links links',
       extractDomains h (links ++ links') = (extractDomains h links ++ extractDomains h links')%list).
Proof.
  split; [|split].
  - induction links as [|l ls IH]; intros d; simpl; [done|].
    destruct (h l) as [host|]; [|apply IH].
    intros [<-|Hin]; [apply toLowerCase_idem | by apply IH].
  - induction links as [|l ls IH]; simpl; [done|].
    destruct (h l); simpl; lia.
  - induction links as [|l ls IH]; intros links'; simpl; [done|].
    destruct (h l); simpl; by rewrite IH.
Qed.

Lemma X8_extractDomains_witness : Str.toLowerCase "foo.io" = "foo.io".
Proof.
  apply (proj1 (X8_extractDomains simpleHostname) ["not a url"; "https://www.FOO.io/x"]).
  vm_compute. left. reflexivity.
Defined.

(** ** Pair keys *)

Lemma pairKey_sym a b : pairKey a b = pairKey b a.
Proof.
  unfold pairKey, String.ltb. rewrite (String.compare_antisym a b).
  destruct (String.compare b a) eqn:E; simpl; try done.
  apply String.compare_eq_iff in E. by subst.
Qed.

Definition noBar (s : string) : bool :=
  Str.all (λ c, negb (Ascii.eqb c "|")) s.

Lemma append_nil s : "" ++ s = s.
Proof. reflexivity. Qed.

Lemma sep_inj s1 s2 t1 t2 :
  noBar s1 = true → noBar t1 = true →
  s1 ++ "||" ++ s2 = t1 ++ "||" ++ t2 → s1 = t1 ∧ s2 = t2.
Proof.
  revert t1. induction s1 as [|c s1 IH]; intros [|d t1] H1 H2 E;
    rewrite ?append_cons, ?append_nil in E.
  - by injection E as ->.
  - injection E as <- _. done.
  - injection E as -> _. done.
  - injection E as -> E. simpl in H1, H2.
    apply andb_true_iff in H1 as [_ H1]. apply andb_true_iff in H2 as [_ H2].
    destruct (IH t1 H1 H2 E) as [-> ->]. done.
Qed.

Lemma pairKey_inj a b c d :
  noBar a = true → noBar b = true → noBar c = true → noBar d = true →
  pairKey a b = pairKey c d → (a = c ∧ b = d) ∨ (a = d ∧ b = c).
Proof.
  intros Ha Hb Hc Hd. unfold pairKey.
  destruct (String.ltb a b), (String.ltb c d); intros E;
    apply sep_inj in E as [-> ->]; auto.
Qed.

(** X9. The ledger key of a pair does not depend on the order of the
    two strings. Pairs of strings without a vertical bar have equal keys
    only when they are the same pair; with a bar in a string two
    different pairs can share a key. *)
Theorem X9_pair_keys a b c d :
  pairKey a b = pairKey b a
  ∧ (noBar a = true → noBar b = true → noBar c = true → noBar d = true →
     pairKey a b = pairKey c d → (a = c ∧ b = d) ∨ (a = d ∧ b = c))
  ∧ pairKey "a" "b||c" = pairKey "a||b" "c".
Proof.
  split; [apply pairKey_sym|]. split; [apply pairKey_inj|]. reflexivity.
Qed.

Lemma X9_pair_keys_witness :
  ("x:alice" = "y:alice" ∧ "y:alice" = "x:alice") ∨ ("x:alice" = "x:alice" ∧ "y:alice" = "y:alice").
Proof.
  apply (proj1 (proj2 (X9_pair_keys "x:alice" "y:alice" "y:alice" "x:alice"))); reflexivity.
Defined.

(** ** Groups and components *)

Lemma groupsFrom_of ev id comps ms :
  In ms comps → ∃ id', In (groupOf ev id' ms) (groupsFrom ev id comps).
Proof.
  revert id. induction comps as [|c comps IH]; intros id; [done|].
  intros [->|Hin]; simpl.
  - exists id. by left.
  - destruct (IH (S id) Hin) as [id' H]. exists id'. by right.
Qed.

(** A returned group is the sorted component of each of its members. *)
Lemma group_component h i out g m :
  computeControllerGroups h i = Some out → In g (groups out) → In m (members g) →
  let key := findRoot (forestOf h i) in
  In m (actors i)
  ∧ members g = sortBy String.compare (membersOf key (actors i) (key m))
  ∧ survives i (membersOf key (actors i) (key m)) = true
  ∧ score g = computeScore (length (members g)) (collectReasons (ledgerOf h i) (members g))
  ∧ evidence g = take 8 (collectReasons (ledgerOf h i) (members g)).
Proof.
  intros Hout Hg Hm key. destruct (resolver_shape h i out Hout) as (Hgs & _).
  rewrite Hgs in Hg. apply sortBy_In in Hg.
  apply groupsBeforeSort_In in Hg as (r & Em & Hs & Hsc & Hev).
  pose proof Hm as Hm'. rewrite Em in Hm'. apply sortBy_In in Hm'.
  apply membersOf_In in Hm' as [Ha Hr]. fold key in Hr. subst r. done.
Qed.

(** A component that passes the size test is returned as a group. *)
Lemma component_group h i out a :
  computeControllerGroups h i = Some out → In a (actors i) →
  let key := findRoot (forestOf h i) in
  survives i (membersOf key (actors i) (key a)) = true →
  ∃ g, In g (groups out)
     ∧ members g = sortBy String.compare (membersOf key (actors i) (key a))
     ∧ score g = computeScore (length (members g)) (collectReasons (ledgerOf h i) (members g))
     ∧ evidence g = take 8 (collectReasons (ledgerOf h i) (members g)).
Proof.
  intros Hout Ha key Hs. destruct (resolver_shape h i out Hout) as (Hgs & _).
  set (comp := membersOf key (actors i) (key a)) in *.
  assert (In a comp) as Hin by (by apply membersOf_In).
  destruct (groupByKey_spec key (actors i)) as [_ Hget].
  specialize (Hget (key a)). fold comp in Hget.
  assert (mapGet (key a) (groupByKey key (actors i)) = Some comp) as Hg.
  { rewrite Hget. by destruct comp. }
  apply mapGet_In in Hg.
  assert (In comp (survivors i (groupByKey key (actors i)))) as Hsv.
  { apply filter_In. split; [|done]. apply in_map_iff. by exists (key a, comp). }
  destruct (groupsFrom_of (ledgerOf h i) 0 _ _ Hsv) as [id Hid].
  exists (groupOf (ledgerOf h i) id comp). split; [|done].
  rewrite Hgs. by apply sortBy_In.
Qed.

Lemma absent_from_groups h i out a :
  computeControllerGroups h i = Some out →
  (∀ g, In g (groups out) → ¬ In a (members g)) →
  mapGet a (controllerIdByActor out) = None.
Proof.
  intros Hout Hno. destruct (resolver_shape h i out Hout) as (Hgs & [I1 _]).
  destruct (mapGet a (controllerIdByActor out)) as [id|] eqn:E; [|done].
  destruct (I1 _ _ E) as (g & Hg & Hin & _). destruct (Hno g); [|done].
  rewrite Hgs. by apply sortBy_In.
Qed.

Lemma groups_by_id h i out g g' :
  computeControllerGroups h i = Some out → In g (groups out) → In g' (groups out) →
  controllerId g = controllerId g' → g = g'.
Proof.
  intros Hout Hg Hg' Eid. destruct (resolver_shape h i out Hout) as (Hgs & _).
  rewrite Hgs in Hg, Hg'. apply sortBy_In in Hg, Hg'.
  unfold groupsBeforeSort in *.
  set (comps := survivors i (groupByKey (findRoot (forestOf h i)) (actors i))) in *.
  assert (NoDup (map controllerId (groupsFrom (ledgerOf h i) 0 comps))) as Hnd.
  { rewrite groupsFrom_ids. apply NoDup_ListNoDup, seq_NoDup. }
  revert Hg Hg' Hnd. generalize (groupsFrom (ledgerOf h i) 0 comps). intros l.
  induction l as [|x l IH]; [done|]. simpl. rewrite NoDup_cons.
  intros [->|Hg] [->|Hg'] [Hx Hl]; auto.
  - destruct Hx. rewrite Eid. apply list_elem_of_In, in_map_iff. eauto.
  - destruct Hx. rewrite <- Eid. apply list_elem_of_In, in_map_iff. eauto.
Qed.

(** ** The six passes as a list *)

Record Pass := {
  pass_body : list string → string → PassState → option PassState;
  pass_map : list (string * list string);
  pass_min : nat;
  pass_label : string;
}.

(** The passes in the order in which the source runs them. *)
Definition passesOf (h : string → option string) (i : Input) : list Pass :=
  [ {| pass_body := linkBody; pass_map := linkToActors i;
       pass_min := 2; pass_label := "Shared link: " |};
    {| pass_body := domainBody; pass_map := domainToActors h i;
       pass_min := 3; pass_label := "Shared domain: " |};
    {| pass_body := stemBody; pass_map := stemToActors i;
       pass_min := 4; pass_label := "Shared handle stem: " |};
    {| pass_body := baseBody; pass_map := baseHandleToActors i;
       pass_min := 2; pass_label := "Same handle across platforms: " |};
    {| pass_body := walletBody; pass_map := walletToActors i;
       pass_min := 2; pass_label := "Shared wallet: " |};
    {| pass_body := funderBody; pass_map := funderToWallets i;
       pass_min := 2; pass_label := "Common funder: " |} ].

Definition runPass (st : PassState) (p : Pass) : option PassState :=
  forEachEntry (pass_body p) (pass_map p) st.

Lemma passesOf_run h i :
  foldM runPass (passesOf h i) (makeUnionFind (actors i), ∅) = Some (passState h i).
Proof.
  rewrite <- runPasses_passState. unfold runPasses, runActorPasses, runPass. simpl.
  destruct (forEachEntry linkBody _ _) as [s1|]; [|done]. simpl.
  destruct (forEachEntry domainBody _ _) as [s2|]; [|done]. simpl.
  destruct (forEachEntry stemBody _ _) as [s3|]; [|done]. simpl.
  destruct (forEachEntry baseBody _ _) as [s4|]; [|done]. simpl.
  destruct (forEachEntry walletBody _ _) as [s5|]; [|done]. simpl.
  by destruct (forEachEntry funderBody _ _).
Qed.

Lemma passesOf_body h i p :
  In p (passesOf h i) →
  ∀ set k st,
    pass_body p set k st =
    if length set <? pass_min p then Some st
    else connectMany set (pass_label p ++ k) st.
Proof.
  intros Hin set k st. simpl in Hin.
  destruct Hin as [<-|[<-|[<-|[<-|[<-|[<-|[]]]]]]]; reflexivity.
Qed.

Lemma passesOf_connect h i p : In p (passesOf h i) → connectBody (pass_body p).
Proof.
  intros Hin set k st. rewrite (passesOf_body h i p Hin). destruct (_ <? _); eauto.
Qed.

Lemma passes_stage ps s0 sN p :
  (∀ q, In q ps → connectBody (pass_body q)) → wf (fst s0) →
  foldM runPass ps s0 = Some sN → In p ps →
  ∃ st st', extends s0 st ∧ runPass st p = Some st' ∧ extends st' sN.
Proof.
  intros Hb H E Hin. apply in_split in Hin as (l1 & l2 & ->).
  assert (∀ l s s', (∀ q, In q l → connectBody (pass_body q)) → wf (fst s) →
            foldM runPass l s = Some s' → extends s s') as Hext.
  { induction l as [|q l IH]; intros s s' Hq Hs; simpl.
    - intros [= <-]. by apply extends_refl.
    - destruct (runPass s q) as [s1|] eqn:E1; [|done]. intros E'.
      pose proof (forEachEntry_extends _ _ _ _ (Hq q (or_introl eq_refl)) Hs E1) as X1.
      eapply extends_trans; [exact X1|]. apply IH; [|by destruct X1|done].
      intros q' Hq'. apply Hq. by right. }
  rewrite foldM_app in E. destruct (foldM runPass l1 s0) as [st|] eqn:E1; [|done].
  simpl in E. destruct (runPass st p) as [st'|] eqn:E2; [|done].
  assert (extends s0 st) as X1.
  { apply (Hext l1); [|done..]. intros q Hq. apply Hb, in_or_app. by left. }
  assert (connectBody (pass_body p)) as Hp.
  { apply Hb, in_or_app. right. by left. }
  pose proof (forEachEntry_extends _ _ _ _ Hp (proj1 X1) E2) as X2.
  exists st, st'. split; [done|]. split; [done|].
  apply (Hext l2); [|by destruct X2|done]. intros q Hq. apply Hb, in_or_app. right. by right.
Qed.

(** The members of a set that reaches the threshold of its pass have one
    root at the end. *)
Lemma pass_joins h i p k set a b :
  In p (passesOf h i) → In (k, set) (pass_map p) → pass_min p ≤ length set →
  ¬ In "" set → In a set → In b set →
  findRoot (forestOf h i) a = findRoot (forestOf h i) b.
Proof.
  intros Hp Hk Ht Hne Ha Hb.
  destruct (passes_stage (passesOf h i) (makeUnionFind (actors i), ∅) (passState h i) p
              (passesOf_connect h i) (makeUnionFind_wf (actors i))
              (passesOf_run h i) Hp) as (st & st' & X0 & E & X1).
  unfold runPass in E.
  destruct (forEachEntry_entry _ _ _ _ _ _ (passesOf_connect h i p Hp) (proj1 X0) E Hk)
    as (st1 & st2 & X2 & E2 & X3).
  rewrite (passesOf_body h i p Hp) in E2.
  assert (2 ≤ pass_min p) as Hmin.
  { simpl in Hp. destruct Hp as [<-|[<-|[<-|[<-|[<-|[<-|[]]]]]]]; simpl; lia. }
  destruct (Nat.ltb_spec (length set) (pass_min p)) as [?|_]; [lia|].
  destruct (connectMany_spec _ _ _ _ (proj1 X2) E2) as (_ & Hs).
  destruct Hs as [_ Hj]; [lia|].
  apply X1, X3. by apply Hj.
Qed.

Lemma passesOf_distinct h i p : In p (passesOf h i) → distinctSets (pass_map p).
Proof.
  simpl. intros [<-|[<-|[<-|[<-|[<-|[<-|[]]]]]]]; simpl.
  - apply linkToActors_distinct.
  - apply domainToActors_distinct.
  - apply stemToActors_distinct.
  - apply baseHandleToActors_distinct.
  - apply walletToActors_distinct.
  - apply funderToWallets_distinct.
Qed.

(** The sets of four passes hold actors only; those of the stem pass
    hold keys of [handleStemByActor] and those of the funder pass keys of
    [sharedFundersByWallet]. *)
Lemma passesOf_actors h i p k set a :
  In p (passesOf h i) → In (k, set) (pass_map p) → In a set →
  pass_label p ≠ "Shared handle stem: " → pass_label p ≠ "Common funder: " →
  In a (actors i).
Proof.
  simpl. intros [<-|[<-|[<-|[<-|[<-|[<-|[]]]]]]]; simpl; intros Hk Ha H1 H2; try done.
  - by apply (linkToActors_ok i k set Hk).
  - by apply (domainToActors_ok h i k set Hk).
  - by apply (baseHandleToActors_ok i k set Hk).
  - by apply (walletToActors_ok i k set Hk).
Qed.

Lemma survives_length i ms :
  survives i ms = true ↔ (Z.max 2 (minGroupSize i) ≤ Z.of_nat (length ms))%Z.
Proof. unfold survives. rewrite negb_true_iff, Z.ltb_ge. done. Qed.

Lemma shared_key_group h i out p k set :
  computeControllerGroups h i = Some out →
  In p (passesOf h i) → In (k, set) (pass_map p) →
  pass_min p ≤ length set → (minGroupSize i ≤ Z.of_nat (length set))%Z →
  ¬ In "" set → (∀ a, In a set → In a (actors i)) →
  ∃ g, In g (groups out) ∧ ∀ a, In a set → In a (members g).
Proof.
  intros Hout Hp Hk Ht Hmin Hne Hact.
  assert (2 ≤ pass_min p) as H2.
  { simpl in Hp. destruct Hp as [<-|[<-|[<-|[<-|[<-|[<-|[]]]]]]]; simpl; lia. }
  destruct set as [|a0 rest] eqn:Eset; [simpl in Ht; lia|]. rewrite <- Eset in *.
  assert (In a0 set) as Ha0 by (rewrite Eset; by left).
  set (key := findRoot (forestOf h i)).
  set (comp := membersOf key (actors i) (key a0)).
  assert (∀ a, In a set → In a comp) as Hin.
  { intros a Ha. apply membersOf_In. split; [by apply Hact|].
    by apply (pass_joins h i p k set). }
  assert (length set ≤ length comp) as Hlen.
  { apply NoDup_incl_length; [|exact Hin].
    apply NoDup_ListNoDup. by apply (passesOf_distinct h i p Hp k). }
  destruct (component_group h i out a0 Hout (Hact a0 Ha0)) as (g & Hg & Hm & _).
  { apply survives_length. fold key comp. lia. }
  exists g. split; [done|]. intros a Ha. rewrite Hm. apply sortBy_In. by apply Hin.
Qed.

(** ** Strings that take part in no union *)

Lemma passes_inv (P : UnionFind → Prop) (M : string → Prop) ps s0 :
  (∀ uf, P uf → wf uf) →
  (∀ uf a b uf', P uf → M a → M b → union uf a b = Some uf' → P uf') →
  (∀ p, In p ps → ∀ set k st,
     pass_body p set k st =
     if length set <? pass_min p then Some st
     else connectMany set (pass_label p ++ k) st) →
  (∀ p k set, In p ps → In (k, set) (pass_map p) → pass_min p ≤ length set →
     Forall M set) →
  P (fst s0) → ∃ sN, foldM runPass ps s0 = Some sN ∧ P (fst sN).
Proof.
  intros Pwf Pun Hbody HM H0.
  apply (foldM_inv (λ st, P (fst st)) (λ p, In p ps)); [| |done].
  2:{ apply Forall_forall. intros p Hp. by apply list_elem_of_In. }
  intros st p Hst Hp. unfold runPass, forEachEntry.
  apply (foldM_inv (λ st, P (fst st))
           (λ e, pass_min p ≤ length (snd e) → Forall M (snd e))); [| |done].
  - intros s [k set] Hs Hset. simpl in *. rewrite (Hbody p Hp).
    destruct (Nat.ltb_spec (length set) (pass_min p)) as [?|Hge]; [by exists s|].
    apply (connectMany_inv P M Pwf Pun); [done | by apply Hset].
  - apply Forall_forall. intros [k set] Hin%list_elem_of_In Hge. by apply (HM p k set).
Qed.

(** The strings on which some pass calls [union]: the members of the
    sets that reach the threshold of their pass. *)
Definition united (h : string → option string) (i : Input) (x : string) : bool :=
  existsb
    (λ p, existsb (λ e, (pass_min p <=? length (snd e)) && has x (snd e)) (pass_map p))
    (passesOf h i).

Lemma has_In x l : has x l = true ↔ In x l.
Proof.
  unfold has. rewrite existsb_exists. split.
  - intros (y & Hy & E). apply String.eqb_eq in E. by subst.
  - intros H. exists x. split; [done|]. apply String.eqb_refl.
Qed.

Lemma united_spec h i x :
  united h i x = true ↔
  ∃ p k set, In p (passesOf h i) ∧ In (k, set) (pass_map p)
             ∧ pass_min p ≤ length set ∧ In x set.
Proof.
  unfold united. rewrite existsb_exists. split.
  - intros (p & Hp & He). apply existsb_exists in He as ([k set] & Hk & Hc).
    apply andb_true_iff in Hc as [Hl Hx]. apply Nat.leb_le in Hl. apply has_In in Hx.
    by exists p, k, set.
  - intros (p & k & set & Hp & Hk & Hl & Hx). exists p. split; [done|].
    apply existsb_exists. exists (k, set). split; [done|].
    apply andb_true_iff. split; [by apply Nat.leb_le | by apply has_In].
Qed.

Lemma united_apart h i :
  apart (λ x, united h i x = true) (makeUnionFind (actors i)) (forestOf h i).
Proof.
  destruct (passes_inv (apart (λ x, united h i x = true) (makeUnionFind (actors i)))
              (λ x, united h i x = true)
              (passesOf h i) (makeUnionFind (actors i), ∅)) as (sN & E & HN).
  - apply apart_wf.
  - apply apart_union.
  - apply passesOf_body.
  - intros p k set Hp Hk Ht. apply Forall_forall. intros x Hx%list_elem_of_In.
    apply united_spec. by exists p, k, set.
  - split; [apply makeUnionFind_wf|]. split; [|done].
    intros k x Kk Kx. simpl. rewrite !makeUnionFind_findRoot. by intros ->.
  - rewrite passesOf_run in E. injection E as <-. exact HN.
Qed.

(** A string on which no pass calls [union] is alone in its class. *)
Lemma not_united_alone h i a b :
  united h i a = false →
  findRoot (forestOf h i) b = findRoot (forestOf h i) a → b = a.
Proof.
  intros Ha Eb. destruct (united_apart h i) as (_ & Hk & Hx).
  destruct (united h i b) eqn:Kb.
  - destruct (Hk b a Kb); [by rewrite Ha | done].
  - rewrite (Hx b), (Hx a), !makeUnionFind_findRoot in Eb; [done|by rewrite ?Ha, ?Kb..].
Qed.

Lemma NoDup_all_equal (a : string) l : List.NoDup l → (∀ x, In x l → x = a) → length l ≤ 1.
Proof.
  intros Hnd Hall. destruct l as [|x [|y l]]; simpl; [lia..|].
  apply List.NoDup_cons_iff in Hnd as [Hx _]. destruct Hx.
  rewrite (Hall x), (Hall y); [by left|simpl; auto..].
Qed.

Lemma not_united_absent h i out a :
  computeControllerGroups h i = Some out → List.NoDup (actors i) →
  united h i a = false →
  (∀ g, In g (groups out) → ¬ In a (members g))
  ∧ mapGet a (controllerIdByActor out) = None.
Proof.
  intros Hout Hnd Ha.
  assert (∀ g, In g (groups out) → ¬ In a (members g)) as Hno.
  { intros g Hg Hin.
    destruct (group_component h i out g a Hout Hg Hin) as (_ & _ & Hs & _).
    apply survives_length in Hs.
    assert (length (membersOf (findRoot (forestOf h i)) (actors i)
                      (findRoot (forestOf h i) a)) ≤ 1); [|lia].
    apply (NoDup_all_equal a).
    - unfold membersOf. by apply List.NoDup_filter.
    - intros x Hx. apply membersOf_In in Hx as [_ Hx]. by apply (not_united_alone h i). }
  split; [done|]. by apply (absent_from_groups h i).
Qed.

(** ** Where the reasons of the ledger come from *)

Lemma foldM_keeps {A S : Type} (I : S → Prop) (f : S → A → option S) l s s' :
  (∀ s x s', In x l → I s → f s x = Some s' → I s') →
  foldM f l s = Some s' → I s → I s'.
Proof.
  revert s. induction l as [|x l IH]; intros s Hf; simpl.
  - by intros [= <-].
  - destruct (f s x) as [s1|] eqn:E; [|done]. intros E' Hs.
    apply (IH s1); [|done|].
    + intros s2 y s3 Hy. apply Hf. by right.
    + apply (Hf s x); [by left|done..].
Qed.

Lemma addEvidence_cases a b reason ev k r :
  In r (reasonsAt (addEvidence a b reason ev) k) →
  In r (reasonsAt ev k) ∨ (r = reason ∧ k = pairKey a b).
Proof.
  unfold reasonsAt, addEvidence. destruct (decide (pairKey a b = k)) as [<-|Hne].
  - rewrite lookup_insert_eq. simpl. intros [->|H]%in_setAdd; auto.
  - rewrite lookup_insert_ne; auto.
Qed.

Lemma addEvidence_other a b reason ev k :
  k ≠ pairKey a b → addEvidence a b reason ev !! k = ev !! k.
Proof. intros Hne. unfold addEvidence. by rewrite lookup_insert_ne. Qed.

(** [connectMany] writes its reason under the keys of the first member
    paired with each later member, and nothing else. *)
Lemma connectMany_ledger members reason st st' :
  connectMany members reason st = Some st' →
  (∀ k r, In r (reasonsAt (snd st') k) →
     In r (reasonsAt (snd st) k)
     ∨ (r = reason ∧ ∃ m, In m (tail members) ∧ k = pairKey (hd "" members) m))
  ∧ (∀ k, (∀ m, In m (tail members) → k ≠ pairKey (hd "" members) m) →
       snd st' !! k = snd st !! k).
Proof.
  unfold connectMany. destruct (length members <? 2).
  { intros [= <-]. split; [auto|done]. }
  destruct members as [|first rest]; [intros [= <-]; split; [auto|done]|]. simpl.
  revert st. induction rest as [|m rest IH]; intros st; simpl.
  { intros [= <-]. split; [auto|done]. }
  unfold connectStep at 1. destruct (union (fst st) first m) as [uf'|]; [|done].
  intros E. destruct (IH _ E) as [IH1 IH2]. simpl in *. split.
  - intros k r Hr. destruct (IH1 k r Hr) as [H|(-> & m' & Hm' & ->)].
    + apply addEvidence_cases in H as [H|[-> ->]]; [by left|]. right. eauto.
    + right. eauto.
  - intros k Hk. rewrite IH2; [|intros m' Hm'; apply Hk; by right].
    apply addEvidence_other, Hk. by left.
Qed.

(** A reason at a key is justified when a pass has a set that reaches
    its threshold, the reason is the label of the pass followed by the key
    of the set, and the ledger key is the pair key of two members of the
    set. *)
Definition justified (h : string → option string) (i : Input) (key r : string) : Prop :=
  ∃ p k set a b,
    In p (passesOf h i) ∧ In (k, set) (pass_map p) ∧ pass_min p ≤ length set
    ∧ r = pass_label p ++ k ∧ In a set ∧ In b set ∧ a ≠ b ∧ key = pairKey a b.

Lemma ledger_justified h i key r :
  In r (reasonsAt (ledgerOf h i) key) → justified h i key r.
Proof.
  revert key r.
  apply (foldM_keeps (λ st, ∀ key r, In r (reasonsAt (snd st) key) → justified h i key r)
           runPass (passesOf h i) (makeUnionFind (actors i), ∅) (passState h i));
    [|apply passesOf_run|done].
  intros s p s' Hp Hs E. unfold runPass, forEachEntry in E. revert E Hs.
  apply (foldM_keeps
           (λ st, ∀ key r, In r (reasonsAt (snd st) key) → justified h i key r)).
  clear s s'. intros s [k set] s' Hk Hs. simpl. rewrite (passesOf_body h i p Hp).
  destruct (Nat.ltb_spec (length set) (pass_min p)) as [?|Hge]; [by intros [= <-]|].
  intros E key r Hr. destruct (connectMany_ledger _ _ _ _ E) as [Hc _].
  destruct (Hc key r Hr) as [H|(-> & m & Hm & ->)]; [by apply Hs|].
  assert (2 ≤ length set) as H2.
  { assert (2 ≤ pass_min p); [|lia].
    simpl in Hp. destruct Hp as [<-|[<-|[<-|[<-|[<-|[<-|[]]]]]]]; simpl; lia. }
  destruct set as [|first rest] eqn:Eset; [simpl in H2; lia|]. simpl in Hm.
  exists p, k, (first :: rest), first, m.
  split; [done|]. split; [done|]. split; [done|]. split; [done|].
  split; [by left|]. split; [by right|]. split; [|done].
  pose proof (passesOf_distinct h i p Hp k _ Hk) as Hnd.
  apply NoDup_cons in Hnd as [Hf _]. intros ->. by apply Hf, list_elem_of_In.
Qed.

(** ** The reasons a group collects *)

Lemma in_fold_setAdd r l rs :
  In r (fold_left (λ rs r, setAdd r rs) l rs) ↔ In r rs ∨ In r l.
Proof.
  revert rs. induction l as [|x l IH]; intros rs; simpl; [tauto|].
  rewrite IH, in_setAdd. intuition congruence.
Qed.

Lemma fold_setAdd_NoDup l rs : NoDup rs → NoDup (fold_left (λ rs r, setAdd r rs) l rs).
Proof.
  revert rs. induction l as [|x l IH]; intros rs H; simpl; [done|].
  by apply IH, setAdd_NoDup.
Qed.

Lemma scanPairs_from ev a rest rs r :
  In r (scanPairs ev a rest rs) →
  In r rs ∨ ∃ b, In b rest ∧ In r (reasonsAt ev (pairKey a b)).
Proof.
  revert rs. induction rest as [|b rest IH]; intros rs; cbn [scanPairs]; [auto|].
  destruct (_ <=? _).
  - intros [H|H]%in_fold_setAdd; [by left|]. right. exists b. split; [by left|done].
  - intros [[H|H]%in_fold_setAdd | (b' & Hb' & H)]%IH; [by left| |].
    + right. exists b. split; [by left|done].
    + right. exists b'. split; [by right|done].
Qed.

Lemma scanPairs_NoDup ev a rest rs : NoDup rs → NoDup (scanPairs ev a rest rs).
Proof.
  revert rs. induction rest as [|b rest IH]; intros rs H; cbn [scanPairs]; [done|].
  destruct (_ <=? _); [by apply fold_setAdd_NoDup|]. by apply IH, fold_setAdd_NoDup.
Qed.

Lemma scanMembers_from ev ms rs r :
  In r (scanMembers ev ms rs) →
  In r rs ∨ ∃ a b, In a ms ∧ In b ms ∧ In r (reasonsAt ev (pairKey a b)).
Proof.
  revert rs. induction ms as [|a ms IH]; intros rs; cbn [scanMembers]; [auto|].
  assert (∀ r, In r (scanPairs ev a ms rs) →
            In r rs ∨ ∃ a' b, In a' (a :: ms) ∧ In b (a :: ms)
                              ∧ In r (reasonsAt ev (pairKey a' b))) as Hp.
  { intros r' [H|(b & Hb & H)]%scanPairs_from; [by left|]. right. exists a, b.
    split; [by left|]. split; [by right|done]. }
  destruct (_ <=? _); [apply Hp|].
  intros [H | (a' & b & Ha' & Hb & H)]%IH; [by apply Hp|].
  right. exists a', b. split; [by right|]. split; [by right|done].
Qed.

Lemma scanMembers_NoDup ev ms rs : NoDup rs → NoDup (scanMembers ev ms rs).
Proof.
  revert rs. induction ms as [|a ms IH]; intros rs H; cbn [scanMembers]; [done|].
  destruct (_ <=? _); [by apply scanPairs_NoDup|]. by apply IH, scanPairs_NoDup.
Qed.

Lemma In_take {A : Type} n (l : list A) x : In x (take n l) → In x l.
Proof.
  revert n. induction l as [|y l IH]; intros [|n]; simpl; try done.
  intros [->|H]; [by left|]. right. by apply (IH n).
Qed.

(** ** Range of the score *)

Lemma allScores_range :
  forallb (λ s, SFleb Num.c_0_25 s && SFleb s Num.c_1) allScores = true.
Proof. by vm_compute. Qed.

Lemma ramp_five n : 5 ≤ n → ramp n = Num.c_0_25.
Proof.
  intros Hn. do 10 (destruct n as [|n]; [try lia; by vm_compute|]).
  unfold ramp. rewrite ramp_saturates; [done | lia].
Qed.

(** ** Repeated actors and the size threshold *)

(** How often [a] is listed. *)
Definition occurrences (a : string) (l : list string) : nat :=
  length (List.filter (String.eqb a) l).

Lemma filter_length_le {A : Type} (f g : A → bool) l :
  (∀ x, f x = true → g x = true) → length (List.filter f l) ≤ length (List.filter g l).
Proof.
  intros H. induction l as [|x l IH]; simpl; [done|].
  destruct (f x) eqn:Fx.
  - rewrite (H x Fx). simpl. lia.
  - destruct (g x); simpl; lia.
Qed.

Lemma occurrences_membersOf key l a :
  occurrences a (membersOf key l (key a)) = occurrences a l.
Proof.
  unfold occurrences, membersOf. induction l as [|x l IH]; [done|].
  cbn [List.filter]. destruct (String.eqb_spec a x) as [<-|Hne].
  - rewrite String.eqb_refl. cbn [List.filter]. rewrite String.eqb_refl.
    cbn [length]. by rewrite IH.
  - destruct (String.eqb (key x) (key a)); cbn [List.filter]; [|done].
    by destruct (String.eqb_spec a x).
Qed.

Lemma occurrences_perm a l l' : l ≡ₚ l' → occurrences a l = occurrences a l'.
Proof.
  unfold occurrences.
  induction 1 as [|x l l' _ IH|x y l|l l' l'' _ IH1 _ IH2]; simpl; try done.
  - destruct (String.eqb a x); simpl; by rewrite IH.
  - by destruct (String.eqb a x), (String.eqb a y).
  - by rewrite IH1.
Qed.

Lemma occurrences_le a l : occurrences a l ≤ length l.
Proof.
  unfold occurrences. induction l as [|x l IH]; simpl; [done|].
  destruct (String.eqb a x); simpl; lia.
Qed.

Lemma occurrences_In a l : 0 < occurrences a l → In a l.
Proof.
  unfold occurrences. induction l as [|x l IH]; simpl; [lia|].
  destruct (String.eqb_spec a x) as [->|_]; [by left|]. intros H. right. by apply IH.
Qed.

(** ** The size threshold *)

Definition withMinGroupSize (k : Z) (i : Input) : Input :=
  {| actors := actors i;
     linksByActor := linksByActor i;
     bioByActor := bioByActor i;
     handleStemByActor := handleStemByActor i;
     sharedFundersByWallet := sharedFundersByWallet i;
     extraWalletsByActor := extraWalletsByActor i;
     minGroupSize := k |}.

Lemma runPasses_min k h i : runPasses h (withMinGroupSize k i) = runPasses h i.
Proof. reflexivity. Qed.

Lemma passState_min k h i : passState h (withMinGroupSize k i) = passState h i.
Proof. reflexivity. Qed.

Lemma fold_left_ext {A S : Type} (f g : S → A → S) l s :
  (∀ s x, f s x = g s x) → fold_left f l s = fold_left g l s.
Proof.
  intros H. revert s. induction l as [|x l IH]; intros s; simpl; [done|].
  by rewrite H, IH.
Qed.

(** ** Evidence names something the members share *)

(** The strings the passes may union: actors, keys of
    [handleStemByActor] and keys of [sharedFundersByWallet]. *)
Definition idsOf (i : Input) : list string :=
  (actors i ++ map fst (handleStemByActor i) ++ map fst (sharedFundersByWallet i))%list.

Lemma passesOf_ids h i p k set a :
  In p (passesOf h i) → In (k, set) (pass_map p) → In a set → In a (idsOf i).
Proof.
  unfold idsOf. rewrite !in_app_iff.
  simpl. intros [<-|[<-|[<-|[<-|[<-|[<-|[]]]]]]]; simpl; intros Hk Ha.
  - left. by apply (linkToActors_ok i k set Hk).
  - left. by apply (domainToActors_ok h i k set Hk).
  - right. left. by apply (stemToActors_ok i k set Hk).
  - left. by apply (baseHandleToActors_ok i k set Hk).
  - left. by apply (walletToActors_ok i k set Hk).
  - right. right. by apply (funderToWallets_ok i k set Hk).
Qed.

(** ** Ties keep the order of the identifiers *)

Section Stable.

Context {A : Type} (cmp : A → A → comparison) (idx : A → nat) (Q : A → Prop).

Hypothesis cmp_gt : ∀ x y, Q x → Q y → cmp x y = Gt → cmp y x = Lt.
Hypothesis cmp_trans :
  ∀ x y z, Q x → Q y → Q z → cmp x y ≠ Gt → cmp y z ≠ Gt → cmp x z ≠ Gt.

(** [a] may stand before [b]: the comparator does not put [b] first, and
    when it ties them [a] has the smaller index. *)
Definition inOrder (a b : A) : Prop :=
  cmp a b ≠ Gt ∧ (cmp a b = Eq → idx a < idx b).

Lemma sortInsert_stable x l :
  Q x → Forall Q l → Forall (λ y, idx x < idx y) l →
  StronglySorted inOrder l → StronglySorted inOrder (sortInsert cmp x l).
Proof.
  intros Hx Hl Hi Hs. induction Hs as [|y l Hs IH Hy]; simpl.
  - repeat constructor.
  - apply Forall_cons in Hl as [Qy Ql]. apply Forall_cons in Hi as [Iy Il].
    assert (cmp x y ≠ Gt → StronglySorted inOrder (x :: y :: l)) as Hle.
    { intros Hc. constructor; [by constructor|].
      constructor; [by split|].
      rewrite Forall_forall in Hy, Ql, Il |- *. intros z Hz.
      destruct (Hy z Hz) as [Hyz _]. split; [|intros _; by apply Il].
      by apply (cmp_trans x y z); auto. }
    destruct (cmp x y) eqn:Hc; [by apply Hle | by apply Hle |].
    constructor; [by apply IH|].
    rewrite (sortInsert_perm cmp x l). constructor; [|done].
    pose proof (cmp_gt x y Hx Qy Hc) as E. split; [by rewrite E | by rewrite E].
Qed.

Lemma sortBy_stable l :
  Forall Q l → StronglySorted (λ a b, idx a < idx b) l →
  StronglySorted inOrder (sortBy cmp l).
Proof.
  intros Hl Hs. induction Hs as [|x l Hs IH Hx]; simpl; [constructor|].
  apply Forall_cons in Hl as [Qx Ql].
  apply sortInsert_stable; [done | by rewrite sortBy_perm | by rewrite sortBy_perm | by apply IH].
Qed.

End Stable.

Lemma groupsFrom_ascending ev id comps :
  Forall (λ g, id ≤ controllerId g) (groupsFrom ev id comps)
  ∧ StronglySorted (λ a b, controllerId a < controllerId b) (groupsFrom ev id comps).
Proof.
  revert id. induction comps as [|ms comps IH]; intros id; simpl.
  - split; constructor.
  - destruct (IH (S id)) as [IH1 IH2]. split.
    + constructor; [simpl; lia|]. eapply Forall_impl; [exact IH1|]. simpl. intros; lia.
    + constructor; [done|]. eapply Forall_impl; [exact IH1|]. simpl. intros; lia.
Qed.

(** X10. [connectMany] adds only its reason to the ledger, and only
    under the keys of its first member paired with a later member; every
    other key keeps its reasons. So when the members are different strings
    without a vertical bar, nothing is recorded for a pair of two later
    members. *)
Theorem X10_connectMany_ledger members reason st st' :
  connectMany members reason st = Some st' →
  (∀ k r, In r (reasonsAt (snd st') k) →
     In r (reasonsAt (snd st) k)
     ∨ (r = reason ∧ ∃ m, In m (tail members) ∧ k = pairKey (hd "" members) m))
  ∧ (∀ k, (∀ m, In m (tail members) → k ≠ pairKey (hd "" members) m) →
       snd st' !! k = snd st !! k)
  ∧ (NoDup members → forallb noBar members = true →
     ∀ m1 m2, In m1 (tail members) → In m2 (tail members) →
       snd st' !! pairKey m1 m2 = snd st !! pairKey m1 m2).
Proof.
  intros E. destruct (connectMany_ledger _ _ _ _ E) as [H1 H2].
  split; [done|]. split; [done|].
  intros Hnd Hbar m1 m2 Hm1 Hm2. apply H2. intros m Hm Ekey.
  destruct members as [|first rest]; [done|]. simpl in *.
  apply andb_true_iff in Hbar as [Hf Hr]. rewrite forallb_forall in Hr.
  apply NoDup_cons in Hnd as [Hfirst _].
  apply pairKey_inj in Ekey as [[-> _] | [_ ->]]; auto.
  - by apply Hfirst, list_elem_of_In.
  - by apply Hfirst, list_elem_of_In.
Qed.

Definition ex_connect_start : PassState := (makeUnionFind ["a"; "b"; "c"], ∅).

Definition ex_connected : PassState :=
  default ex_connect_start (connectMany ["a"; "b"; "c"] "Shared link: l" ex_connect_start).

Lemma ex_connected_run :
  connectMany ["a"; "b"; "c"] "Shared link: l" ex_connect_start = Some ex_connected.
Proof.
  unfold ex_connected.
  destruct (connectMany ["a"; "b"; "c"] "Shared link: l" ex_connect_start) as [st|] eqn:E;
    [done|].
  by vm_compute in E.
Qed.

Lemma X10_connectMany_ledger_witness :
  snd ex_connected !! pairKey "b" "c" = snd ex_connect_start !! pairKey "b" "c".
Proof.
  apply (proj2 (proj2 (X10_connectMany_ledger ["a"; "b"; "c"] "Shared link: l"
                         ex_connect_start ex_connected ex_connected_run))).
  - apply (bool_decide_unpack (NoDup ["a"; "b"; "c"])). vm_compute. exact I.
  - reflexivity.
  - simpl. left. reflexivity.
  - simpl. right. left. reflexivity.
Defined.

(** X11. An actor whose identifier has the shape of an address has that
    identifier, in lower case, among its wallets, whatever the maps of
    the input hold. *)
Theorem X11_own_wallet i a :
  looksLikeEvmAddress a = true → In (Str.toLowerCase a) (walletsOf i a).
Proof.
  intros Ha. unfold walletsOf. rewrite Ha. apply in_setOf. apply filter_In.
  split; [|by apply looksLikeEvmAddress_lower]. apply in_or_app. right. by left.
Qed.

Lemma X11_own_wallet_witness : In (Str.toLowerCase addr_upper) (walletsOf ex_funded_actors addr_upper).
Proof. apply (X11_own_wallet ex_funded_actors addr_upper). reflexivity. Defined.

(** X12. When a set of a pass reaches the threshold of the pass, does not
    hold the empty string and has at least [minGroupSize] members, one
    returned group holds all its members. For the stem and the funder
    pass this needs the members of the set to be actors; the sets of the
    other passes hold actors only. *)
Theorem X12_shared_key_groups h i out p k set :
  computeControllerGroups h i = Some out →
  In p (passesOf h i) → In (k, set) (pass_map p) →
  pass_min p ≤ length set → (minGroupSize i ≤ Z.of_nat (length set))%Z →
  ¬ In "" set →
  (pass_label p = "Shared handle stem: " ∨ pass_label p = "Common funder: " →
   ∀ a, In a set → In a (actors i)) →
  ∃ g, In g (groups out) ∧ ∀ a, In a set → In a (members g).
Proof.
  intros Hout Hp Hk Ht Hmin Hne Hact.
  apply (shared_key_group h i out p k set); try done.
  intros a Ha.
  destruct (String.eqb_spec (pass_label p) "Shared handle stem: ") as [E1|E1];
    [by apply Hact; [left|]|].
  destruct (String.eqb_spec (pass_label p) "Common funder: ") as [E2|E2];
    [by apply Hact; [right|]|].
  by apply (passesOf_actors h i p k set).
Qed.

Lemma X12_shared_key_groups_witness :
  ∃ g, In g (groups (outputOf ex_two_groups)) ∧ ∀ a, In a ["a"; "b"] → In a (members g).
Proof.
  apply (X12_shared_key_groups simpleHostname ex_two_groups (outputOf ex_two_groups)
           {| pass_body := linkBody; pass_map := linkToActors ex_two_groups;
              pass_min := 2; pass_label := "Shared link: " |} "l" ["a"; "b"]).
  - vm_compute. reflexivity.
  - left. reflexivity.
  - cbn [pass_map]. vm_compute. left. reflexivity.
  - simpl. lia.
  - simpl. lia.
  - intros [H|[H|[]]]; discriminate H.
  - intros [H|H]; discriminate H.
Defined.

(** X13. With no actor listed twice, an actor that is in no set that
    reaches the threshold of its pass is a member of no returned group
    and has no entry in [controllerIdByActor]. *)
Theorem X13_unconnected_absent h i out a :
  computeControllerGroups h i = Some out → NoDup (actors i) →
  united h i a = false →
  (∀ g, In g (groups out) → ¬ In a (members g))
  ∧ mapGet a (controllerIdByActor out) = None.
Proof.
  intros Hout Hnd Ha. apply (not_united_absent h i out a Hout); [|done].
  by apply NoDup_ListNoDup.
Qed.

Lemma X13_unconnected_absent_witness :
  (∀ g, In g (groups (outputOf ex_loner)) → ¬ In "z:carol" (members g))
  ∧ mapGet "z:carol" (controllerIdByActor (outputOf ex_loner)) = None.
Proof.
  apply (X13_unconnected_absent simpleHostname ex_loner (outputOf ex_loner) "z:carol").
  - vm_compute. reflexivity.
  - apply (bool_decide_unpack (NoDup (actors ex_loner))). vm_compute. exact I.
  - vm_compute. reflexivity.
Defined.

(** X14. Every evidence string of a returned group is the label of a
    pass followed by a key of that pass whose set reaches the threshold.
    When no actor, no key of [handleStemByActor] and no key of
    [sharedFundersByWallet] has a vertical bar, two different members of
    the group are in that set. *)
Theorem X14_evidence_justified h i out g r :
  computeControllerGroups h i = Some out → In g (groups out) → In r (evidence g) →
  ∃ p k set,
    In p (passesOf h i) ∧ In (k, set) (pass_map p) ∧ pass_min p ≤ length set
    ∧ r = pass_label p ++ k
    ∧ (forallb noBar (idsOf i) = true →
       ∃ a b, a ≠ b ∧ In a (members g) ∧ In b (members g) ∧ In a set ∧ In b set).
Proof.
  intros Hout Hg Hr.
  assert (∃ m, In m (members g)) as [m Hm].
  { destruct (resolver_shape _ _ _ Hout) as (Hgs & _).
    pose proof Hg as Hg'. rewrite Hgs in Hg'. apply sortBy_In in Hg'.
    apply groupsBeforeSort_In in Hg' as (r0 & Em & Hs & _).
    apply survives_length in Hs. rewrite <- (sortBy_length String.compare), <- Em in Hs.
    destruct (members g) as [|m ms]; [simpl in Hs; lia|]. exists m. by left. }
  destruct (group_component h i out g m Hout Hg Hm) as (_ & _ & _ & _ & Hev).
  rewrite Hev in Hr. apply In_take in Hr. unfold collectReasons in Hr.
  apply scanMembers_from in Hr as [[] | (a & b & Ha & Hb & Hr)].
  apply ledger_justified in Hr
    as (p & k & set & a' & b' & Hp & Hk & Ht & -> & Ha' & Hb' & Hne & Ekey).
  exists p, k, set. split; [done|]. split; [done|]. split; [done|]. split; [done|].
  intros Hbar. rewrite forallb_forall in Hbar.
  assert (∀ x, In x (members g) → noBar x = true) as Hm1.
  { intros x Hx. apply Hbar. unfold idsOf. apply in_or_app. left.
    by destruct (group_component h i out g x Hout Hg Hx). }
  assert (∀ x, In x set → noBar x = true) as Hm2.
  { intros x Hx. by apply Hbar, (passesOf_ids h i p k set). }
  apply pairKey_inj in Ekey as [[-> ->] | [-> ->]]; auto.
  - exists a', b'. auto.
  - exists a', b'. auto 10.
Qed.

(** The group of [ex_three_links]. *)
Definition ex_three_links_group : ControllerGroup :=
  {| controllerId := 0;
     members := ["a"; "b"];
     score := ex_three_links_score;
     evidence := ["Shared link: u2"; "Shared link: u1"; "Shared link: u3"] |}.

Lemma X14_evidence_justified_witness :
  ∃ p k set,
    In p (passesOf simpleHostname ex_three_links) ∧ In (k, set) (pass_map p)
    ∧ pass_min p ≤ length set
    ∧ "Shared link: u1" = pass_label p ++ k
    ∧ (forallb noBar (idsOf ex_three_links) = true →
       ∃ a b, a ≠ b ∧ In a (members ex_three_links_group)
              ∧ In b (members ex_three_links_group) ∧ In a set ∧ In b set).
Proof.
  apply (X14_evidence_justified simpleHostname ex_three_links
           (outputOf ex_three_links) ex_three_links_group "Shared link: u1").
  - vm_compute. reflexivity.
  - vm_compute. left. reflexivity.
  - simpl. right. left. reflexivity.
Defined.

(** X15. The evidence of a returned group has at most eight strings and
    no string twice. *)
Theorem X15_evidence_capped h i out g :
  computeControllerGroups h i = Some out → In g (groups out) →
  length (evidence g) ≤ 8 ∧ NoDup (evidence g).
Proof.
  intros Hout Hg.
  assert (evidence g = take 8 (collectReasons (ledgerOf h i) (members g))) as ->.
  { destruct (resolver_shape h i out Hout) as (Hgs & _).
    rewrite Hgs in Hg. apply sortBy_In in Hg.
    by apply groupsBeforeSort_In in Hg as (r & _ & _ & _ & He). }
  split; [rewrite length_take; lia|].
  eapply sublist_NoDup; [|apply sublist_take].
  apply scanMembers_NoDup, NoDup_nil_2.
Qed.

Lemma X15_evidence_capped_witness :
  length (evidence ex_three_links_group) ≤ 8 ∧ NoDup (evidence ex_three_links_group).
Proof.
  apply (X15_evidence_capped simpleHostname ex_three_links (outputOf ex_three_links)).
  - vm_compute. reflexivity.
  - vm_compute. left. reflexivity.
Defined.

(** X16. The score of a returned group is a number from 0.25 to 1. *)
Theorem X16_score_range h i out g :
  computeControllerGroups h i = Some out → In g (groups out) →
  SFleb Num.c_0_25 (score g) = true ∧ SFleb (score g) Num.c_1 = true.
Proof.
  intros Hout Hg. destruct (resolver_shape h i out Hout) as (Hgs & _).
  rewrite Hgs in Hg. apply sortBy_In in Hg. apply groupsBeforeSort_scored in Hg.
  pose proof allScores_range as H. rewrite forallb_forall in H.
  by apply andb_true_iff, H.
Qed.

Lemma X16_score_range_witness :
  SFleb Num.c_0_25 (score ex_three_links_group) = true
  ∧ SFleb (score ex_three_links_group) Num.c_1 = true.
Proof.
  apply (X16_score_range simpleHostname ex_three_links (outputOf ex_three_links)).
  - vm_compute. reflexivity.
  - vm_compute. left. reflexivity.
Defined.

(** X17. From five members on the score no longer depends on the number
    of members: the part of the score that grows with the size is 0.25
    for every group of five or more. *)
Theorem X17_score_saturates n n' reasons :
  5 ≤ n → 5 ≤ n' →
  computeScore n reasons = computeScore n' reasons
  ∧ Num.min (Num.div (Num.ofZ (Z.of_nat n - 2)) Num.c_10) Num.c_0_25 = Num.c_0_25.
Proof.
  intros Hn Hn'. split; [by rewrite !computeScore_from, !ramp_five|].
  by apply (ramp_five n).
Qed.

Lemma X17_score_saturates_witness :
  computeScore 5 ["Shared link: l"] = computeScore 1000 ["Shared link: l"]
  ∧ Num.min (Num.div (Num.ofZ (Z.of_nat 5 - 2)) Num.c_10) Num.c_0_25 = Num.c_0_25.
Proof. apply (X17_score_saturates 5 1000 ["Shared link: l"]); lia. Defined.

(** X18. Every member of a returned group is an actor of the input, no
    actor is a member of two returned groups, and an input without actors
    gives the empty result whatever its maps hold. *)
Theorem X18_members_are_actors h i out :
  computeControllerGroups h i = Some out →
  (∀ g m, In g (groups out) → In m (members g) → In m (actors i))
  ∧ (∀ g g' m, In g (groups out) → In g' (groups out) →
       In m (members g) → In m (members g') → g = g')
  ∧ (actors i = [] → out = {| groups := []; controllerIdByActor := [] |}).
Proof.
  intros Hout. split; [|split].
  - intros g m Hg Hm. by destruct (group_component h i out g m Hout Hg Hm).
  - intros g g' m Hg Hg' Hm Hm'. apply (groups_by_id h i out); try done.
    destruct (resolver_shape h i out Hout) as (Hgs & [_ I2]).
    assert (∀ x, In x (groups out) → In m (members x) →
              mapGet m (controllerIdByActor out) = Some (controllerId x)) as Hid.
    { intros x Hx Hmx. apply I2; [|done]. rewrite Hgs in Hx. by apply sortBy_In in Hx. }
    pose proof (Hid g Hg Hm) as E1. pose proof (Hid g' Hg' Hm') as E2. congruence.
  - intros Hnil.
    assert (groups out = []) as Eg.
    { destruct (groups out) as [|g gs] eqn:E; [done|].
      assert (In g (groups out)) as Hg by (rewrite E; by left).
      destruct (group_component h i out g) with (m := hd "" (members g)) as (Hin & _);
        try done.
      - destruct (resolver_shape h i out Hout) as (Hgs & _).
        pose proof Hg as Hg'. rewrite Hgs in Hg'. apply sortBy_In in Hg'.
        apply groupsBeforeSort_In in Hg' as (r & Em & Hs & _).
        apply survives_length in Hs. rewrite <- (sortBy_length String.compare), <- Em in Hs.
        destruct (members g); simpl in *; [lia | by left].
      - rewrite Hnil in Hin. done. }
    destruct out as [gs ids]. simpl in *. subst gs. f_equal.
    destruct ids as [|[k v] ids]; [done|].
    assert (mapGet k ((k, v) :: ids) = None) as E.
    { by apply (absent_from_groups h i _ k Hout). }
    simpl in E. by rewrite String.eqb_refl in E.
Qed.

Lemma X18_members_are_actors_witness :
  (∀ g m, In g (groups (outputOf ex_two_groups)) → In m (members g) →
     In m (actors ex_two_groups))
  ∧ (∀ g g' m, In g (groups (outputOf ex_two_groups)) →
       In g' (groups (outputOf ex_two_groups)) →
       In m (members g) → In m (members g') → g = g')
  ∧ (actors ex_two_groups = [] →
     outputOf ex_two_groups = {| groups := []; controllerIdByActor := [] |}).
Proof.
  apply (X18_members_are_actors simpleHostname ex_two_groups (outputOf ex_two_groups)).
  vm_compute. reflexivity.
Defined.

(** An actor that is listed twice and shares nothing. *)
Definition ex_twice : Input := mkInput ["a"; "a"] [] [] [] [] None 2.

(** X19. The size test counts entries of [actors], not different actors:
    an actor that is listed at least [max(2, minGroupSize)] times is in a
    returned group, as often as it is listed, even when it shares nothing
    with anyone. *)
Theorem X19_repeated_actor h i out a :
  computeControllerGroups h i = Some out →
  (Z.max 2 (minGroupSize i) ≤ Z.of_nat (occurrences a (actors i)))%Z →
  ∃ g, In g (groups out) ∧ In a (members g)
       ∧ occurrences a (members g) = occurrences a (actors i).
Proof.
  intros Hout Hocc.
  assert (In a (actors i)) as Ha by (apply occurrences_In; lia).
  set (key := findRoot (forestOf h i)).
  pose proof (occurrences_membersOf key (actors i) a) as Eocc.
  destruct (component_group h i out a Hout Ha) as (g & Hg & Hm & _).
  { apply survives_length. fold key.
    pose proof (occurrences_le a (membersOf key (actors i) (key a))). lia. }
  exists g. split; [done|]. fold key in Hm. split.
  - rewrite Hm. apply sortBy_In, membersOf_In. by split.
  - rewrite <- Eocc, Hm. apply occurrences_perm, sortBy_perm.
Qed.

Lemma X19_repeated_actor_witness :
  ∃ g, In g (groups (outputOf ex_twice)) ∧ In "a" (members g)
       ∧ occurrences "a" (members g) = occurrences "a" (actors ex_twice).
Proof.
  apply (X19_repeated_actor simpleHostname ex_twice (outputOf ex_twice) "a").
  - vm_compute. reflexivity.
  - vm_compute. discriminate.
Defined.

(** X20. Only [max(2, minGroupSize)] matters: two values of
    [minGroupSize] with the same maximum with 2 give the same result, so
    every value up to 2, zero and the negative ones included, acts as
    2. *)
Theorem X20_min_size_floor h i k :
  Z.max 2 k = Z.max 2 (minGroupSize i) →
  computeControllerGroups h (withMinGroupSize k i) = computeControllerGroups h i.
Proof.
  intros Hk. unfold computeControllerGroups. rewrite runPasses_min.
  destruct (runPasses h i) as [st|]; [|done]. simpl.
  change (rootToMembers (withMinGroupSize k i) (fst st)) with (rootToMembers i (fst st)).
  destruct (rootToMembers i (fst st)) as [r|]; [|done]. simpl.
  assert (buildGroups (withMinGroupSize k i) (snd st) (snd r) = buildGroups i (snd st) (snd r))
    as ->; [|done].
  unfold buildGroups. apply fold_left_ext. intros acc e.
  unfold groupBody. simpl. by rewrite Hk.
Qed.

Lemma X20_min_size_floor_witness :
  computeControllerGroups simpleHostname (withMinGroupSize (-5) ex_two_groups)
  = computeControllerGroups simpleHostname ex_two_groups.
Proof. apply (X20_min_size_floor simpleHostname ex_two_groups (-5)). reflexivity. Defined.

(** X21. Raising [minGroupSize] only removes groups: every group
    returned for the larger value is returned for the smaller one with
    the same members, score and evidence. *)
Theorem X21_min_size_monotone h i k out out' g' :
  (minGroupSize i ≤ k)%Z →
  computeControllerGroups h i = Some out →
  computeControllerGroups h (withMinGroupSize k i) = Some out' →
  In g' (groups out') →
  ∃ g, In g (groups out) ∧ members g = members g' ∧ score g = score g'
       ∧ evidence g = evidence g'.
Proof.
  intros Hk Hout Hout' Hg'.
  assert (∃ m, In m (members g')) as [m Hm].
  { destruct (resolver_shape _ _ _ Hout') as (Hgs & _).
    pose proof Hg' as Hg. rewrite Hgs in Hg. apply sortBy_In in Hg.
    apply groupsBeforeSort_In in Hg as (r & Em & Hs & _).
    apply survives_length in Hs. rewrite <- (sortBy_length String.compare), <- Em in Hs.
    destruct (members g') as [|m ms]; [simpl in Hs; lia|]. exists m. by left. }
  destruct (group_component _ _ _ g' m Hout' Hg' Hm) as (Ha & Em & Hs & Hsc & Hev).
  unfold forestOf, ledgerOf in *. rewrite passState_min in *.
  change (actors (withMinGroupSize k i)) with (actors i) in *.
  destruct (component_group h i out m Hout Ha) as (g & Hg & Em2 & Hsc2 & Hev2).
  { apply survives_length. apply survives_length in Hs. simpl in Hs.
    unfold forestOf. lia. }
  exists g. split; [done|]. unfold forestOf, ledgerOf in *.
  assert (members g = members g') as E by congruence.
  split; [done|]. rewrite Hsc, Hev, Hsc2, Hev2, E. done.
Qed.

Lemma X21_min_size_monotone_witness :
  ∃ g, In g (groups (outputOf ex_two_groups))
       ∧ members g = ["p"; "q"; "r"]
       ∧ score g = score (hd ex_alice_group (groups (outputOf (withMinGroupSize 3 ex_two_groups))))
       ∧ evidence g
         = evidence (hd ex_alice_group (groups (outputOf (withMinGroupSize 3 ex_two_groups)))).
Proof.
  apply (X21_min_size_monotone simpleHostname ex_two_groups 3 (outputOf ex_two_groups)
           (outputOf (withMinGroupSize 3 ex_two_groups))
           (hd ex_alice_group (groups (outputOf (withMinGroupSize 3 ex_two_groups))))).
  - simpl. lia.
  - vm_compute. reflexivity.
  - vm_compute. reflexivity.
  - vm_compute. left. reflexivity.
Defined.

(** Two pairs that get the same score. *)
Definition ex_tie : Input :=
  mkInput ["c"; "d"; "a"; "b"]
    [("a", ["l1"]); ("b", ["l1"]); ("c", ["l2"]); ("d", ["l2"])] [] [] [] None 2.

(** X22. In the returned list a group stands before another only if its
    score is higher, or the scores are equal and it has at least as many
    members; and of two groups with equal score and equal member count
    the one with the smaller [controllerId] stands first, since the sort
    is stable. *)
Theorem X22_stable_ties h i out :
  computeControllerGroups h i = Some out →
  StronglySorted
    (λ a b, precedes a b
            ∧ (score a = score b → length (members a) = length (members b) →
               controllerId a < controllerId b))
    (groups out).
Proof.
  intros Hout. destruct (resolver_shape h i out Hout) as (Hgs & _). rewrite Hgs.
  set (pre := groupsBeforeSort i (forestOf h i) (ledgerOf h i)).
  assert (Forall scored pre) as Hsc.
  { apply Forall_forall. intros g Hg%list_elem_of_In. by eapply groupsBeforeSort_scored. }
  assert (Forall scored (sortBy compareGroups pre)) as Hsc'.
  { by rewrite sortBy_perm. }
  pose proof (sortBy_stable compareGroups controllerId scored) as Hst.
  assert (StronglySorted (inOrder compareGroups controllerId) (sortBy compareGroups pre)) as H.
  { apply Hst; [..|done|apply groupsFrom_ascending].
    - intros x y Hx Hy. rewrite (compareGroups_keys x y Hx Hy), (compareGroups_keys y x Hy Hx).
      rewrite (Z.compare_antisym (scoreKey (score x)) (scoreKey (score y))).
      rewrite (Z.compare_antisym (Z.of_nat (length (members x)))
                 (Z.of_nat (length (members y)))).
      destruct (scoreKey (score x) ?= scoreKey (score y))%Z; simpl; try done.
      by destruct (Z.of_nat (length (members x)) ?= Z.of_nat (length (members y)))%Z.
    - intros x y z Hx Hy Hz.
      rewrite (compareGroups_keys x y Hx Hy), (compareGroups_keys y z Hy Hz),
        (compareGroups_keys x z Hx Hz).
      destruct (Z.compare_spec (scoreKey (score y)) (scoreKey (score x)));
        destruct (Z.compare_spec (scoreKey (score z)) (scoreKey (score y)));
        destruct (Z.compare_spec (scoreKey (score z)) (scoreKey (score x)));
        try lia; try done;
        destruct (Z.compare_spec (Z.of_nat (length (members y))) (Z.of_nat (length (members x))));
        destruct (Z.compare_spec (Z.of_nat (length (members z))) (Z.of_nat (length (members y))));
        destruct (Z.compare_spec (Z.of_nat (length (members z))) (Z.of_nat (length (members x))));
        try lia; try done. }
  assert (∀ l, Forall scored l → StronglySorted (inOrder compareGroups controllerId) l →
            StronglySorted
              (λ a b, precedes a b
                      ∧ (score a = score b → length (members a) = length (members b) →
                         controllerId a < controllerId b)) l) as Hconv.
  { induction 2 as [|x l Hs IH Hx]; [constructor|].
    apply Forall_cons in H0 as [Qx Ql]. constructor; [by apply IH|].
    rewrite Forall_forall in Hx, Ql |- *. intros y Hy.
    destruct (Hx y Hy) as [Hc He]. specialize (Ql y Hy).
    rewrite (compareGroups_keys x y Qx Ql) in Hc, He. split.
    - apply (precedes_keys x y Qx Ql).
      destruct (Z.compare_spec (scoreKey (score y)) (scoreKey (score x))) as [E|E|E];
        [|by left|done].
      right. split; [done|].
      destruct (Z.compare_spec (Z.of_nat (length (members y)))
                  (Z.of_nat (length (members x)))); [lia | lia | done].
    - intros Es El. apply He. rewrite Es, El, !Z.compare_refl. done. }
  by apply Hconv.
Qed.

Lemma X22_stable_ties_witness :
  StronglySorted
    (λ a b, precedes a b
            ∧ (score a = score b → length (members a) = length (members b) →
               controllerId a < controllerId b))
    (groups (outputOf ex_tie)).
Proof.
  apply (X22_stable_ties simpleHostname ex_tie (outputOf ex_tie)). vm_compute. reflexivity.
Defined.

(** ** The evidence is complete below the cap *)

Lemma fold_setAdd_length l rs : length rs ≤ length (fold_left (λ rs r, setAdd r rs) l rs).
Proof.
  revert rs. induction l as [|x l IH]; intros rs; simpl; [done|].
  etransitivity; [|apply IH]. unfold setAdd. destruct (has x rs); [done|].
  rewrite List.length_app. lia.
Qed.

Lemma scanPairs_grows ev a rest rs :
  length rs ≤ length (scanPairs ev a rest rs)
  ∧ ∀ r, In r rs → In r (scanPairs ev a rest rs).
Proof.
  revert rs. induction rest as [|b rest IH]; intros rs; cbn [scanPairs]; [done|].
  pose proof (fold_setAdd_length (default [] (ev !! pairKey a b)) rs) as Hl.
  assert (∀ r, In r rs →
            In r (fold_left (λ rs r, setAdd r rs) (default [] (ev !! pairKey a b)) rs)) as Hi.
  { intros r Hr. apply in_fold_setAdd. by left. }
  destruct (_ <=? _); [done|].
  destruct (IH (fold_left (λ rs r, setAdd r rs) (default [] (ev !! pairKey a b)) rs))
    as [IH1 IH2].
  split; [lia|]. intros r Hr. by apply IH2, Hi.
Qed.

Lemma scanPairs_complete ev a rest rs b r :
  length (scanPairs ev a rest rs) < 8 → In b rest → In r (reasonsAt ev (pairKey a b)) →
  In r (scanPairs ev a rest rs).
Proof.
  revert rs. induction rest as [|x rest IH]; intros rs; cbn [scanPairs]; [done|].
  destruct (Nat.leb_spec 8
              (length (fold_left (λ rs r, setAdd r rs) (default [] (ev !! pairKey a x)) rs)))
    as [Hge|Hlt]; [lia|].
  intros Hlen [->|Hb] Hr.
  - apply scanPairs_grows, in_fold_setAdd. by right.
  - by apply IH.
Qed.

Lemma scanMembers_grows ev ms rs :
  length rs ≤ length (scanMembers ev ms rs)
  ∧ ∀ r, In r rs → In r (scanMembers ev ms rs).
Proof.
  revert rs. induction ms as [|a ms IH]; intros rs; cbn [scanMembers]; [done|].
  destruct (scanPairs_grows ev a ms rs) as [P1 P2].
  destruct (_ <=? _); [done|].
  destruct (IH (scanPairs ev a ms rs)) as [IH1 IH2].
  split; [lia|]. intros r Hr. by apply IH2, P2.
Qed.

Lemma scanMembers_complete ev ms rs l1 a l2 b r :
  length (scanMembers ev ms rs) < 8 → ms = (l1 ++ a :: l2)%list → In b l2 →
  In r (reasonsAt ev (pairKey a b)) → In r (scanMembers ev ms rs).
Proof.
  revert rs l1. induction ms as [|x ms IH]; intros rs l1; cbn [scanMembers].
  { intros _ E. by destruct l1. }
  destruct (Nat.leb_spec 8 (length (scanPairs ev x ms rs))) as [Hge|Hlt]; [lia|].
  intros Hlen E Hb Hr. destruct l1 as [|y l1]; simpl in E; injection E as -> ->.
  - apply scanMembers_grows. apply (scanPairs_complete ev a l2 rs b); [lia|done..].
  - by apply (IH _ l1).
Qed.

Lemma two_positions (a b : string) ms :
  In a ms → In b ms → a ≠ b →
  (∃ l1 l2, ms = (l1 ++ a :: l2)%list ∧ In b l2)
  ∨ (∃ l1 l2, ms = (l1 ++ b :: l2)%list ∧ In a l2).
Proof.
  intros Ha Hb Hne. apply in_split in Ha as (l1 & l2 & ->).
  apply in_app_or in Hb as [Hb|[Hb|Hb]]; [|done|left; eauto].
  right. apply in_split in Hb as (l3 & l4 & ->).
  exists l3, (l4 ++ a :: l2)%list. split; [by rewrite <- app_assoc|].
  apply in_or_app. right. by left.
Qed.

Lemma collectReasons_complete ev ms a b r :
  length (collectReasons ev ms) < 8 → In a ms → In b ms → a ≠ b →
  In r (reasonsAt ev (pairKey a b)) → In r (collectReasons ev ms).
Proof.
  intros Hlen Ha Hb Hne Hr. unfold collectReasons in *.
  destruct (two_positions a b ms Ha Hb Hne) as [(l1 & l2 & E & Hin)|(l1 & l2 & E & Hin)].
  - by apply (scanMembers_complete ev ms [] l1 a l2 b).
  - apply (scanMembers_complete ev ms [] l1 b l2 a); try done. by rewrite pairKey_sym.
Qed.

(** The reason of a set that reaches its threshold is in the final
    ledger, under the key of the first member paired with each later
    one. *)
Lemma pass_records h i p k set m :
  In p (passesOf h i) → In (k, set) (pass_map p) → pass_min p ≤ length set →
  In m (tail set) →
  In (pass_label p ++ k) (reasonsAt (ledgerOf h i) (pairKey (hd "" set) m)).
Proof.
  intros Hp Hk Ht Hm.
  destruct (passes_stage (passesOf h i) (makeUnionFind (actors i), ∅) (passState h i) p
              (passesOf_connect h i) (makeUnionFind_wf (actors i))
              (passesOf_run h i) Hp) as (st & st' & X0 & E & X1).
  unfold runPass in E.
  destruct (forEachEntry_entry _ _ _ _ _ _ (passesOf_connect h i p Hp) (proj1 X0) E Hk)
    as (st1 & st2 & X2 & E2 & X3).
  rewrite (passesOf_body h i p Hp) in E2.
  assert (2 ≤ pass_min p) as Hmin.
  { simpl in Hp. destruct Hp as [<-|[<-|[<-|[<-|[<-|[<-|[]]]]]]]; simpl; lia. }
  destruct (Nat.ltb_spec (length set) (pass_min p)) as [?|_]; [lia|].
  destruct (connectMany_spec _ _ _ _ (proj1 X2) E2) as (_ & Hs).
  destruct Hs as [Hev _]; [lia|].
  destruct X1 as (_ & _ & X1). destruct X3 as (_ & _ & X3).
  apply X1, X3. by apply Hev.
Qed.

(** X28. When the evidence of a returned group has fewer than eight
    strings it is complete: it holds every reason the ledger has for a
    pair of two different members, and so, for every set that reaches the
    threshold of its pass and lies inside the group, the reason of that
    pass for the key of the set. *)
Theorem X28_evidence_complete h i out g :
  computeControllerGroups h i = Some out → In g (groups out) →
  length (evidence g) < 8 →
  (∀ a b r, In a (members g) → In b (members g) → a ≠ b →
     In r (reasonsAt (ledgerOf h i) (pairKey a b)) → In r (evidence g))
  ∧ (∀ p k set, In p (passesOf h i) → In (k, set) (pass_map p) →
       pass_min p ≤ length set → (∀ a, In a set → In a (members g)) →
       In (pass_label p ++ k) (evidence g)).
Proof.
  intros Hout Hg Hlen.
  assert (∀ a b r, In a (members g) → In b (members g) → a ≠ b →
            In r (reasonsAt (ledgerOf h i) (pairKey a b)) → In r (evidence g)) as Hall.
  { intros a b r Ha Hb Hne Hr.
    destruct (group_component h i out g a Hout Hg Ha) as (_ & _ & _ & _ & Hev).
    assert (evidence g = collectReasons (ledgerOf h i) (members g)) as Eev.
    { rewrite Hev. apply take_ge. rewrite Hev in Hlen.
      rewrite length_take in Hlen. lia. }
    rewrite Eev. apply (collectReasons_complete _ _ a b); try done. by rewrite <- Eev. }
  split; [done|].
  intros p k set Hp Hk Ht Hset.
  assert (2 ≤ pass_min p) as Hmin.
  { simpl in Hp. destruct Hp as [<-|[<-|[<-|[<-|[<-|[<-|[]]]]]]]; simpl; lia. }
  destruct set as [|first [|m rest]] eqn:Eset; [simpl in Ht; lia..|].
  apply (Hall first m).
  - apply Hset. by left.
  - apply Hset. right. by left.
  - pose proof (passesOf_distinct h i p Hp k _ Hk) as Hnd.
    apply NoDup_cons in Hnd as [Hf _]. intros ->. apply Hf. by left.
  - apply (pass_records h i p k (first :: m :: rest) m Hp Hk Ht). by left.
Qed.

Lemma X28_evidence_complete_witness :
  (∀ a b r, In a (members ex_three_links_group) → In b (members ex_three_links_group) →
     a ≠ b →
     In r (reasonsAt (ledgerOf simpleHostname ex_three_links) (pairKey a b)) →
     In r (evidence ex_three_links_group))
  ∧ (∀ p k set, In p (passesOf simpleHostname ex_three_links) → In (k, set) (pass_map p) →
       pass_min p ≤ length set → (∀ a, In a set → In a (members ex_three_links_group)) →
       In (pass_label p ++ k) (evidence ex_three_links_group)).
Proof.
  apply (X28_evidence_complete simpleHostname ex_three_links (outputOf ex_three_links)
           ex_three_links_group).
  - vm_compute. reflexivity.
  - vm_compute. left. reflexivity.
  - simpl. lia.
Defined.

(** ** The score grows with the group and with the evidence *)

Definition rampAll : list Num.num :=
  Eval vm_compute in [ramp 0; ramp 1; ramp 2; ramp 3; ramp 4; Num.c_0_25].

Lemma ramp_clip n : ramp n = nth (Nat.min n 5) rampAll Num.c_0_25.
Proof.
  do 5 (destruct n as [|n]; [by vm_compute|]).
  rewrite ramp_five by lia. rewrite Nat.min_r by lia. reflexivity.
Qed.

Definition flags : list (bool * bool * bool * bool) :=
  flat_map (λ w, flat_map (λ f, flat_map (λ l, map (λ d, (w, f, l, d)) [false; true])
    [false; true]) [false; true]) [false; true].

Lemma flags_all w f l d : In (w, f, l, d) flags.
Proof. destruct w, f, l, d; vm_compute; tauto. Qed.

(** Every step up in the size term or in the indicators, checked on all
    the values they take. *)
Definition scoreSteps : bool :=
  forallb (λ i, forallb (λ j,
    (j <? i) ||
    forallb (λ b : bool * bool * bool * bool, forallb (λ b' : bool * bool * bool * bool,
      let '(w, f, l, d) := b in
      let '(w', f', l', d') := b' in
      negb (implb w w' && implb f f' && implb l l' && implb d d')
      || SFleb (scoreFrom (nth i rampAll Num.c_0_25) w f l d)
               (scoreFrom (nth j rampAll Num.c_0_25) w' f' l' d')) flags) flags)
    (seq 0 6)) (seq 0 6).

Lemma scoreSteps_hold : scoreSteps = true.
Proof. by vm_compute. Qed.

Lemma hasReason_mono pre rs rs' :
  (∀ r, In r rs → In r rs') → hasReason pre rs = true → hasReason pre rs' = true.
Proof.
  intros Hin. unfold hasReason. rewrite !existsb_exists.
  intros (r & Hr & E). exists r. split; [by apply Hin | done].
Qed.

(** X29. The score does not go down when a group has more members or
    more reasons: with at least as many members and every reason of the
    one list in the other, the score is at least as high. *)
Theorem X29_score_monotone n n' rs rs' :
  n ≤ n' → (∀ r, In r rs → In r rs') →
  SFleb (computeScore n rs) (computeScore n' rs') = true.
Proof.
  intros Hn Hin. rewrite !computeScore_from, !ramp_clip.
  pose proof scoreSteps_hold as H0. unfold scoreSteps in H0.
  rewrite forallb_forall in H0.
  assert (In (Nat.min n 5) (seq 0 6)) as Hi by (apply in_seq; lia).
  assert (In (Nat.min n' 5) (seq 0 6)) as Hj by (apply in_seq; lia).
  pose proof (H0 _ Hi) as H1. rewrite forallb_forall in H1.
  pose proof (H1 _ Hj) as H2.
  apply orb_true_iff in H2 as [H2|H2]; [apply Nat.ltb_lt in H2; lia|].
  rewrite forallb_forall in H2.
  pose proof (H2 _ (flags_all (hasReason "Shared wallet:" rs) (hasReason "Common funder:" rs)
                      (hasReason "Shared link:" rs) (hasReason "Shared domain:" rs))) as H3.
  rewrite forallb_forall in H3.
  pose proof (H3 _ (flags_all (hasReason "Shared wallet:" rs') (hasReason "Common funder:" rs')
                      (hasReason "Shared link:" rs') (hasReason "Shared domain:" rs'))) as H.
  cbn beta iota in H. apply orb_true_iff in H as [H|H]; [|done].
  apply negb_true_iff in H.
  assert (∀ pre, implb (hasReason pre rs) (hasReason pre rs') = true) as Himp.
  { intros pre. destruct (hasReason pre rs) eqn:E; [|done]. simpl.
    by apply (hasReason_mono pre rs rs'). }
  by rewrite !Himp in H.
Qed.

Lemma X29_score_monotone_witness :
  SFleb (computeScore 2 ["Shared link: l"])
        (computeScore 3 ["Shared wallet: w"; "Shared link: l"]) = true.
Proof.
  apply (X29_score_monotone 2 3 ["Shared link: l"] ["Shared wallet: w"; "Shared link: l"]).
  - lia.
  - intros r [<-|[]]. right. left. reflexivity.
Defined.

(** ** Base handles *)

(** The base handle the pass computes for an actor, if it computes
    one. *)
Definition baseHandle (actor : string) : option string :=
  let parts := Str.split ":" actor in
  if length parts <? 2 then None
  else
    let base := Str.toLowerCase (Str.trim (Str.join ":" (tail parts))) in
    if String.length base <? 3 then None else Some base.

Definition noColon (s : string) : bool :=
  Str.all (λ c, negb (Ascii.eqb c ":")) s.

Lemma split_nonempty sep s : Str.split sep s ≠ [].
Proof.
  destruct s as [|c r]; simpl; [done|].
  destruct (Ascii.eqb c sep); [done|]. by destruct (Str.split sep r).
Qed.

Lemma join_cons sep p q qs :
  Str.join sep (p :: q :: qs) = p ++ sep ++ Str.join sep (q :: qs).
Proof. reflexivity. Qed.

Lemma split_join s : Str.join ":" (Str.split ":" s) = s.
Proof.
  induction s as [|c r IH]; [done|]. cbn [Str.split].
  pose proof (split_nonempty ":" r) as Hne.
  destruct (Ascii.eqb_spec c ":") as [->|Hc].
  - destruct (Str.split ":" r) as [|q qs]; [done|]. rewrite join_cons, IH. reflexivity.
  - destruct (Str.split ":" r) as [|q qs]; [done|].
    destruct qs as [|q' qs].
    + simpl in *. by rewrite IH.
    + rewrite join_cons in *. rewrite append_cons. by rewrite IH.
Qed.

Lemma split_noColon s : noColon s = true → Str.split ":" s = [s].
Proof.
  induction s as [|c r IH]; [done|]. unfold noColon. simpl.
  intros [Hc Hr]%andb_true_iff. apply negb_true_iff in Hc. rewrite Hc.
  by rewrite (IH Hr).
Qed.

Lemma split_first p t :
  noColon p = true → Str.split ":" (p ++ ":" ++ t) = p :: Str.split ":" t.
Proof.
  induction p as [|c r IH]; [done|]. unfold noColon. rewrite append_cons. cbn [Str.all Str.split].
  intros [Hc Hr]%andb_true_iff. apply negb_true_iff in Hc. rewrite Hc.
  by rewrite (IH Hr).
Qed.

Lemma baseHandleToActors_fold i :
  baseHandleToActors i =
  fold_left
    (λ m actor, match baseHandle actor with Some b => addToSet b actor m | None => m end)
    (actors i) [].
Proof.
  unfold baseHandleToActors. apply fold_left_ext. intros m actor. unfold baseHandle.
  destruct (_ <? 2); [done|]. by destruct (_ <? 3).
Qed.

(** X30. Splitting a string at the colons and joining the parts with
    colons gives the string back. An actor identifier without a colon has
    no base handle; for an identifier with a colon-free platform before
    the first colon the base handle is what follows that colon, trimmed
    and in lower case, if it has at least three characters. The sets of
    the base-handle pass hold, under each base handle, exactly the actors
    with that base handle. *)
Theorem X30_base_handles i :
  (∀ s, Str.join ":" (Str.split ":" s) = s)
  ∧ (∀ s, noColon s = true → baseHandle s = None)
  ∧ (∀ platform handle, noColon platform = true →
       baseHandle (platform ++ ":" ++ handle) =
       let base := Str.toLowerCase (Str.trim handle) in
       if String.length base <? 3 then None else Some base)
  ∧ (∀ a b, In a (actors i) → baseHandle a = Some b → memberAt (baseHandleToActors i) b a)
  ∧ (∀ b set a, In (b, set) (baseHandleToActors i) → In a set →
       In a (actors i) ∧ baseHandle a = Some b).
Proof.
  split; [apply split_join|]. split; [|split; [|split]].
  - intros s Hs. unfold baseHandle. by rewrite split_noColon.
  - intros platform handle Hp. unfold baseHandle. rewrite split_first; [|done].
    pose proof (split_nonempty ":" handle) as Hne.
    destruct (Str.split ":" handle) as [|q qs] eqn:E; [done|].
    cbn [length tail Nat.ltb Nat.leb]. by rewrite <- E, split_join.
  - intros a b Ha Hb. rewrite baseHandleToActors_fold.
    apply (fold_left_hit (λ m, memberAt m b a) _ _ _ a); [| |done].
    + intros m x Hm. destruct (baseHandle x); [by apply memberAt_mono | done].
    + intros m. rewrite Hb. apply memberAt_add.
  - intros b set a Hin Ha. split; [by apply (baseHandleToActors_ok i b set Hin)|].
    revert b set a Hin Ha. rewrite baseHandleToActors_fold.
    apply (fold_left_inv (λ m, ∀ b set a, In (b, set) m → In a set → baseHandle a = Some b)
             (λ _, True)); [|done|done].
    intros m x Hm _ b set a Hin Ha. destruct (baseHandle x) as [bx|] eqn:Ex; [|by eapply Hm].
    apply in_addToSet in Hin as [[-> ->]|[Hin|(-> & set0 & Hin & ->)]].
    + destruct Ha as [<-|[]]. done.
    + by eapply Hm.
    + apply in_setAdd in Ha as [->|Ha]; [done|]. by eapply Hm.
Qed.

Lemma X30_base_handles_witness :
  baseHandle ("github" ++ ":" ++ " Alice ") =
  let base := Str.toLowerCase (Str.trim " Alice ") in
  if String.length base <? 3 then None else Some base.
Proof.
  apply (proj1 (proj2 (proj2 (X30_base_handles ex_alice))) "github" " Alice ").
  reflexivity.
Defined.

(** * Properties of the fetch guard *)

(** ** The blocked hosts *)

Lemma endsWith_app s suf : endsWith (s ++ suf) suf = true.
Proof.
  induction s as [|c s IH].
  - destruct suf; simpl; by rewrite ?Ascii.eqb_refl, ?String.eqb_refl.
  - rewrite append_cons. cbn [endsWith]. rewrite IH. apply orb_true_r.
Qed.

(** A non-empty string of digits, and four of them with dots between. *)
Definition isDigits (p : string) : bool :=
  negb (String.eqb p "") && Str.all Str.is_digit p.

Definition quad (p1 p2 p3 p4 : string) : string :=
  p1 ++ "." ++ p2 ++ "." ++ p3 ++ "." ++ p4.

Lemma split_digits p : Str.all Str.is_digit p = true → Str.split "." p = [p].
Proof.
  induction p as [|c p IH]; [done|]. simpl. intros [Hc Hp]%andb_true_iff.
  destruct (Ascii.eqb_spec c ".") as [->|_]; [done|]. by rewrite IH.
Qed.

Lemma split_digits_dot p t :
  Str.all Str.is_digit p = true → Str.split "." (p ++ "." ++ t) = p :: Str.split "." t.
Proof.
  induction p as [|c p IH]; [done|]. rewrite append_cons. cbn [Str.all Str.split].
  intros [Hc Hp]%andb_true_iff.
  destruct (Ascii.eqb_spec c ".") as [->|_]; [done|]. by rewrite IH.
Qed.

Lemma split_quad p1 p2 p3 p4 :
  Str.all Str.is_digit p1 = true → Str.all Str.is_digit p2 = true →
  Str.all Str.is_digit p3 = true → Str.all Str.is_digit p4 = true →
  Str.split "." (quad p1 p2 p3 p4) = [p1; p2; p3; p4].
Proof.
  intros H1 H2 H3 H4. unfold quad.
  by rewrite !split_digits_dot, split_digits.
Qed.

Lemma digit_lower c : Str.is_digit c = true → Str.lower_char c = c.
Proof. by destruct c as [[] [] [] [] [] [] [] []]. Qed.

Lemma toLowerCase_digits p : Str.all Str.is_digit p = true → Str.toLowerCase p = p.
Proof.
  induction p as [|c p IH]; [done|]. simpl. intros [Hc Hp]%andb_true_iff.
  by rewrite digit_lower, IH.
Qed.

Lemma toLowerCase_quad p1 p2 p3 p4 :
  Str.all Str.is_digit p1 = true → Str.all Str.is_digit p2 = true →
  Str.all Str.is_digit p3 = true → Str.all Str.is_digit p4 = true →
  Str.toLowerCase (quad p1 p2 p3 p4) = quad p1 p2 p3 p4.
Proof.
  intros H1 H2 H3 H4. unfold quad.
  rewrite !toLowerCase_app.
  by rewrite (toLowerCase_digits p1), (toLowerCase_digits p2), (toLowerCase_digits p3),
    (toLowerCase_digits p4).
Qed.

(** The last character. *)
Fixpoint lastChar (s : string) : option ascii :=
  match s with
  | EmptyString => None
  | String c EmptyString => Some c
  | String _ r => lastChar r
  end.

Lemma lastChar_app s t : t ≠ "" → lastChar (s ++ t) = lastChar t.
Proof.
  intros Ht. induction s as [|c s IH]; [done|]. rewrite append_cons.
  cbn [lastChar]. rewrite IH. destruct (s ++ t) eqn:E; [|done].
  destruct s, t; done.
Qed.

Lemma lastChar_dot s t : t ≠ "" → lastChar (s ++ "." ++ t) = lastChar t.
Proof.
  intros Ht. rewrite lastChar_app; [|by rewrite append_cons].
  by apply (lastChar_app ".").
Qed.

Lemma endsWith_lastChar s suf :
  suf ≠ "" → endsWith s suf = true → lastChar s = lastChar suf.
Proof.
  intros Hs. induction s as [|c s IH]; cbn [endsWith].
  - rewrite orb_false_r. intros E%String.eqb_eq. by subst.
  - intros [E | E]%orb_true_iff.
    + apply String.eqb_eq in E. by rewrite <- E.
    + rewrite <- (IH E). destruct s; [|done]. cbn [endsWith] in E.
      rewrite orb_false_r in E. apply String.eqb_eq in E. by subst.
Qed.

Lemma lastChar_digits p :
  isDigits p = true → ∃ c, lastChar p = Some c ∧ Str.is_digit c = true.
Proof.
  unfold isDigits. intros [Hne Hd]%andb_true_iff.
  induction p as [|c p IH]; [done|]. simpl in Hd. apply andb_true_iff in Hd as [Hc Hp].
  destruct p as [|d p]; [by exists c|]. destruct IH as (c' & E & Hc'); [done..|].
  exists c'. by split.
Qed.

Lemma parseInt10_digits p : isDigits p = true → parseInt10 p = Some (digitsValue 0 p).
Proof.
  unfold isDigits. intros [Hne Hd]%andb_true_iff.
  destruct p as [|c p]; [done|]. simpl in Hd. apply andb_true_iff in Hd as [Hc Hp].
  unfold parseInt10.
  assert (Str.trimStart (String c p) = String c p) as ->.
  { simpl. by destruct c as [[] [] [] [] [] [] [] []]. }
  assert (match String c p with
          | String "-" r => (true, r)
          | String "+" r => (false, r)
          | _ => (false, String c p)
          end = (false, String c p)) as ->.
  { by destruct c as [[] [] [] [] [] [] [] []]. }
  by rewrite Hc.
Qed.

(** The ranges the source tests on the first two numbers. *)
Definition inBlockedRange (a b : Z) : bool :=
  ((a =? 10) || (a =? 127) || ((a =? 169) && (b =? 254))
   || ((a =? 172) && (16 <=? b) && (b <=? 31)) || ((a =? 192) && (b =? 168)))%Z.

(** X23. [isBlockedHost] does not look at the letter case of the host,
    and it blocks every host whose name ends in ".local", in any letter
    case. *)
Theorem X23_blocked_names h h' s suffix :
  (Str.toLowerCase h = Str.toLowerCase h' → isBlockedHost h = isBlockedHost h')
  ∧ (Str.toLowerCase suffix = ".local" → isBlockedHost (s ++ suffix) = true).
Proof.
  split.
  - intros E. unfold isBlockedHost. by rewrite E.
  - intros E. unfold isBlockedHost. rewrite toLowerCase_app, E, endsWith_app.
    by rewrite orb_true_r.
Qed.

Lemma X23_blocked_names_witness :
  isBlockedHost "LocalHost" = isBlockedHost "localhost"
  ∧ isBlockedHost ("printer" ++ ".LOCAL") = true.
Proof.
  split.
  - apply (proj1 (X23_blocked_names "LocalHost" "localhost" "" "")). reflexivity.
  - apply (proj2 (X23_blocked_names "" "" "printer" ".LOCAL")). reflexivity.
Defined.

(** X24. A host written as four non-empty runs of digits with dots
    between is blocked exactly when it is ["0.0.0.0"] or its first two
    numbers, read in base ten, are in one of the ranges 10.x, 127.x,
    169.254.x, 172.16.x to 172.31.x and 192.168.x; the last two numbers
    play no part. *)
Theorem X24_blocked_quads p1 p2 p3 p4 :
  isDigits p1 = true → isDigits p2 = true → isDigits p3 = true → isDigits p4 = true →
  isBlockedHost (quad p1 p2 p3 p4) =
  String.eqb (quad p1 p2 p3 p4) "0.0.0.0"
  || inBlockedRange (digitsValue 0 p1) (digitsValue 0 p2).
Proof.
  intros D1 D2 D3 D4.
  pose proof D1 as [N1 A1]%andb_true_iff. pose proof D2 as [N2 A2]%andb_true_iff.
  pose proof D3 as [N3 A3]%andb_true_iff. pose proof D4 as [N4 A4]%andb_true_iff.
  unfold isBlockedHost. rewrite toLowerCase_quad; [|done..].
  set (h := quad p1 p2 p3 p4).
  assert (String.eqb h "localhost" = false) as ->.
  { apply String.eqb_neq. intros E. unfold h, quad in E.
    destruct p1 as [|c p1]; [done|]. rewrite append_cons in E. injection E as -> _.
    simpl in A1. done. }
  assert (endsWith h ".local" = false) as ->.
  { destruct (endsWith h ".local") eqn:E; [|done].
    apply endsWith_lastChar in E; [|done].
    unfold h, quad in E.
    assert (p4 ≠ "") as Hp4 by (by intros ->).
    rewrite !lastChar_dot in E; [|done|by destruct p3|by destruct p2].
    destruct (lastChar_digits p4 D4) as (c & Ec & Hc). rewrite Ec in E.
    simpl in E. injection E as ->. done. }
  assert (String.eqb h "::1" = false) as ->.
  { apply String.eqb_neq. intros E. unfold h, quad in E.
    destruct p1 as [|c p1]; [done|]. rewrite append_cons in E. injection E as -> _.
    simpl in A1. done. }
  assert (Str.split "." h = [p1; p2; p3; p4]) as Es by (by apply split_quad).
  unfold isDottedQuad. rewrite !Es.
  cbn [forallb]. fold (isDigits p1) (isDigits p2) (isDigits p3) (isDigits p4).
  rewrite D1, D2, D3, D4. cbn [andb map nth].
  rewrite !parseInt10_digits; [|done..]. cbn [numIs numGe numLe orb].
  destruct (String.eqb_spec h "127.0.0.1") as [E|_].
  { rewrite E in Es. injection Es as <- <- <- <-. by vm_compute. }
  cbn [orb]. destruct (String.eqb h "0.0.0.0"); [done|]. cbn [orb].
  unfold inBlockedRange.
  by destruct (digitsValue 0 p1 =? 10)%Z, (digitsValue 0 p1 =? 127)%Z,
    (digitsValue 0 p1 =? 169)%Z, (digitsValue 0 p2 =? 254)%Z,
    (digitsValue 0 p1 =? 172)%Z, (16 <=? digitsValue 0 p2)%Z,
    (digitsValue 0 p2 <=? 31)%Z, (digitsValue 0 p1 =? 192)%Z,
    (digitsValue 0 p2 =? 168)%Z.
Qed.

Lemma X24_blocked_quads_witness :
  isBlockedHost (quad "172" "31" "255" "1") =
  String.eqb (quad "172" "31" "255" "1") "0.0.0.0"
  || inBlockedRange (digitsValue 0 "172") (digitsValue 0 "31").
Proof. apply (X24_blocked_quads "172" "31" "255" "1"); reflexivity. Defined.

(** ** The requests of a run *)

Definition allowedUrl (allowHttp : bool) (u : Url) : Prop :=
  (protocol u = "https:" ∨ (allowHttp = true ∧ protocol u = "http:"))
  ∧ isBlockedHost (hostname u) = false.

Lemma assertAllowedUrl_ok u a : assertAllowedUrl u a = Returned tt ↔ allowedUrl a u.
Proof.
  unfold assertAllowedUrl, allowedUrl.
  destruct (String.eqb_spec (protocol u) "https:") as [E|E];
    destruct a; destruct (String.eqb_spec (protocol u) "http:") as [E'|E'];
    destruct (isBlockedHost (hostname u)); simpl; split; try done; try tauto;
    try (intros [[?|[? ?]] ?]; done).
Qed.

Lemma assertAllowedUrl_returned u a x : assertAllowedUrl u a = Returned x → allowedUrl a u.
Proof. destruct x. apply assertAllowedUrl_ok. Qed.

Section Runs.

Context {World : Type}.
Variable parseUrl : string → Outcome Url.
Variable resolveUrl : string → string → Outcome Url.
Variable fetch :
  World → string → list (string * string) → Z → World * Outcome Response.
Variable decodeUtf8 : list Byte.byte → string.

Definition worldAfter (run : Run World) : World := fst (fst run).
Definition requests (run : Run World) : list Url := snd (fst run).
Definition outcome (run : Run World) : Outcome FetchedText := snd run.

(** The answer a successful run was built from. *)
Definition builtFrom (maxBytes : Z) (u : Url) (res : Response) (t : FetchedText) : Prop :=
  isRedirect (status res) = false ∧ ok res = true
  ∧ finalUrl t = href u
  ∧ contentType t = match headerContentType res with Some c => c | None => "" end
  ∧ ∃ buf, bodyBytes res = Returned buf
           ∧ (Z.of_nat (length buf) ≤ maxBytes)%Z
           ∧ text t = decodeUtf8 buf.

Lemma redirectLoop_spec maxB tmo allow headers fuel :
  ∀ w current log,
    allowedUrl allow current → Forall (allowedUrl allow) log →
    let run := redirectLoop World resolveUrl fetch decodeUtf8 maxB tmo allow headers
                 fuel w current log in
    Forall (allowedUrl allow) (requests run)
    ∧ (∃ more, requests run = (log ++ more)%list ∧ length more ≤ fuel
               ∧ (0 < fuel → more ≠ []))
    ∧ ∀ t, outcome run = Returned t →
        ∃ before u w0 res,
          requests run = (before ++ [u])%list
          ∧ fetch w0 (href u) headers tmo = (worldAfter run, Returned res)
          ∧ builtFrom maxB u res t.
Proof.
  induction fuel as [|fuel IH]; intros w current log Hc Hl; cbn zeta.
  { simpl. split; [done|]. split; [|done]. exists []. rewrite app_nil_r. split; [done|].
    split; [done|lia]. }
  cbn [redirectLoop].
  destruct (fetch w (href current) headers tmo) as [w1 fetched] eqn:Ef.
  assert (Forall (allowedUrl allow) (log ++ [current])) as Hl'.
  { apply Forall_app. split; [done|]. by constructor. }
  assert (∀ (o : Outcome FetchedText),
            (∀ t, o ≠ Returned t) →
            let run : Run World := (w1, (log ++ [current])%list, o) in
            Forall (allowedUrl allow) (requests run)
            ∧ (∃ more, requests run = (log ++ more)%list ∧ length more ≤ S fuel
                       ∧ (0 < S fuel → more ≠ []))
            ∧ ∀ t, outcome run = Returned t →
                ∃ before u w0 res,
                  requests run = (before ++ [u])%list
                  ∧ fetch w0 (href u) headers tmo = (worldAfter run, Returned res)
                  ∧ builtFrom maxB u res t) as Hstop.
  { intros o Ho run. split; [done|]. split.
    - exists [current]. split; [done|]. split; [simpl; lia|done].
    - intros t Ht. by destruct (Ho t). }
  destruct fetched as [res|e]; [|by apply Hstop].
  destruct (isRedirect (status res)) eqn:Er.
  - destruct (headerLocation res) as [[|c loc]|]; [by apply Hstop| |by apply Hstop].
    destruct (resolveUrl (String c loc) (href current)) as [next|e]; [|by apply Hstop].
    destruct (assertAllowedUrl next allow) as [x|e] eqn:Ea; [|by apply Hstop].
    apply assertAllowedUrl_returned in Ea.
    destruct (IH w1 next (log ++ [current])%list Ea Hl') as (I1 & (more & Em & Hm & _) & I3).
    split; [done|]. split; [|done].
    exists (current :: more). rewrite Em, <- app_assoc. split; [done|].
    split; [simpl; lia|done].
  - destruct (ok res) eqn:Eo; cbn [negb]; [|by apply Hstop].
    destruct (bodyBytes res) as [buf|e] eqn:Eb; [|by apply Hstop].
    destruct (Z.ltb_spec maxB (Z.of_nat (length buf))) as [?|Hle]; [by apply Hstop|].
    split; [done|]. split.
    + exists [current]. split; [done|]. split; [simpl; lia|done].
    + intros t [= <-]. exists log, current, w, res. split; [done|]. split; [done|].
      split; [done|]. split; [done|]. split; [done|]. split; [done|].
      exists buf. done.
Qed.

Definition clampedRedirects (opts : SafeFetchOptions) : Z :=
  Z.min (Z.max (match maxRedirects opts with Some n => n | None => 3 end) 0) 10.

Definition httpAllowed (opts : SafeFetchOptions) : bool :=
  match allowHttp opts with Some b => b | None => false end.

Definition headersOf (opts : SafeFetchOptions) : list (string * string) :=
  match userAgent opts with
  | Some ua => if String.eqb ua "" then [] else [("User-Agent", ua)]
  | None => []
  end.

Lemma redirectLoop_chain maxB tmo allow headers fuel :
  (∀ w u hs t, ∃ w' res c loc,
     fetch w u hs t = (w', Returned res) ∧ isRedirect (status res) = true
     ∧ headerLocation res = Some (String c loc)) →
  (∀ loc base, ∃ next, resolveUrl loc base = Returned next ∧ allowedUrl allow next) →
  ∀ w current log,
    let run := redirectLoop World resolveUrl fetch decodeUtf8 maxB tmo allow headers
                 fuel w current log in
    outcome run = Threw (Error "Too many redirects")
    ∧ length (requests run) = length log + fuel.
Proof.
  intros Hf Hr. induction fuel as [|fuel IH]; intros w current log; cbn zeta.
  { unfold requests, outcome. simpl. split; [done|lia]. }
  cbn [redirectLoop].
  destruct (Hf w (href current) headers tmo) as (w' & res & c & loc & -> & -> & ->).
  destruct (Hr (String c loc) (href current)) as (next & -> & Ha).
  apply assertAllowedUrl_ok in Ha. rewrite Ha.
  destruct (IH w' next (log ++ [current])%list) as [I1 I2]. split; [done|].
  rewrite I2, List.length_app. simpl. lia.
Qed.

End Runs.

(** X25. Every URL a run gives to [fetch] has passed [assertAllowedUrl]:
    its protocol is "https:", or "http:" when the options allow it, and
    its host is not blocked. A run makes at most one request more than
    the number of redirects it may follow, which is [maxRedirects] (3 when
    absent) brought into the range 0 to 10, so never more than eleven. *)
Theorem X25_requests_allowed {World : Type}
    (parseUrl : string → Outcome Url) (resolveUrl : string → string → Outcome Url)
    (fetch : World → string → list (string * string) → Z → World * Outcome Response)
    (decodeUtf8 : list Byte.byte → string) w url opts :
  let run := safeFetchTextWithLimit World parseUrl resolveUrl fetch decodeUtf8 w url opts in
  Forall (allowedUrl (httpAllowed opts)) (requests run)
  ∧ (Z.of_nat (length (requests run)) ≤ clampedRedirects opts + 1)%Z
  ∧ length (requests run) ≤ 11.
Proof.
  cbn zeta. unfold safeFetchTextWithLimit.
  fold (clampedRedirects opts) (httpAllowed opts).
  assert (0 ≤ clampedRedirects opts ≤ 10)%Z as Hc by (unfold clampedRedirects; lia).
  destruct (parseUrl url) as [current|e]; [|simpl; split; [done|lia]].
  destruct (assertAllowedUrl current (httpAllowed opts)) as [x|e] eqn:Ea;
    [|simpl; split; [done|lia]].
  apply assertAllowedUrl_returned in Ea.
  destruct (redirectLoop_spec resolveUrl fetch decodeUtf8
              (Z.max 1 (maxBytes opts)) (Z.max 1000 (timeoutMs opts))
              (httpAllowed opts) (headersOf opts)
              (Z.to_nat (clampedRedirects opts + 1)) w current [] Ea (Forall_nil_2 _))
    as (I1 & (more & Em & Hm & _) & _).
  unfold headersOf in *. split; [done|]. rewrite Em. simpl. lia.
Qed.

(** X26. A run that returns a text made at least one request, and its
    result comes from the answer to the last one: that answer is no
    redirect and has [ok] set, its body has at most [max(1, maxBytes)]
    bytes and the text is the decoding of that body, [finalUrl] is the
    URL of that request and [contentType] its content-type header, or the
    empty string without one. *)
Theorem X26_returned_text {World : Type}
    (parseUrl : string → Outcome Url) (resolveUrl : string → string → Outcome Url)
    (fetch : World → string → list (string * string) → Z → World * Outcome Response)
    (decodeUtf8 : list Byte.byte → string) w url opts t :
  let run := safeFetchTextWithLimit World parseUrl resolveUrl fetch decodeUtf8 w url opts in
  outcome run = Returned t →
  ∃ before u w0 res,
    requests run = (before ++ [u])%list
    ∧ fetch w0 (href u) (headersOf opts) (Z.max 1000 (timeoutMs opts))
      = (worldAfter run, Returned res)
    ∧ builtFrom decodeUtf8 (Z.max 1 (maxBytes opts)) u res t.
Proof.
  cbn zeta. unfold safeFetchTextWithLimit.
  fold (clampedRedirects opts) (httpAllowed opts).
  destruct (parseUrl url) as [current|e]; [|done].
  destruct (assertAllowedUrl current (httpAllowed opts)) as [x|e] eqn:Ea; [|done].
  apply assertAllowedUrl_returned in Ea.
  destruct (redirectLoop_spec resolveUrl fetch decodeUtf8
              (Z.max 1 (maxBytes opts)) (Z.max 1000 (timeoutMs opts))
              (httpAllowed opts) (headersOf opts)
              (Z.to_nat (clampedRedirects opts + 1)) w current [] Ea (Forall_nil_2 _))
    as (_ & _ & I3).
  exact (I3 t).
Qed.

(** X27. When the first URL is allowed and every request is answered by
    a redirect with a location that resolves to an allowed URL, the run
    stops by itself: it makes one request more than the number of
    redirects it may follow and throws "Too many redirects". *)
Theorem X27_redirect_chain_stops {World : Type}
    (parseUrl : string → Outcome Url) (resolveUrl : string → string → Outcome Url)
    (fetch : World → string → list (string * string) → Z → World * Outcome Response)
    (decodeUtf8 : list Byte.byte → string) w url opts current :
  parseUrl url = Returned current → allowedUrl (httpAllowed opts) current →
  (∀ w u hs t, ∃ w' res c loc,
     fetch w u hs t = (w', Returned res) ∧ isRedirect (status res) = true
     ∧ headerLocation res = Some (String c loc)) →
  (∀ loc base, ∃ next, resolveUrl loc base = Returned next
                       ∧ allowedUrl (httpAllowed opts) next) →
  let run := safeFetchTextWithLimit World parseUrl resolveUrl fetch decodeUtf8 w url opts in
  outcome run = Threw (Error "Too many redirects")
  ∧ (Z.of_nat (length (requests run)) = clampedRedirects opts + 1)%Z.
Proof.
  intros Ep Ha Hf Hr. cbn zeta. unfold safeFetchTextWithLimit.
  fold (clampedRedirects opts) (httpAllowed opts). rewrite Ep.
  apply assertAllowedUrl_ok in Ha. rewrite Ha.
  destruct (redirectLoop_chain resolveUrl fetch decodeUtf8
              (Z.max 1 (maxBytes opts)) (Z.max 1000 (timeoutMs opts))
              (httpAllowed opts) (headersOf opts)
              (Z.to_nat (clampedRedirects opts + 1)) Hf Hr w current []) as [I1 I2].
  unfold headersOf in *. split; [done|]. rewrite I2. simpl.
  unfold clampedRedirects. lia.
Qed.

(** ** Worked runs *)

Definition ex_parseUrl (s : string) : Outcome Url :=
  match simpleHostname s with
  | Some host =>
      Returned {| href := s;
                  protocol := if Str.startsWith s "https://" then "https:" else "http:";
                  hostname := host |}
  | None => Threw (Platform "TypeError")
  end.

Definition ex_resolveUrl (location base : string) : Outcome Url := ex_parseUrl location.

Definition ex_response (status : Z) (location : option string) (body : list Byte.byte)
  : Response :=
  {| status := status;
     ok := (200 <=? status)%Z && (status <=? 299)%Z;
     statusText := "";
     headerLocation := location;
     headerContentType := Some "text/plain";
     bodyText := Returned "";
     bodyBytes := Returned body |}.

(** A world that counts the requests; one address redirects to another,
    which answers with two bytes. *)
Definition ex_fetch (w : nat) (url : string) (headers : list (string * string)) (timeout : Z)
  : nat * Outcome Response :=
  (S w,
   if String.eqb url "https://a.example/start"
   then Returned (ex_response 302 (Some "https://b.example/page") [])
   else if String.eqb url "https://b.example/page"
   then Returned (ex_response 200 None [Byte.x68; Byte.x69])
   else Threw (Platform "TypeError")).

(** A server that always redirects to the same address. *)
Definition ex_fetch_loop (w : nat) (url : string) (headers : list (string * string))
    (timeout : Z) : nat * Outcome Response :=
  (S w, Returned (ex_response 302 (Some "https://a.example/start") [])).

Definition ex_decode (buf : list Byte.byte) : string := string_of_list_byte buf.

Definition ex_options : SafeFetchOptions :=
  {| maxBytes := 10; timeoutMs := 5000; userAgent := None; allowHttp := None;
     maxRedirects := None |}.

Definition ex_run : Run nat :=
  safeFetchTextWithLimit nat ex_parseUrl ex_resolveUrl ex_fetch ex_decode 0
    "https://a.example/start" ex_options.

Lemma ex_run_result :
  ex_run = (2, [ {| href := "https://a.example/start"; protocol := "https:";
                    hostname := "a.example" |};
                 {| href := "https://b.example/page"; protocol := "https:";
                    hostname := "b.example" |} ],
            Returned {| contentType := "text/plain"; text := "hi";
                        finalUrl := "https://b.example/page" |}).
Proof. by vm_compute. Qed.

Lemma X26_returned_text_witness :
  ∃ before u w0 res,
    requests ex_run = (before ++ [u])%list
    ∧ ex_fetch w0 (href u) (headersOf ex_options) (Z.max 1000 (timeoutMs ex_options))
      = (worldAfter ex_run, Returned res)
    ∧ builtFrom ex_decode (Z.max 1 (maxBytes ex_options)) u res
        {| contentType := "text/plain"; text := "hi"; finalUrl := "https://b.example/page" |}.
Proof.
  apply (X26_returned_text ex_parseUrl ex_resolveUrl ex_fetch ex_decode 0
           "https://a.example/start" ex_options). by vm_compute.
Defined.

Lemma X27_redirect_chain_stops_witness :
  let run := safeFetchTextWithLimit nat ex_parseUrl
               (λ _ _, ex_parseUrl "https://a.example/start") ex_fetch_loop ex_decode 0
               "https://a.example/start" ex_options in
  outcome run = Threw (Error "Too many redirects")
  ∧ (Z.of_nat (length (requests run)) = clampedRedirects ex_options + 1)%Z.
Proof.
  apply (X27_redirect_chain_stops ex_parseUrl (λ _ _, ex_parseUrl "https://a.example/start")
           ex_fetch_loop ex_decode 0 "https://a.example/start" ex_options
           {| href := "https://a.example/start"; protocol := "https:";
              hostname := "a.example" |}).
  - reflexivity.
  - split; [by left | by vm_compute].
  - intros w u hs t. by eexists (S w), _, _, _.
  - intros loc base. eexists. split; [by vm_compute|]. split; [by left | by vm_compute].
Defined.
